(** * Graph consolidation and incremental reconciliation

    A shallow embedding of the consolidation pipeline of the optimize
    lambda ([mergeNodes], [rewireEdges], the topic resolution and paper
    lookup chain of [handler]) and of the client-side reconciliation in
    [graph-visualization.tsx] (the two state updaters of [load], repeated
    verbatim in [handleOptimize]).

    Conventions of the embedding:
    - a JS number that is a node id is a [Z]; a relevance score is a [Q]
      (only [>], [Math.max] and [?? 0] are ever applied to it);
    - a JS string is a [string], the bytes of its text in UTF-8, an
      unpaired surrogate being the three bytes that UTF-8 would give it
      ([ED], then a byte from [A0]); [String.prototype.trim] strips the
      ASCII white space characters (tab, LF, VT, FF, CR, space);
    - an optional object field is an [option]; [None] is [undefined];
    - a [Map] or [Set] whose iteration order is never observed ([idMap],
      [idSet], [assigned], [seen]) is a [gmap] or [gset]; the [Map]s
      called [byId], whose [values()] are returned, keep insertion
      order and are association lists updated in place. *)

From Stdlib Require Import ZArith QArith Qminmax Lqa Ascii String.
From stdpp Require Import base list gmap strings pretty.

Local Open Scope Z_scope.

(** ** JavaScript primitives *)

(** [a || b] on optional strings: [undefined] and the empty string are
    falsy. *)
Definition js_or (a b : option string) : option string :=
  match a with
  | Some s => if decide (s = "") then b else Some s
  | None => b
  end.

(** [a || d] where the right operand is a string. *)
Definition js_or_str (a : option string) (d : string) : string :=
  match a with
  | Some s => if decide (s = "") then d else s
  | None => d
  end.

Fixpoint dropSpaces (l : list ascii) : list ascii :=
  match l with
  | [] => []
  | a :: l' => if Ascii.is_space a then dropSpaces l' else l
  end.

(** [s.trim()] *)
Definition trim (s : string) : string :=
  string_of_list_ascii
    (rev (dropSpaces (rev (dropSpaces (list_ascii_of_string s))))).

(** [xs.join(sep)] on an array of strings *)
Fixpoint join (sep : string) (xs : list string) : string :=
  match xs with
  | [] => ""
  | [x] => x
  | x :: xs' => x +:+ sep +:+ join sep xs'
  end.

(** Number-to-string conversion of an integer id, as in a template
    literal or in [Array.prototype.join]. *)
Definition numToString (z : Z) : string := pretty z.

(** [Math.min(x, ...xs)] and [Math.max(x, ...xs)] on a non-empty
    argument list. *)
Definition Math_min (x : Z) (xs : list Z) : Z := foldl Z.min x xs.
Definition Math_max (x : Q) (xs : list Q) : Q := foldl Qmax x xs.

(** [a > b] on numbers *)
Definition js_gt (a b : Q) : bool :=
  match (a ?= b)%Q with Gt => true | _ => false end.

(** An insertion-ordered [Map] with numeric keys. *)
Section OrderedMap.
Context {V : Type}.

Fixpoint omap_get (k : Z) (m : list (Z * V)) : option V :=
  match m with
  | [] => None
  | (k', v) :: m' => if decide (k = k') then Some v else omap_get k m'
  end.

(** [m.set(k, v)]: an existing key keeps its position. *)
Fixpoint omap_set (k : Z) (v : V) (m : list (Z * V)) : list (Z * V) :=
  match m with
  | [] => [(k, v)]
  | (k', v') :: m' =>
      if decide (k = k') then (k, v) :: m' else (k', v') :: omap_set k v m'
  end.

(** [new Map(entries)] *)
Definition omap_of (entries : list (Z * V)) : list (Z * V) :=
  foldl (λ m e, omap_set e.1 e.2 m) [] entries.

(** [[...m.values()]] *)
Definition omap_values (m : list (Z * V)) : list V := m.*2.
End OrderedMap.

(** ** Data model *)

Record Node := mkNode {
  node_id : Z;
  title : option string;
  summary : option string;
  papers : option (list string);
  relevance : option Q
}.

Record Edge := mkEdge {
  nodeID1 : Z;
  nodeID2 : Z;
  reasoning : string
}.

(** A group proposed by the clustering call; [memberIds] is an array of
    numbers by the response schema. *)
Record Group := mkGroup {
  label : option string;
  memberIds : list Z;
  group_summary : option string
}.

(** [n.relevance ?? 0] *)
Definition rel (n : Node) : Q := default 0%Q (relevance n).

(** ** optimize.js: mergeNodes *)

Section MergeNodes.
Variable nodes : list Node.

(** [new Set(nodes.map(n => n.id))] *)
Definition idSet : gset Z := list_to_set (node_id <$> nodes).

(** [g.memberIds.filter(id => idSet.has(id))] *)
Definition members (g : Group) : list Z :=
  filter (λ i, i ∈ idSet) (memberIds g).

(** [nodes.find(n => n.id === id)?.relevance ?? 0] *)
Definition relevanceOf (i : Z) : Q :=
  match find (λ n, bool_decide (node_id n = i)) nodes with
  | Some n => rel n
  | None => 0%Q
  end.

(** [(g.label || `Merged ${members.join("+")}`).trim()] *)
Definition mergedTitle (g : Group) (ms : list Z) : string :=
  trim (js_or_str (label g) ("Merged " +:+ join "+" (numToString <$> ms))).

(** [(g.summary || title).trim()] *)
Definition mergedSummary (g : Group) (ms : list Z) : string :=
  trim (js_or_str (group_summary g) (mergedTitle g ms)).

(** The object pushed on [mergedNodes] for a group whose valid members
    are [m :: ms]. *)
Definition mergedNode (g : Group) (m : Z) (ms : list Z) : Node :=
  {| node_id := Math_min m ms;
     title := Some (mergedTitle g (m :: ms));
     summary := Some (mergedSummary g (m :: ms));
     papers := Some [];
     relevance := Some (Math_max (relevanceOf m) (relevanceOf <$> ms)) |}.

Record MergeState := mkMergeState {
  assigned : gset Z;
  idMap : gmap Z Z;
  mergedNodes : list Node
}.

(** One iteration of [for (const g of groups)]. [Math.min] and
    [Math.max] are only reached with at least two members. *)
Definition mergeGroup (st : MergeState) (g : Group) : MergeState :=
  if decide (length (memberIds g) < 2)%nat then st
  else
    let ms := members g in
    if decide (length ms < 2)%nat then st
    else match ms with
         | [] => st
         | m :: rest =>
             {| assigned := foldl (λ s i, {[i]} ∪ s) (assigned st) ms;
                idMap := foldl (λ im i, <[i := Math_min m rest]> im)
                               (idMap st) ms;
                mergedNodes := mergedNodes st ++ [mergedNode g m rest] |}
         end.

Definition mergeGroups (groups : list Group) : MergeState :=
  foldl mergeGroup (mkMergeState ∅ ∅ []) groups.

(** [nodes.filter(n => !assigned.has(n.id))] *)
Definition passthrough (st : MergeState) : list Node :=
  filter (λ n, node_id n ∉ assigned st) nodes.

(** One iteration of the loop that fills [byId]. *)
Definition byIdStep (byId : list (Z * Node)) (n : Node) : list (Z * Node) :=
  match omap_get (node_id n) byId with
  | None => omap_set (node_id n) n byId
  | Some prev =>
      if js_gt (rel n) (rel prev) then omap_set (node_id n) n byId else byId
  end.

Record MergeResult := mkMergeResult {
  res_nodes : list Node;
  res_idMap : gmap Z Z
}.

Definition mergeNodes (groups : list Group) : MergeResult :=
  let st := mergeGroups groups in
  let pass := passthrough st in
  let idMap' := foldl (λ im n, <[node_id n := node_id n]> im) (idMap st) pass in
  let byId := foldl byIdStep [] (mergedNodes st ++ pass) in
  {| res_nodes := omap_values byId; res_idMap := idMap' |}.
End MergeNodes.

(** ** optimize.js: rewireEdges *)

(** The template literal [`${x}-${y}`]. *)
Definition pairKey (x y : Z) : string :=
  numToString x +:+ "-" +:+ numToString y.

Record RewireState := mkRewireState {
  out : list Edge;
  seen : gset string
}.

(** One iteration of [for (const e of edges)]. *)
Definition rewireStep (idMap : gmap Z Z) (st : RewireState) (e : Edge)
  : RewireState :=
  match idMap !! nodeID1 e, idMap !! nodeID2 e with
  | Some a, Some b =>
      if decide (a = b) then st
      else
        let x := Z.min a b in
        let y := Z.max a b in
        let k := pairKey x y in
        if decide (k ∈ seen st) then st
        else {| out := out st ++ [mkEdge x y (reasoning e)];
                seen := {[k]} ∪ seen st |}
  | _, _ => st
  end.

Definition rewireEdges (edges : list Edge) (idMap : gmap Z Z) : list Edge :=
  out (foldl (rewireStep idMap) (mkRewireState [] ∅) edges).

(** ** optimize.js: handler, step 4 (topics and papers) *)

(** [labelByMergedId], filled by the loop over [groups]. *)
Definition labelStep (m : gmap Z string) (g : Group) : gmap Z string :=
  if decide (2 ≤ length (memberIds g))%nat then
    match memberIds g with
    | [] => m
    | i :: rest => <[Math_min i rest := trim (js_or_str (label g) "")]> m
    end
  else m.

Definition labelByMergedId (groups : list Group) : gmap Z string :=
  foldl labelStep ∅ groups.

(** [labelByMergedId.get(n.id) || n.summary || n.title] *)
Definition topic (groups : list Group) (n : Node) : option string :=
  js_or (js_or (labelByMergedId groups !! node_id n) (summary n)) (title n).

(** ** optimize.js: the paper lookup providers

    The network is the environment of the lookup functions: what
    [fetch] does for a request is a parameter. A computation either
    returns or throws, and records the requests it issues. Firing of the
    abort timer makes [fetch], or the reading of the body, reject; the
    timer's delay is part of the request. The expressions that pick the
    link of one result ([w?.primary_location?.landing_page_url || ...],
    [o?.link || ...]) are parameters as well, and may throw.
    [encodeURIComponent] and the two regular expressions of [findArxiv]
    are part of the model. *)

Inductive Provider := OpenAlex | Arxiv | Scholar.

(** The request that [fetch] receives: the provider of the URL, the
    encoded query and the limit in its query string, the encoded
    [api_key] where the URL has one, and the delay of the abort timer. *)
Record Request := mkRequest {
  req_provider : Provider;
  req_query : string;
  req_limit : Z;
  req_timeout : Z;
  req_key : option string
}.

Inductive Outcome (A : Type) :=
| Returned (a : A)
| Threw.
Arguments Returned {A} a.
Arguments Threw {A}.

(** A computation: the requests issued, then how it ended. *)
Definition Comp (A : Type) : Type := list Request * Outcome A.

Definition ret {A} (a : A) : Comp A := ([], Returned a).

Definition bind {A B} (c : Comp A) (k : A → Comp B) : Comp B :=
  match c with
  | (tr, Returned a) => let '(tr', r) := k a in (tr ++ tr', r)
  | (tr, Threw) => (tr, Threw)
  end.

(** [try { body } catch { handler }] *)
Definition try_catch {A} (body handler : Comp A) : Comp A :=
  match body with
  | (tr, Threw) => let '(tr', r) := handler in (tr ++ tr', r)
  | _ => body
  end.

#[global] Instance Comp_bind : MBind Comp := λ A B k c, bind c k.

(** A pure expression that may throw. *)
Definition lift {A} (o : Outcome A) : Comp A := ([], o).

(** [xs.map(f)] where [f] may throw: the first exception ends the map. *)
Fixpoint mapThrowing {A B} (f : A → Outcome B) (xs : list A) : Outcome (list B) :=
  match xs with
  | [] => Returned []
  | x :: xs' =>
      match f x with
      | Threw => Threw
      | Returned y =>
          match mapThrowing f xs' with
          | Threw => Threw
          | Returned ys => Returned (y :: ys)
          end
      end
  end.

(** [.filter(Boolean)] on links that are a string, [null] or [false]. *)
Definition filterBoolean (xs : list (option string)) : list string :=
  omap (λ o, match o with
             | Some s => if decide (s = "") then None else Some s
             | None => None
             end) xs.

(** [xs.slice(0, limit)] for a positive [limit]. *)
Definition slice0 {A} (limit : Z) (xs : list A) : list A :=
  take (Z.to_nat limit) xs.

(** *** encodeURIComponent

    Every byte is escaped as [%XX], but those of the characters that the
    function leaves alone: letters, digits and [- _ . ! ~ * ' ( )]. An
    unpaired surrogate makes it throw [URIError]; in the bytes of the
    string that is the lead byte [ED] followed by a byte from [A0]. *)

Definition uriUnescaped (c : ascii) : bool :=
  let n := N_of_ascii c in
  ((65 <=? n) && (n <=? 90) || (97 <=? n) && (n <=? 122)
   || (48 <=? n) && (n <=? 57)
   || bool_decide (c ∈ list_ascii_of_string "-_.!~*'()"))%N.

Definition hexDigit (n : N) : ascii :=
  nth (N.to_nat n) (list_ascii_of_string "0123456789ABCDEF") "0"%char.

Definition percentEscape (c : ascii) : string :=
  let n := N_of_ascii c in
  String "%"%char (String (hexDigit (n / 16)) (String (hexDigit (n mod 16)) "")).

Fixpoint unpairedSurrogate (s : string) : bool :=
  match s with
  | EmptyString => false
  | String a s' =>
      match s' with
      | String b _ =>
          ((N_of_ascii a =? 237) && (160 <=? N_of_ascii b))%N
          || unpairedSurrogate s'
      | EmptyString => false
      end
  end.

Fixpoint escapeAll (s : string) : string :=
  match s with
  | EmptyString => ""
  | String c s' =>
      (if uriUnescaped c then String c "" else percentEscape c)
      +:+ escapeAll s'
  end.

Definition encodeURIComponent (s : string) : Outcome string :=
  if unpairedSurrogate s then Threw else Returned (escapeAll s).

(** [s.isWellFormed()]: no unpaired surrogate. *)
Definition isWellFormed (s : string) : bool := negb (unpairedSurrogate s).

(** *** Regular expressions

    The constructs of the two regular expressions of [findArxiv], as
    backtracking matchers: each takes the rest of the pattern as a
    continuation and tries its alternatives in the order in which
    [RegExp.prototype.exec] tries them. The text is a list of
    characters. *)

Definition dquote : ascii := "034"%char.

(** Canonicalisation under the flag [i]: the upper case of an ASCII
    letter; any other byte is left as it is. *)
Definition toUpperCase (c : ascii) : ascii :=
  let n := N_of_ascii c in
  if ((97 <=? n) && (n <=? 122))%N then ascii_of_N (n - 32) else c.

Definition sameChar (ignoreCase : bool) (a b : ascii) : bool :=
  if ignoreCase then bool_decide (toUpperCase a = toUpperCase b)
  else bool_decide (a = b).

Section Matchers.
Context {R : Type}.

(** The characters of a literal, one after the other. *)
Fixpoint lit (ignoreCase : bool) (p : list ascii)
    (k : list ascii → option R) (s : list ascii) : option R :=
  match p with
  | [] => k s
  | a :: p' =>
      match s with
      | b :: s' => if sameChar ignoreCase a b then lit ignoreCase p' k s' else None
      | [] => None
      end
  end.

(** [C*?]: the rest of the pattern is tried first, one more character
    of the class is taken when it fails. *)
Fixpoint lazyStar (C : ascii → bool) (k : list ascii → option R)
    (s : list ascii) : option R :=
  match k s with
  | Some r => Some r
  | None =>
      match s with
      | c :: s' => if C c then lazyStar C k s' else None
      | [] => None
      end
  end.

(** [(C*?)], the continuation receiving the characters taken. *)
Fixpoint lazyStarGroup (C : ascii → bool)
    (k : list ascii → list ascii → option R) (s : list ascii) : option R :=
  match k [] s with
  | Some r => Some r
  | None =>
      match s with
      | c :: s' =>
          if C c then lazyStarGroup C (λ taken, k (c :: taken)) s' else None
      | [] => None
      end
  end.

(** The greedy star of a class, in a group: as many characters of the
    class as there are, one less each time the rest of the pattern
    fails. *)
Fixpoint greedyStarGroup (C : ascii → bool)
    (k : list ascii → list ascii → option R) (s : list ascii) : option R :=
  match s with
  | c :: s' =>
      if C c then
        match greedyStarGroup C (λ taken, k (c :: taken)) s' with
        | Some r => Some r
        | None => k [] s
        end
      else k [] s
  | [] => k [] s
  end.

(** [(C+)] *)
Definition greedyPlusGroup (C : ascii → bool)
    (k : list ascii → list ascii → option R) (s : list ascii) : option R :=
  match s with
  | c :: s' =>
      if C c then greedyStarGroup C (λ taken, k (c :: taken)) s' else None
  | [] => None
  end.

(** [exec] of a pattern that is not anchored: the first position, from
    the left, at which the pattern matches. *)
Fixpoint search (m : list ascii → option R) (s : list ascii) : option R :=
  match m s with
  | Some r => Some r
  | None =>
      match s with
      | _ :: s' => search m s'
      | [] => None
      end
  end.
End Matchers.

Definition chars (s : string) : list ascii := list_ascii_of_string s.

(** [/<entry>[\s\S]*?<\/entry>/g], from [lastIndex]: the match [m[0]]
    and the text from the new [lastIndex] on. *)
Definition entryRegex (s : list ascii) : option (list ascii * list ascii) :=
  search
    (lit false (chars "<entry>")
       (lazyStarGroup (λ _, true) (λ inner,
          lit false (chars "</entry>") (λ rest,
            Some (chars "<entry>" ++ inner ++ chars "</entry>", rest)))))
    s.

(** The successive matches of [entryRegex] in [xml]; a match is at
    least fifteen characters long, so that the length of the text
    bounds their number. *)
Fixpoint execAll (fuel : nat) (xml : list ascii) : list (list ascii) :=
  match fuel with
  | O => []
  | S fuel' =>
      match entryRegex xml with
      | None => []
      | Some (block, rest) => block :: execAll fuel' rest
      end
  end.

Definition entryMatches (xml : string) : list string :=
  string_of_list_ascii <$> execAll (String.length xml) (chars xml).

(** [/<link[^>]*?rel='alternate'[^>]*?href='([^']+)'/i], where ['] is
    written here for the double quote of the source: the group [lm[1]]
    of the first match in [block]. *)
Definition notGt (c : ascii) : bool := negb (bool_decide (c = ">"%char)).
Definition notQuote (c : ascii) : bool := negb (bool_decide (c = dquote)).

Definition linkRegex (block : list ascii) : option (list ascii) :=
  search
    (lit true (chars "<link")
       (lazyStar notGt
          (lit true (chars "rel=" ++ [dquote] ++ chars "alternate" ++ [dquote])
             (lazyStar notGt
                (lit true (chars "href=" ++ [dquote])
                   (greedyPlusGroup notQuote (λ href,
                      lit true [dquote] (λ _, Some href))))))))
    block.

Definition linkOf (block : string) : option string :=
  string_of_list_ascii <$> linkRegex (chars block).

(** What the network answers: [fetch] rejects (failure, or the abort
    signal), or resolves to a response with its [ok] flag; reading the
    body ([r.json()], [r.text()]) may reject in turn. *)
Inductive Fetched (B : Type) :=
| Rejected
| Response (ok : bool) (body : Outcome B).
Arguments Rejected {B}.
Arguments Response {B} ok body.

(** The delay given to [setTimeout(() => controller.abort(), 6000)]. *)
Definition abortDelay : Z := 6000.

Section Providers.
(** One element of [j.results] and of [j.organic_results]. *)
Variables Work Hit : Type.
(** The link picked from one element; [None] is a falsy value. *)
Variable workLink : Work → Outcome (option string).
Variable hitLink : Hit → Outcome (option string).
(** The responses. A JSON body is given by its [results] (resp.
    [organic_results]) when that is an array; the body of arXiv is the
    text that [r.text()] gives. *)
Variable fetchOpenAlex : Request → Fetched (option (list Work)).
Variable fetchArxiv : Request → Fetched string.
Variable fetchScholar : Request → Fetched (option (list Hit)).
(** [process.env.SERPAPI_KEY] *)
Variable SERPAPI_KEY : option string.

(** [await fetch(url, ...)]: logs the request. *)
Definition doFetch {B} (net : Request → Fetched B) (rq : Request)
  : Comp (bool * Outcome B) :=
  match net rq with
  | Rejected => ([rq], Threw)
  | Response ok body => ([rq], Returned (ok, body))
  end.

(** The URL is built before the [try]: what [encodeURIComponent]
    throws leaves the function. *)
Definition findOpenAlex (topic : option string) (limit : Z)
  : Comp (list string) :=
  if decide (limit ≤ 0) then ret []
  else
    let q := trim (js_or_str topic "") in
    if decide (q = "") then ret []
    else
      query ← lift (encodeURIComponent q);
      try_catch
        (r ← doFetch fetchOpenAlex
               (mkRequest OpenAlex query limit abortDelay None);
         if negb r.1 then ret []
         else
           j ← lift r.2;
           let data := default [] j in
           links ← lift (mapThrowing workLink data);
           ret (slice0 limit (filterBoolean links)))
        (ret []).

(** The [while] loop of [findArxiv]; [entries] holds, for the
    successive matches of [entryRegex], what [linkRegex.exec(block)]
    captures. *)
Fixpoint arxivLoop (entries : list (option string)) (limit : Z)
    (out : list string) : list string :=
  match entries with
  | [] => out
  | lm :: entries' =>
      if decide (Z.of_nat (length out) < limit) then
        arxivLoop entries' limit
          (match lm with
           | Some href => if decide (href = "") then out else out ++ [href]
           | None => out
           end)
      else out
  end.

Definition findArxiv (topic : option string) (limit : Z)
  : Comp (list string) :=
  if decide (limit ≤ 0) then ret []
  else
    let q := trim (js_or_str topic "") in
    if decide (q = "") then ret []
    else
      query ← lift (encodeURIComponent q);
      try_catch
        (r ← doFetch fetchArxiv (mkRequest Arxiv query limit abortDelay None);
         if negb r.1 then ret []
         else
           xml ← lift r.2;
           ret (arxivLoop (linkOf <$> entryMatches xml) limit []))
        (ret []).

Definition findScholarSerpAPI (topic : option string) (limit : Z)
  : Comp (list string) :=
  if decide (js_or SERPAPI_KEY None = None ∨ limit ≤ 0) then ret []
  else
    let q := trim (js_or_str topic "") in
    if decide (q = "") then ret []
    else
      query ← lift (encodeURIComponent q);
      key ← lift (encodeURIComponent (default "" SERPAPI_KEY));
      try_catch
        (r ← doFetch fetchScholar
               (mkRequest Scholar query limit abortDelay (Some key));
         if negb r.1 then ret []
         else
           j ← lift r.2;
           let results := default [] j in
           links ← lift (mapThrowing hitLink results);
           ret (slice0 limit (filterBoolean links)))
        (ret []).

(** The three [await]s of the loop body of [handler]. *)
Definition lookupPapers (topic : option string) (limit : Z)
  : Comp (list string) :=
  papers ← findOpenAlex topic limit;
  papers ← (if decide (length papers = 0%nat) then findArxiv topic limit
             else ret papers);
  papers ← (if decide (length papers = 0%nat)
             then findScholarSerpAPI topic limit
             else ret papers);
  ret papers.

(** [n.papers = papers] *)
Definition setPapers (n : Node) (ps : list string) : Node :=
  {| node_id := node_id n; title := title n; summary := summary n;
     papers := Some ps; relevance := relevance n |}.

(** [for (const n of mergedNodes) { ... }] in [handler]; [limit] is
    [S2_PAPERS_PER_NODE]. *)
Fixpoint attachPapers (groups : list Group) (limit : Z) (ns : list Node)
  : Comp (list Node) :=
  match ns with
  | [] => ret []
  | n :: ns' =>
      papers ← lookupPapers (topic groups n) limit;
      rest ← attachPapers groups limit ns';
      ret (setPapers n papers :: rest)
  end.
End Providers.

(** [Math.max(0, parseInt(process.env.S2_PAPERS_PER_NODE || "3", 10))],
    given the integer that [parseInt] yields. *)
Definition S2_PAPERS_PER_NODE (parsed : Z) : Z := Z.max 0 parsed.

(** ** graph-visualization.tsx: the state updaters of load and handleOptimize

    [load] and [handleOptimize] pass the same two updaters to
    [setDataNodes] and [setDataEdges]; each is modelled once, under the
    name of the setter. *)

(** One field of [{...old, ...n}]: the incoming value when the incoming
    object has the field, the old one otherwise. *)
Definition overlay {A} (incoming old : option A) : option A :=
  match incoming with
  | Some v => Some v
  | None => old
  end.

(** [{...old, ...n}] *)
Definition spread (old n : Node) : Node :=
  {| node_id := node_id n;
     title := overlay (title n) (title old);
     summary := overlay (summary n) (summary old);
     papers := overlay (papers n) (papers old);
     relevance := overlay (relevance n) (relevance old) |}.

(** [byId.set(n.id, old ? { ...old, ...n } : n)] *)
Definition nodeStep (byId : list (Z * Node)) (n : Node) : list (Z * Node) :=
  match omap_get (node_id n) byId with
  | Some old => omap_set (node_id n) (spread old n) byId
  | None => omap_set (node_id n) n byId
  end.

(** The updater passed to [setDataNodes]. *)
Definition setDataNodes (prev incoming : list Node) : list Node :=
  let byId := omap_of ((λ n, (node_id n, n)) <$> prev) in
  omap_values (foldl nodeStep byId incoming).

Definition edgeKey (e : Edge) : string :=
  pairKey (Z.min (nodeID1 e) (nodeID2 e)) (Z.max (nodeID1 e) (nodeID2 e)).

Record EdgeState := mkEdgeState {
  merged : list Edge;
  seenKeys : gset string
}.

Definition edgeStep (st : EdgeState) (e : Edge) : EdgeState :=
  let k := edgeKey e in
  if decide (k ∈ seenKeys st) then st
  else {| merged := merged st ++ [e]; seenKeys := {[k]} ∪ seenKeys st |}.

(** The updater passed to [setDataEdges]. *)
Definition setDataEdges (prev incoming : list Edge) : list Edge :=
  merged (foldl edgeStep (mkEdgeState prev (list_to_set (edgeKey <$> prev)))
                incoming).

Record Graph := mkGraph {
  g_nodes : list Node;
  g_edges : list Edge
}.

(** One reconciliation of the client view with a fetched snapshot. *)
Definition reconcile (view incoming : Graph) : Graph :=
  {| g_nodes := setDataNodes (g_nodes view) (g_nodes incoming);
     g_edges := setDataEdges (g_edges view) (g_edges incoming) |}.


(** ** Vocabulary of the statements *)

(** A string of decimal digits. *)
Fixpoint digits (s : string) : Prop :=
  match s with
  | EmptyString => True
  | String a s' => is_Some (Ascii.is_nat a) ∧ digits s'
  end.

(** [trim] on the list of characters. *)
Definition trimList (l : list ascii) : list ascii :=
  rev (dropSpaces (rev (dropSpaces l))).

(** The string ends with a character that is not white space. *)
Definition endsVisible (s : string) : Prop :=
  ∃ l a, list_ascii_of_string s = l ++ [a] ∧ Ascii.is_space a = false.

(** The canonical pair of an undirected edge. *)
Definition canon (e : Edge) : Z * Z :=
  (Z.min (nodeID1 e) (nodeID2 e), Z.max (nodeID1 e) (nodeID2 e)).

(** The edge rewiring as the specification words it: translate both
    endpoints, drop the edge when one is unmapped or when they fall
    together, put the pair in (min, max) order. *)
Definition translated (idMap : gmap Z Z) (e : Edge) : option Edge :=
  match idMap !! nodeID1 e, idMap !! nodeID2 e with
  | Some a, Some b =>
      if decide (a = b) then None
      else Some (mkEdge (Z.min a b) (Z.max a b) (reasoning e))
  | _, _ => None
  end.

(** Deduplication on the canonical pair that keeps the first occurrence:
    an edge stays, and every later edge with its pair goes. *)
Fixpoint firstOccurrences (es : list Edge) : list Edge :=
  match es with
  | [] => []
  | e :: es' => e :: filter (λ e', canon e' ≠ canon e) (firstOccurrences es')
  end.

Definition rewire_spec (edges : list Edge) (idMap : gmap Z Z) : list Edge :=
  firstOccurrences (omap (translated idMap) edges).

(** The loop invariant of [rewireEdges]: [seen] holds the keys of the
    edges in [out], which are in (min, max) order. *)
Definition rewireInv (st : RewireState) : Prop :=
  (∀ e, e ∈ out st → nodeID1 e < nodeID2 e) ∧
  (∀ x y, pairKey x y ∈ seen st ↔ (x, y) ∈ canon <$> out st).

(** [r] is the least element of [l]; [q] is the greatest element of [l]. *)
Definition isMinOf (r : Z) (l : list Z) : Prop :=
  r ∈ l ∧ ∀ x, x ∈ l → r ≤ x.
Definition isMaxOf (q : Q) (l : list Q) : Prop :=
  q ∈ l ∧ ∀ x, x ∈ l → (x <= q)%Q.

(** The merged node of a group that is accepted, that is, that has two
    valid members or more. *)
Definition groupNode (nodes : list Node) (g : Group) : option Node :=
  match members nodes g with
  | m :: m' :: rest => Some (mergedNode nodes g m (m' :: rest))
  | _ => None
  end.

(** The relevance-max choice among the nodes that share an id, taken in
    order: a later node replaces the choice only with a strictly higher
    relevance. *)
Definition pick (acc : option Node) (n : Node) : option Node :=
  match acc with
  | None => Some n
  | Some prev => if js_gt (rel n) (rel prev) then Some n else Some prev
  end.

(** A label or summary that is absent: [undefined], or the empty string,
    which [||] treats alike. *)
Definition absent (o : option string) : Prop := o = None ∨ o = Some "".

(** The title of a merged node: the trimmed label of the group, or the
    generated label when the group has none. *)
Definition specTitle (g : Group) (ms : list Z) (t : string) : Prop :=
  (∃ s, label g = Some s ∧ s ≠ "" ∧ t = trim s) ∨
  (absent (label g) ∧ t = "Merged " +:+ join "+" (numToString <$> ms)).

(** The summary of a merged node: the trimmed summary of the group, or
    the title when the group has none. *)
Definition specSummary (g : Group) (t sm : string) : Prop :=
  (∃ s, group_summary g = Some s ∧ s ≠ "" ∧ sm = trim s) ∨
  (absent (group_summary g) ∧ sm = t).

(** What the merge owes to a group [g] with valid members [ms]: exactly
    one output node carries the least valid member id, with the title,
    summary, relevance and papers of the merge, and [idMap] sends every
    valid member to that id. The relevance of a member is the one of the
    input node with its id. *)
Definition mergeClaim (nodes : list Node) (groups : list Group) (g : Group)
  : Prop :=
  let ms := members nodes g in
  let r := mergeNodes nodes groups in
  ∃ n, isMinOf (node_id n) ms ∧
       filter (λ n', node_id n' = node_id n) (res_nodes r) = [n] ∧
       (∃ t sm, title n = Some t ∧ specTitle g ms t ∧
                summary n = Some sm ∧ specSummary g t sm) ∧
       (∃ q, relevance n = Some q ∧ isMaxOf q (relevanceOf nodes <$> ms)) ∧
       papers n = Some [] ∧
       ∀ m, m ∈ ms → res_idMap r !! m = Some (node_id n).

(** A node that no accepted group claims. *)
Definition unclaimed (nodes : list Node) (groups : list Group) (n : Node)
  : Prop :=
  ∀ g, g ∈ groups → (2 ≤ length (members nodes g))%nat →
       node_id n ∉ members nodes g.

(** The nodes that compete for a place in the output: the merged nodes
    of the accepted groups and the unclaimed input nodes. *)
Definition candidate (nodes : list Node) (groups : list Group) (c : Node)
  : Prop :=
  (∃ g, g ∈ groups ∧ groupNode nodes g = Some c) ∨
  (c ∈ nodes ∧ unclaimed nodes groups c).

(** Three nodes and two groups that share member 2. *)
Definition overlap_nodes : list Node :=
  [mkNode 1 (Some "GNN") (Some "GNN") (Some []) (Some (9 # 10)%Q);
   mkNode 2 (Some "GCN") (Some "GCN") (Some []) (Some (5 # 10)%Q);
   mkNode 3 (Some "GAT") (Some "GAT") (Some []) (Some (7 # 10)%Q)].
Definition overlap_g1 : Group :=
  mkGroup (Some "Graph Learning") [1; 2] (Some "Learning on graphs").
Definition overlap_g2 : Group :=
  mkGroup (Some "Convolutions") [2; 3] (Some "Graph convolutions").

(** Example 1 of the specification, between a disjoint accepted group
    and a group with a single member. *)
Definition example_nodes : list Node :=
  [mkNode 1 (Some "GNN") (Some "GNN") (Some []) (Some (9 # 10)%Q);
   mkNode 2 (Some "GCN") (Some "GCN") (Some []) (Some (5 # 10)%Q);
   mkNode 3 (Some "RL") (Some "RL") (Some []) (Some (8 # 10)%Q);
   mkNode 4 (Some "Q-learning") (Some "Q-learning") (Some []) (Some (6 # 10)%Q);
   mkNode 7 (Some "SSL") (Some "SSL") (Some []) (Some (4 # 10)%Q)].
Definition example_group : Group :=
  mkGroup (Some "Graph Learning") [1; 2] (Some "...").
Definition example_other : Group :=
  mkGroup None [3; 4] None.
Definition example_single : Group :=
  mkGroup (Some "Alone") [7] (Some "one member").

(** One field of a reconciled node against the same field of the
    incoming and of the old node. *)
Definition fieldOverlaid {A} (incoming old result : option A) : Prop :=
  (∀ v, incoming = Some v → result = Some v) ∧
  (incoming = None → result = old).

(** [m] has the fields of [old] overlaid by those of [n]. *)
Definition overlaid (old n m : Node) : Prop :=
  node_id m = node_id n ∧
  fieldOverlaid (title n) (title old) (title m) ∧
  fieldOverlaid (summary n) (summary old) (summary m) ∧
  fieldOverlaid (papers n) (papers old) (papers m) ∧
  fieldOverlaid (relevance n) (relevance old) (relevance m).

(** The node ids a snapshot touches: those of its nodes and those its
    edges mention. *)
Definition touched (s : Graph) : gset Z :=
  list_to_set (node_id <$> g_nodes s) ∪
  list_to_set (nodeID1 <$> g_edges s) ∪
  list_to_set (nodeID2 <$> g_edges s).

(** The choice of [nodeStep] for one id, taken in order. *)
Definition lay (acc : option Node) (n : Node) : option Node :=
  match acc with
  | Some old => Some (spread old n)
  | None => Some n
  end.

(** The invariant of the edge loop: [seen] holds the keys of [merged]. *)
Definition edgeInv (st : EdgeState) : Prop :=
  seenKeys st = list_to_set (edgeKey <$> merged st).

(** Example 3 of the specification. *)
Definition view_node : Node := mkNode 5 (Some "X") (Some "old") None None.
Definition incoming_node : Node := mkNode 5 (Some "X2") None None None.

(** A view and two snapshots that touch disjoint ids. *)
Definition sample_view : Graph :=
  mkGraph [view_node; mkNode 1 (Some "GNN") None None None]
          [mkEdge 1 5 "seen before"].
Definition snapshot_A : Graph :=
  mkGraph [incoming_node; mkNode 6 (Some "Y") None None None]
          [mkEdge 6 5 "a"; mkEdge 5 6 "again"].
Definition snapshot_B : Graph :=
  mkGraph [mkNode 1 None (Some "graphs") None None;
           mkNode 2 (Some "GCN") None None None]
          [mkEdge 1 2 "b"].

(** A group whose first member id names no node, as the clustering call
    may return; and a group with one valid member only. *)
Definition stale_nodes : list Node :=
  [mkNode 2 (Some "GCN") (Some "GCN") (Some []) (Some (5 # 10)%Q);
   mkNode 3 (Some "GAT") (Some "GAT") (Some []) (Some (7 # 10)%Q);
   mkNode 5 (Some "RL") (Some "Agents") (Some []) (Some (8 # 10)%Q)].
Definition stale_group : Group :=
  mkGroup (Some "Graph Learning") [1; 2; 3] (Some "Graph methods").
Definition half_group : Group :=
  mkGroup (Some "Pair") [5; 99] (Some "Two topics").

(** Two texts that are the same, character by character, up to the
    case of ASCII letters when [ignoreCase] is set. *)
Definition sameText (ignoreCase : bool) (p m : list ascii) : Prop :=
  Forall2 (λ a b, sameChar ignoreCase a b = true) p m.


(** What one provider call contributes to the lookup chain: it returns,
    with at most [limit] links, after at most one request, which names
    the provider and carries the limit and the abort delay; and it
    returns no link when the request is rejected, the response is not
    ok, or reading the body fails. *)
Definition providerOutcome {B} (pr : Provider) (net : Request → Fetched B)
    (limit : Z) (c : Comp (list string)) : Prop :=
  ∃ tr ps, c = (tr, Returned ps) ∧
    Z.of_nat (length ps) ≤ Z.max 0 limit ∧
    (length tr ≤ 1)%nat ∧
    (∀ rq, rq ∈ tr →
       req_provider rq = pr ∧ req_limit rq = limit ∧
       req_timeout rq = abortDelay ∧
       (net rq = Rejected ∨ (∃ b, net rq = Response false b)
        ∨ net rq = Response true Threw → ps = [])).

(** The inputs of the examples of the specification. *)
Definition gnn : Node := mkNode 1 (Some "GNN") None None (Some (9 # 10)%Q).
Definition gcn : Node := mkNode 2 (Some "GCN") None None (Some (5 # 10)%Q).
Definition ssl : Node := mkNode 7 (Some "SSL") None None (Some (4 # 10)%Q).
Definition gat : Node := mkNode 3 (Some "GAT") None None (Some (95 # 100)%Q).
Definition identity12 : gmap Z Z := {[1 := 1; 2 := 2]}.

(** Two groups with the same representative. *)
Definition low_group : Group := mkGroup (Some "Low") [1; 2] (Some "low").
Definition high_group : Group := mkGroup (Some "High") [1; 3] (Some "high").

(** A text between double quotes. *)
Definition quoted (s : string) : string :=
  String dquote (s +:+ String dquote "").

(** An entry whose link tag names [rel] before [href], and an entry as
    arXiv writes it, [href] first. *)
Definition entry_rel_first (url : string) : string :=
  "<entry><title>t</title><link rel=" +:+ quoted "alternate"
  +:+ " type=" +:+ quoted "text/html" +:+ " href=" +:+ quoted url
  +:+ "/></entry>".
Definition entry_href_first (url : string) : string :=
  "<entry><id>" +:+ url +:+ "</id><link href=" +:+ quoted url
  +:+ " rel=" +:+ quoted "alternate" +:+ " type=" +:+ quoted "text/html"
  +:+ "/><link title=" +:+ quoted "pdf" +:+ " href=" +:+ quoted url
  +:+ " rel=" +:+ quoted "related" +:+ "/></entry>".

Definition feed_rel_first : string :=
  "<feed><link href=" +:+ quoted "https://arxiv.org/api/query" +:+ " rel="
  +:+ quoted "self" +:+ "/>"
  +:+ entry_rel_first "https://arxiv.org/abs/1"
  +:+ "<entry><title>no link</title></entry>"
  +:+ entry_rel_first "https://arxiv.org/abs/2"
  +:+ entry_rel_first "https://arxiv.org/abs/3" +:+ "</feed>".
Definition feed_href_first : string :=
  "<feed>" +:+ entry_href_first "http://arxiv.org/abs/2401.00001v1"
  +:+ entry_href_first "http://arxiv.org/abs/2401.00002v1" +:+ "</feed>".

(** A network in which OpenAlex does not answer before the abort, and
    arXiv serves a feed of four entries, one without link, whose link
    tags name [rel] before [href]. *)
Definition slowOpenAlex (rq : Request) : Fetched (option (list string)) :=
  Rejected.
Definition arxivFeed (rq : Request) : Fetched string :=
  Response true (Returned feed_rel_first).
Definition noScholar (rq : Request) : Fetched (option (list string)) :=
  Response false Threw.
Definition plainLink (w : string) : Outcome (option string) :=
  Returned (Some w).

(** A graph already consolidated, for the runs without groups. *)
Definition tidy_nodes : list Node := [gnn; ssl; gat].
Definition tidy_edges : list Edge := [mkEdge 7 1 "a"; mkEdge 1 3 "b"].

(** ** graph-visualization.tsx: the rebuild of the drawing

    The effect that rebuilds the drawing from [dataNodes] and [dataEdges]:
    the degree map and the radius of a node, the seeding of the positions
    from [prevPosRef], their saving on a tick of the simulation, and the
    wrapping of a title into lines. The simulation itself and the measure
    of a rendered text ([getComputedTextLength]) are parameters. *)

(** [x || 0] on an optional number: [undefined] and [0] are falsy. *)
Definition numOr0 (o : option Z) : Z :=
  match o with
  | Some v => if decide (v = 0) then 0 else v
  | None => 0
  end.

(** The body of [dataEdges.forEach] that fills [nodeDegrees]. *)
Definition degreeStep (m : gmap Z Z) (e : Edge) : gmap Z Z :=
  let m1 := <[nodeID1 e := numOr0 (m !! nodeID1 e) + 1]> m in
  <[nodeID2 e := numOr0 (m1 !! nodeID2 e) + 1]> m1.

Definition nodeDegrees (dataNodes : list Node) (dataEdges : list Edge)
  : gmap Z Z :=
  foldl degreeStep (foldl (λ m n, <[node_id n := 0]> m) ∅ dataNodes) dataEdges.

Definition baseRadius : Q := 40%Q.

(** [getNodeRadius(nodeId)], with [nodeSizeScaling] a number. *)
Definition getNodeRadius (dataNodes : list Node) (dataEdges : list Edge)
    (nodeSizeScaling : Q) (nodeId : Z) : Q :=
  let degree := numOr0 (nodeDegrees dataNodes dataEdges !! nodeId) in
  (baseRadius + inject_Z degree * nodeSizeScaling)%Q.

(** A node of the simulation: the fields of the node and a position,
    which the type leaves optional. *)
Record D3Node := mkD3Node {
  d3_node : Node;
  d3_x : option Q;
  d3_y : option Q
}.

(** [dataNodes.map(node => ({...node, x: prev?.x ?? width / 2,
    y: prev?.y ?? height / 2}))] with [prev = prevPosRef.current.get(node.id)]. *)
Definition seedNodes (dataNodes : list Node) (prevPos : gmap Z (Q * Q))
    (width height : Q) : list D3Node :=
  (λ node,
     let prev := prevPos !! node_id node in
     mkD3Node node
       (Some (match prev with Some p => p.1 | None => (width / 2)%Q end))
       (Some (match prev with Some p => p.2 | None => (height / 2)%Q end)))
    <$> dataNodes.

(** The map saved on a tick:
    [map.set(nd.id, {x: nd.x ?? width / 2, y: nd.y ?? height / 2})]. *)
Definition savePositions (d3Nodes : list D3Node) (width height : Q)
  : gmap Z (Q * Q) :=
  foldl (λ m nd, <[node_id (d3_node nd) :=
                     (default (width / 2)%Q (d3_x nd),
                      default (height / 2)%Q (d3_y nd))]> m)
        ∅ d3Nodes.

(** [s.split(sep)] for a separator of one character. *)
Fixpoint splitOn (sep : ascii) (s : string) : list string :=
  match s with
  | EmptyString => [EmptyString]
  | String c s' =>
      if decide (c = sep) then EmptyString :: splitOn sep s'
      else match splitOn sep s' with
           | w :: ws => String c w :: ws
           | [] => [String c EmptyString]
           end
  end.

(** The state of [words.forEach]: the words of the line being filled and
    the lines pushed so far, each kept as its words. *)
Record WrapState := mkWrapState {
  wrap_line : list string;
  wrap_lines : list (list string)
}.

Section Wrap.
(** [getComputedTextLength] of the hidden [tspan] holding a text. *)
Variable measure : string → Q.
Variable maxWidth : Q.

Definition wrapStep (st : WrapState) (w : string) : WrapState :=
  let test := join " " (wrap_line st ++ [w]) in
  if js_gt (measure test) maxWidth && negb (bool_decide (wrap_line st = []))
  then {| wrap_line := [w]; wrap_lines := wrap_lines st ++ [wrap_line st] |}
  else {| wrap_line := wrap_line st ++ [w]; wrap_lines := wrap_lines st |}.

(** The lines of a title, each as its words. *)
Definition wrapWords (title : string) : list (list string) :=
  let st := foldl wrapStep (mkWrapState [] []) (splitOn " " title) in
  if bool_decide (wrap_line st = []) then wrap_lines st
  else wrap_lines st ++ [wrap_line st].

(** The array [lines]: every line is [line.join(" ")]. *)
Definition wrapLabel (title : string) : list string :=
  join " " <$> wrapWords title.
End Wrap.

(** A title, and a measure that counts the characters. *)
Definition long_title : string := "Graph Neural Networks for  Molecules".
Definition charCount (s : string) : Q := inject_Z (Z.of_nat (String.length s)).

(** Positions of three nodes after some ticks. *)
Definition moved_nodes : list D3Node :=
  [mkD3Node gnn (Some (12 # 1)%Q) (Some (7 # 2)%Q);
   mkD3Node ssl (Some (300 # 1)%Q) (Some (-4 # 1)%Q);
   mkD3Node gat (Some (0 # 1)%Q) (Some (55 # 1)%Q)].

(** ** optimize.js: isGraph, readGraph, getMergeGroups, writeGraph, handler

    The stored payload is described as far as the data model goes: a
    graph whose nodes and edges have their fields present, with their
    type, or absent ([None] stands for [null] and for a payload that has
    not that shape). The table, the clustering service and [JSON.parse]
    of its answer are the environment. A thrown value is kept as the
    string [String(err)]. The run records what it does to the outside:
    the read, the clustering request, the lookups, the write. *)

(** The test of one node in [isGraph]; [n.id] is a number and the
    papers are strings by the type of [Node]. *)
Definition nodeOk (n : Node) : bool :=
  bool_decide (is_Some (title n)) && bool_decide (is_Some (summary n))
  && bool_decide (is_Some (papers n)) && bool_decide (is_Some (relevance n)).

(** The test of one edge: its three fields have their type by [Edge]. *)
Definition edgeOk (e : Edge) : bool := true.

Definition isGraph (x : option Graph) : bool :=
  match x with
  | None => false
  | Some g => forallb nodeOk (g_nodes g) && forallb edgeOk (g_edges g)
  end.

(** getData.js: [isValidGraphPayload], which does not look at
    [summary]. *)
Definition isValidGraphPayload (x : option Graph) : bool :=
  match x with
  | None => false
  | Some g =>
      forallb (λ n, bool_decide (is_Some (title n))
                    && bool_decide (is_Some (papers n))
                    && bool_decide (is_Some (relevance n))) (g_nodes g)
      && forallb edgeOk (g_edges g)
  end.

Inductive Result (A : Type) :=
| Ok (a : A)
| Err (e : string).
Arguments Ok {A} a.
Arguments Err {A} e.

Inductive Event :=
| EvRead
| EvGroups (request : list Node)
| EvLookup (rq : Request)
| EvWrite (g : Graph).

Definition Run (A : Type) : Type := list Event * Result A.

Definition andThen {A B} (c : Run A) (k : A → Run B) : Run B :=
  match c with
  | (evs, Ok a) => let '(evs', r) := k a in (evs ++ evs', r)
  | (evs, Err e) => (evs, Err e)
  end.

(** A lookup computation inside a run. *)
Definition liftComp {A} (c : Comp A) : Run A :=
  (EvLookup <$> c.1,
   match c.2 with
   | Returned a => Ok a
   | Threw => Err "URIError: URI malformed"
   end).

(** [s.startsWith(p)] and [s.includes(p)] *)
Fixpoint startsWith (s p : string) : bool :=
  match p, s with
  | EmptyString, _ => true
  | String a p', String b s' => bool_decide (a = b) && startsWith s' p'
  | String _ _, EmptyString => false
  end.

Fixpoint includes (s p : string) : bool :=
  startsWith s p
  || match s with
     | EmptyString => false
     | String _ s' => includes s' p
     end.

(** What the clustering service does with a request. *)
Inductive OpenAIReply :=
| OaRejected (err : string)
    (* [fetch] rejects *)
| OaNotOk (status : Z) (text : option string)
    (* [!resp.ok]; [None] when [resp.text()] rejects *)
| OaJsonFails (err : string)
    (* [resp.json()] rejects *)
| OaData (output_text : option string) (output0_text : option string).
    (* [data.output_text], and [data.output[0]?.content?.[0]?.text] when
       [data.output] is an array *)

(** [JSON.parse(text)]: a syntax error, [null], or a value with its
    [groups] when it has some. *)
Inductive Parsed :=
| ParseError
| ParsedNull
| ParsedValue (groups : option (list Group)).

Inductive Body :=
| BodyError (error : string)
| BodyData (data : Graph).

Record HttpResponse := mkHttpResponse {
  statusCode : Z;
  body : Body
}.

Section Handler.
(** [ddb.send(new GetItemCommand ...)]: rejects, finds no item, or finds
    an item, whose payload parses to a graph or not. *)
Variable dbGet : Result (option (option Graph)).
(** [ddb.send(new PutItemCommand ...)] *)
Variable dbPut : Graph → Result unit.
Variable OPENAI_API_KEY : option string.
Variable openai : list Node → OpenAIReply.
Variable parseGroups : string → Parsed.
(** The integer read from [process.env.S2_PAPERS_PER_NODE]. *)
Variable parsedLimit : Z.
(** The environment of the lookups. *)
Variables Work Hit : Type.
Variable workLink : Work → Outcome (option string).
Variable hitLink : Hit → Outcome (option string).
Variable fetchOpenAlex : Request → Fetched (option (list Work)).
Variable fetchArxiv : Request → Fetched string.
Variable fetchScholar : Request → Fetched (option (list Hit)).
Variable SERPAPI_KEY : option string.

Definition readGraph : Run (option Graph) :=
  match dbGet with
  | Err e => ([EvRead], Err e)
  | Ok None => ([EvRead], Ok None)
  | Ok (Some payload) => ([EvRead], Ok payload)
  end.

Definition writeGraph (graph : Graph) : Run unit :=
  ([EvWrite graph], dbPut graph).

(** [nodes.map(n => ({ id: n.id, title: n.title, relevance: n.relevance }))] *)
Definition liteNode (n : Node) : Node :=
  mkNode (node_id n) (title n) None None (relevance n).

Definition getMergeGroups (nodes : list Node) : Run (list Group) :=
  if decide (js_or OPENAI_API_KEY None = None)
  then ([], Err "Error: OPENAI_API_KEY not set")
  else
    let request := liteNode <$> nodes in
    match openai request with
    | OaRejected e => ([EvGroups request], Err e)
    | OaNotOk status text =>
        ([EvGroups request],
         Err ("Error: OpenAI " +:+ numToString status +:+ ": "
              +:+ default "" text))
    | OaJsonFails e => ([EvGroups request], Err e)
    | OaData output_text output0_text =>
        match js_or output_text output0_text with
        | None => ([EvGroups request],
                   Err "Error: OpenAI returned no structured text")
        | Some text =>
            if decide (text = "")
            then ([EvGroups request],
                  Err "Error: OpenAI returned no structured text")
            else match parseGroups text with
                 | ParseError =>
                     ([EvGroups request], Err "Error: Invalid JSON from OpenAI")
                 | ParsedNull =>
                     ([EvGroups request],
                      Err "TypeError: Cannot read properties of null (reading 'groups')")
                 | ParsedValue groups =>
                     ([EvGroups request], Ok (default [] groups))
                 end
        end
    end.

(** [if (typeof n.summary !== "string") n.summary = n.title] *)
Definition backfillSummary (n : Node) : Node :=
  match summary n with
  | Some _ => n
  | None => mkNode (node_id n) (title n) (title n) (papers n) (relevance n)
  end.

(** The body of the [try] of [handler]. *)
Definition handlerBody : Run HttpResponse :=
  andThen readGraph (λ graph,
    if negb (isGraph graph)
    then ([], Ok (mkHttpResponse 400
                    (BodyError "Stored payload is not a valid {nodes, edges} graph.")))
    else
      match graph with
      | None => ([], Err "TypeError")
      | Some graph =>
          let nodes := backfillSummary <$> g_nodes graph in
          andThen (getMergeGroups nodes) (λ groups,
            let r := mergeNodes nodes groups in
            let newEdges := rewireEdges (g_edges graph) (res_idMap r) in
            andThen
              (liftComp
                 (attachPapers Work Hit workLink hitLink fetchOpenAlex
                    fetchArxiv fetchScholar SERPAPI_KEY groups
                    (S2_PAPERS_PER_NODE parsedLimit) (res_nodes r)))
              (λ mergedNodes,
                 let optimized := mkGraph mergedNodes newEdges in
                 andThen (writeGraph optimized) (λ _,
                   ([], Ok (mkHttpResponse 200 (BodyData optimized))))))
      end).

(** [handler]: the [catch] turns a thrown value into a response. *)
Definition handler : list Event * HttpResponse :=
  match handlerBody with
  | (evs, Ok response) => (evs, response)
  | (evs, Err err) =>
      if includes err "invalid_api_key"
      then (evs, mkHttpResponse 401
                   (BodyError "OpenAI API key invalid or missing"))
      else (evs, mkHttpResponse 500 (BodyError "Optimize failed"))
  end.
End Handler.

(** getData.js: [handler]. The answer with no item carries the empty
    graph (and a note). *)
Definition getData (dbGet : Result (option (option Graph))) : HttpResponse :=
  match dbGet with
  | Err _ => mkHttpResponse 500 (BodyError "Failed to read data")
  | Ok None => mkHttpResponse 200 (BodyData (mkGraph [] []))
  | Ok (Some payload) =>
      if negb (isValidGraphPayload payload)
      then mkHttpResponse 500
             (BodyError "Stored payload is not a valid {nodes, edges} graph per schema.")
      else match payload with
           | Some g => mkHttpResponse 200 (BodyData g)
           | None => mkHttpResponse 500 (BodyError "Failed to read data")
           end
  end.

(** A stored graph from before summaries existed, and a complete one. *)
Definition old_graph : Graph := mkGraph [gnn; gcn] [mkEdge 1 2 "related"].
Definition full_graph : Graph := mkGraph example_nodes [mkEdge 1 2 "related"].

(** An environment in which a run succeeds: the table holds a complete
    graph, the clustering service proposes to merge nodes 1 and 2. *)
Definition calm_get : Result (option (option Graph)) :=
  Ok (Some (Some full_graph)).
Definition calm_put (g : Graph) : Result unit := Ok tt.
Definition calm_openai (request : list Node) : OpenAIReply :=
  OaData (Some "{groups}") None.
Definition calm_parse (text : string) : Parsed :=
  ParsedValue (Some [example_group]).
(** The service refuses the key. *)
Definition refusing_openai (request : list Node) : OpenAIReply :=
  OaNotOk 401 (Some "{ error: { code: invalid_api_key } }").

(** The graph written by the run in that environment. *)
Definition calm_optimized : Graph :=
  match body (handler calm_get calm_put (Some "sk") calm_openai calm_parse 3
                string string plainLink plainLink slowOpenAlex arxivFeed
                noScholar None).2 with
  | BodyData g => g
  | BodyError _ => mkGraph [] []
  end.

(** ** upload handler (part_000): isValidGraphPayload, handler

    The event carries the two spellings of the authorization header and
    the body; [JSON.parse] of the body is the environment, its value
    described as the stored payload is. *)

Record UploadEvent := mkUploadEvent {
  authorization : option string;
  Authorization : option string;
  event_body : option string
}.

(** [{ statusCode, body: JSON.stringify({ error }) }], and
    [{ ok: true }] when [error] is absent. *)
Record UploadResponse := mkUploadResponse {
  up_statusCode : Z;
  up_error : option string
}.

(** [s.slice(n)] *)
Fixpoint slice (n : nat) (s : string) : string :=
  match n, s with
  | O, _ => s
  | S n', String _ s' => slice n' s'
  | S _, EmptyString => EmptyString
  end.

Module Upload.
(** The same test as [isGraph] of optimize.js, node by node and edge by
    edge. *)
Definition isValidGraphPayload (payload : option Graph) : bool :=
  match payload with
  | None => false
  | Some g =>
      forallb (λ n, bool_decide (is_Some (title n))
                    && bool_decide (is_Some (summary n))
                    && bool_decide (is_Some (papers n))
                    && bool_decide (is_Some (relevance n))) (g_nodes g)
      && forallb (λ e, true) (g_edges g)
  end.

Section Handler.
Variable UPLOAD_TOKEN : option string.
(** [JSON.parse(event.body)]: [None] when it throws. *)
Variable jsonParse : string → option (option Graph).
Variable dbPut : Graph → Result unit.

Definition handler (event : UploadEvent) : list Event * UploadResponse :=
  let auth :=
    js_or_str (js_or (authorization event) (Authorization event)) "" in
  let token := if startsWith auth "Bearer " then slice 7 auth else "" in
  if bool_decide (js_or UPLOAD_TOKEN None = None)
     || negb (bool_decide (Some token = UPLOAD_TOKEN))
  then ([], mkUploadResponse 401 (Some "Unauthorized"))
  else
    match js_or (event_body event) None with
    | None => ([], mkUploadResponse 400 (Some "Missing body"))
    | Some text =>
        match jsonParse text with
        | None => ([], mkUploadResponse 400 (Some "Invalid JSON"))
        | Some payload =>
            if negb (isValidGraphPayload payload)
            then ([], mkUploadResponse 400
                        (Some "Invalid {nodes, edges} schema"))
            else
              match payload with
              | None => ([], mkUploadResponse 500 (Some "Failed to write"))
              | Some g =>
                  match dbPut g with
                  | Ok _ => ([EvWrite g], mkUploadResponse 200 None)
                  | Err _ =>
                      ([EvWrite g],
                       mkUploadResponse 500 (Some "Failed to write"))
                  end
              end
        end
    end.
End Handler.
End Upload.

(** An upload with the right token in the capitalised header. *)
Definition good_upload : UploadEvent :=
  mkUploadEvent None (Some "Bearer s3cret") (Some "{graph}").
Definition graph_parse (text : string) : option (option Graph) :=
  Some (Some full_graph).

(** A topic that cannot be encoded: the text of a summary whose JSON
    holds the escape of the unpaired high surrogate U+D800, which
    [JSON.parse] accepts. *)
Definition lone_surrogate : string :=
  String "237"%char (String "160"%char (String "128"%char "")).
Definition torn_topic : string := "GNN " +:+ lone_surrogate.
Definition torn_graph : Graph :=
  mkGraph
    [mkNode 1 (Some "GNN") (Some torn_topic) (Some []) (Some (9 # 10)%Q);
     mkNode 2 (Some "GCN") (Some "GCN") (Some []) (Some (5 # 10)%Q)]
    [mkEdge 1 2 "related"].
(** A clustering service that proposes no group. *)
Definition quiet_openai (request : list Node) : OpenAIReply :=
  OaData (Some "{groups:[]}") None.
Definition quiet_parse (text : string) : Parsed := ParsedValue (Some []).

(** * Verification *)

(** ** Insertion-ordered maps *)

Section OrderedMapFacts.
Context {V : Type}.
Implicit Types (m : list (Z * V)) (k : Z) (v : V).

Lemma omap_get_set_eq k v m : omap_get k (omap_set k v m) = Some v.
Proof.
  induction m as [|[k' v'] m IH]; simpl.
  - by rewrite decide_True.
  - destruct (decide (k = k')) as [->|Hne]; simpl.
    + by rewrite decide_True.
    + by rewrite decide_False.
Qed.

Lemma omap_get_set_ne k k' v m :
  k ≠ k' → omap_get k' (omap_set k v m) = omap_get k' m.
Proof.
  intros Hne. induction m as [|[k0 v0] m IH]; simpl.
  - by rewrite decide_False.
  - destruct (decide (k = k0)) as [->|Hk]; simpl.
    + by rewrite !decide_False.
    + by rewrite IH.
Qed.

Lemma omap_get_None k m : omap_get k m = None ↔ k ∉ m.*1.
Proof.
  induction m as [|[k' v'] m IH]; simpl.
  - split; [intros _; apply not_elem_of_nil | done].
  - rewrite not_elem_of_cons. destruct (decide (k = k')) as [->|Hne].
    + split; [done | intros [? _]; done].
    + rewrite IH. split; [by split | by intros [_ ?]].
Qed.

Lemma omap_get_Some_elem k v m : omap_get k m = Some v → (k, v) ∈ m.
Proof.
  induction m as [|[k' v'] m IH]; simpl; [done|].
  destruct (decide (k = k')) as [->|]; intros H.
  - injection H as ->. left.
  - right. auto.
Qed.

Lemma omap_elem_get k v m : NoDup m.*1 → (k, v) ∈ m → omap_get k m = Some v.
Proof.
  induction m as [|[k' v'] m IH]; simpl; intros Hnd Hin.
  - by apply elem_of_nil in Hin.
  - apply NoDup_cons in Hnd as [Hk' Hnd].
    apply elem_of_cons in Hin as [Heq|Hin].
    + injection Heq as -> ->. by rewrite decide_True.
    + rewrite decide_False; [auto|].
      intros ->. apply Hk'. apply (list_elem_of_fmap_2 fst) in Hin. done.
Qed.

(** Setting a key that is present keeps the keys; a new key goes last. *)
Lemma omap_set_keys k v m :
  (omap_set k v m).*1 = if decide (k ∈ m.*1) then m.*1 else m.*1 ++ [k].
Proof.
  induction m as [|[k' v'] m IH]; [done|]. simpl.
  destruct (decide (k = k')) as [->|Hne]; csimpl.
  - rewrite decide_True by (apply elem_of_cons; by left). done.
  - rewrite IH. destruct (decide (k ∈ m.*1)) as [Hin|Hnin].
    + rewrite decide_True by (apply elem_of_cons; by right). done.
    + rewrite decide_False; [done|]. rewrite elem_of_cons. by intros [?|?].
Qed.

Lemma omap_set_NoDup k v m : NoDup m.*1 → NoDup (omap_set k v m).*1.
Proof.
  intros Hnd. rewrite omap_set_keys. case_decide; [done|].
  apply NoDup_app. split_and!; [done | | apply NoDup_singleton].
  intros x Hx ->%list_elem_of_singleton. done.
Qed.

Lemma omap_set_keys_incl k k' v m : k' ∈ m.*1 → k' ∈ (omap_set k v m).*1.
Proof.
  intros Hin. rewrite omap_set_keys. case_decide; [done|].
  apply elem_of_app. by left.
Qed.

(** Two maps without duplicate keys and with the same lookups hold the
    same entries. *)
Lemma omap_ext_perm m1 m2 :
  NoDup m1.*1 → NoDup m2.*1 →
  (∀ k, omap_get k m1 = omap_get k m2) → m1 ≡ₚ m2.
Proof.
  intros H1 H2 Hget. apply NoDup_Permutation.
  - eapply NoDup_fmap_1, H1.
  - eapply NoDup_fmap_1, H2.
  - intros [k v]. split; intros Hin.
    + apply omap_get_Some_elem. rewrite <- Hget. by apply omap_elem_get.
    + apply omap_get_Some_elem. rewrite Hget. by apply omap_elem_get.
Qed.
End OrderedMapFacts.

(** ** Numbers as strings, and the edge key *)

Lemma string_app_cons (a : ascii) (s t : string) :
  String a s +:+ t = String a (s +:+ t).
Proof. reflexivity. Qed.

Lemma string_app_nil_l (t : string) : "" +:+ t = t.
Proof. reflexivity. Qed.

Lemma string_app_nil_r (s : string) : s +:+ "" = s.
Proof.
  induction s as [|a s IH]; [done|]. by rewrite string_app_cons, IH.
Qed.

Lemma string_app_assoc (s1 s2 s3 : string) :
  (s1 +:+ s2) +:+ s3 = s1 +:+ s2 +:+ s3.
Proof.
  induction s1 as [|a s1 IH]; [done|]. by rewrite !string_app_cons, IH.
Qed.

Lemma digits_app (s1 s2 : string) : digits s1 → digits s2 → digits (s1 +:+ s2).
Proof.
  induction s1 as [|a s1 IH]; [done|]. rewrite string_app_cons.
  intros [Ha Hs1] Hs2. split; auto.
Qed.

Lemma pretty_N_char_digit (x : N) : is_Some (Ascii.is_nat (pretty_N_char x)).
Proof. unfold pretty_N_char. repeat case_match; by eexists. Qed.

Lemma pretty_N_go_digits (x : N) (s : string) :
  ∃ d, pretty_N_go x s = d +:+ s ∧ digits d ∧ ((0 < x)%N → d ≠ "").
Proof.
  revert s. induction (N.lt_wf_0 x) as [x _ IH]; intros s.
  destruct (decide (x = 0)%N) as [->|Hx].
  - exists "". rewrite pretty_N_go_0. split_and!; [done..|lia].
  - rewrite pretty_N_go_step by lia.
    destruct (IH (x `div` 10)%N) with (s := String (pretty_N_char (x `mod` 10)) s)
      as (d & Hd & Hdig & _).
    { apply N.div_lt; lia. }
    exists (d +:+ String (pretty_N_char (x `mod` 10)) "").
    rewrite Hd, string_app_assoc. split_and!; [done| |].
    + apply digits_app; [done|]. split; [apply pretty_N_char_digit | done].
    + intros _. by destruct d.
Qed.

Lemma pretty_N_digits (x : N) : digits (pretty x) ∧ pretty x ≠ "".
Proof.
  unfold pretty, pretty_N. case_decide as Hx.
  - split; [|done]. split; [by eexists | done].
  - destruct (pretty_N_go_digits x "") as (d & -> & Hd & Hne).
    rewrite string_app_nil_r. split; [done|]. apply Hne. lia.
Qed.

(** The decimal form of an integer: digits, after a sign when negative. *)
Lemma numToString_shape (z : Z) :
  ∃ d, digits d ∧ d ≠ "" ∧
       (numToString z = d ∨ numToString z = String "-" d).
Proof.
  unfold numToString, pretty, pretty_Z. destruct z as [|p|p].
  - exists "0". split_and!; [|done|by left]. split; [by eexists | done].
  - exists (pretty (N.pos p)). destruct (pretty_N_digits (N.pos p)). auto.
  - exists (pretty (N.pos p)). destruct (pretty_N_digits (N.pos p)).
    split_and!; [done..|]. by right.
Qed.

Lemma digits_dash_split (d1 d2 r1 r2 : string) :
  digits d1 → digits d2 →
  d1 +:+ String "-" r1 = d2 +:+ String "-" r2 → d1 = d2 ∧ r1 = r2.
Proof.
  revert d2. induction d1 as [|a d1 IH]; intros [|b d2];
    rewrite ?string_app_cons, ?string_app_nil_l.
  - intros _ _ H. by injection H.
  - intros _ [[n Hn] _] H. injection H as <- _. done.
  - intros [[n Hn] _] _ H. injection H as -> _. done.
  - intros [_ H1] [_ H2] H. injection H as -> H.
    destruct (IH d2 H1 H2 H) as [-> ->]. done.
Qed.

Lemma pairKey_inj (x y x' y' : Z) :
  pairKey x y = pairKey x' y' → x = x' ∧ y = y'.
Proof.
  unfold pairKey. intros H.
  change (numToString x +:+ String "-" (numToString y)
          = numToString x' +:+ String "-" (numToString y')) in H.
  destruct (numToString_shape x) as (d1 & Hd1 & Hn1 & Hx).
  destruct (numToString_shape x') as (d2 & Hd2 & Hn2 & Hx').
  assert (numToString x = numToString x' ∧ numToString y = numToString y')
    as [Hl Hr].
  { destruct Hx as [Hx|Hx], Hx' as [Hx'|Hx']; rewrite Hx, Hx' in *.
    - by apply digits_dash_split.
    - destruct d1 as [|a d1]; [done|].
      rewrite !string_app_cons in H. injection H as -> _.
      destruct Hd1 as [[n Hn] _]. done.
    - destruct d2 as [|a d2]; [done|].
      rewrite !string_app_cons in H. injection H as <- _.
      destruct Hd2 as [[n Hn] _]. done.
    - rewrite !string_app_cons in H. injection H as H.
      destruct (digits_dash_split _ _ _ _ Hd1 Hd2 H) as [-> ->]. done. }
  split; by apply (inj pretty).
Qed.

Lemma edgeKey_eq (e1 e2 : Edge) :
  edgeKey e1 = edgeKey e2 ↔
  Z.min (nodeID1 e1) (nodeID2 e1) = Z.min (nodeID1 e2) (nodeID2 e2) ∧
  Z.max (nodeID1 e1) (nodeID2 e1) = Z.max (nodeID1 e2) (nodeID2 e2).
Proof.
  unfold edgeKey. split; [apply pairKey_inj | by intros [-> ->]].
Qed.

(** ** rewireEdges *)

Lemma firstOccurrences_snoc (l : list Edge) (e : Edge) :
  firstOccurrences (l ++ [e]) =
  if decide (canon e ∈ canon <$> firstOccurrences l)
  then firstOccurrences l else firstOccurrences l ++ [e].
Proof.
  induction l as [|a l IH]; csimpl.
  - by rewrite filter_nil.
  - rewrite IH. destruct (decide (canon e ∈ canon <$> firstOccurrences l)) as [Hin|Hnin].
    + rewrite decide_True; [done|]. apply elem_of_cons.
      destruct (decide (canon e = canon a)) as [Heq|Hne]; [by left|right].
      apply list_elem_of_fmap in Hin as (e' & He' & Hin).
      apply list_elem_of_fmap. exists e'. split; [done|].
      apply list_elem_of_filter. split; [congruence | done].
    + rewrite filter_app, filter_cons, filter_nil.
      destruct (decide (canon e = canon a)) as [Heq|Hne].
      * rewrite decide_False by (intros ?; done).
        rewrite decide_True by (apply elem_of_cons; by left).
        by rewrite app_nil_r.
      * rewrite decide_True by done.
        rewrite decide_False; [done|]. rewrite elem_of_cons. intros [?|Hin]; [done|].
        apply Hnin. apply list_elem_of_fmap in Hin as (e' & He' & Hin).
        apply list_elem_of_filter in Hin as [_ Hin].
        apply list_elem_of_fmap. eauto.
Qed.

Lemma firstOccurrences_NoDup (l : list Edge) :
  NoDup (canon <$> firstOccurrences l).
Proof.
  induction l as [|a l IH]; csimpl; [apply NoDup_nil_2|].
  apply NoDup_cons. split.
  - rewrite list_elem_of_fmap. intros (e & He & Hin).
    apply list_elem_of_filter in Hin as [Hne _]. congruence.
  - revert IH. generalize (firstOccurrences l). intros k.
    induction k as [|b k IHk]; [done|]. csimpl. intros [Hb Hk]%NoDup_cons.
    rewrite filter_cons. case_decide; csimpl; [|auto].
    apply NoDup_cons. split; [|auto].
    rewrite list_elem_of_fmap. intros (e & He & Hin).
    apply list_elem_of_filter in Hin as [_ Hin]. apply Hb.
    apply list_elem_of_fmap. eauto.
Qed.

Lemma firstOccurrences_subset (l : list Edge) (e : Edge) :
  e ∈ firstOccurrences l → e ∈ l.
Proof.
  induction l as [|a l IH]; [done|]. csimpl. rewrite !elem_of_cons.
  intros [->|Hin]; [by left|]. apply list_elem_of_filter in Hin as [_ Hin]. auto.
Qed.

Lemma canon_ordered (e : Edge) :
  nodeID1 e < nodeID2 e → canon e = (nodeID1 e, nodeID2 e).
Proof. intros H. unfold canon. f_equal; lia. Qed.

Lemma rewireStep_spec (idMap : gmap Z Z) (st : RewireState) (e : Edge) :
  rewireInv st →
  rewireInv (rewireStep idMap st e) ∧
  out (rewireStep idMap st e) =
    match translated idMap e with
    | None => out st
    | Some t => if decide (canon t ∈ canon <$> out st) then out st
                else out st ++ [t]
    end.
Proof.
  intros [Hord Hseen]. unfold rewireStep, translated.
  destruct (idMap !! nodeID1 e) as [a|]; [|done].
  destruct (idMap !! nodeID2 e) as [b|]; [|done].
  destruct (decide (a = b)) as [|Hab]; [done|].
  assert (canon (mkEdge (a `min` b) (a `max` b) (reasoning e))
          = (a `min` b, a `max` b)) as Hc.
  { apply canon_ordered. simpl. lia. }
  rewrite Hc. destruct (decide (pairKey _ _ ∈ seen st)) as [Hin|Hnin].
  - rewrite decide_True by by apply Hseen. done.
  - rewrite decide_False by (by rewrite <- Hseen). split; [|done].
    split; simpl.
    + intros e' [He'| ->%list_elem_of_singleton]%elem_of_app; [auto|]. simpl. lia.
    + intros x y. rewrite elem_of_union, elem_of_singleton, fmap_app, elem_of_app.
      rewrite Hseen. csimpl. rewrite Hc, list_elem_of_singleton. split.
      * intros [[-> ->]%pairKey_inj|?]; auto.
      * intros [?|[= -> ->]]; auto.
Qed.

Lemma rewire_fold (idMap : gmap Z Z) (edges pre : list Edge) (st : RewireState) :
  rewireInv st → out st = firstOccurrences pre →
  rewireInv (foldl (rewireStep idMap) st edges) ∧
  out (foldl (rewireStep idMap) st edges)
  = firstOccurrences (pre ++ omap (translated idMap) edges).
Proof.
  revert pre st. induction edges as [|e edges IH]; intros pre st Hinv Hout; csimpl.
  - by rewrite app_nil_r.
  - destruct (rewireStep_spec idMap st e Hinv) as [Hinv' Hout'].
    destruct (translated idMap e) as [t|] eqn:Ht.
    + rewrite cons_middle, app_assoc.
      apply IH; [done|]. rewrite Hout', firstOccurrences_snoc, Hout. done.
    + apply IH; [done|]. by rewrite Hout'.
Qed.

Lemma rewireEdges_refines (edges : list Edge) (idMap : gmap Z Z) :
  rewireEdges edges idMap = rewire_spec edges idMap ∧
  (∀ e, e ∈ rewireEdges edges idMap → nodeID1 e < nodeID2 e).
Proof.
  assert (rewireInv (mkRewireState [] ∅)) as H0.
  { split; simpl; [by intros e ?%elem_of_nil|].
    intros x y. split; [set_solver | by intros ?%elem_of_nil]. }
  destruct (rewire_fold idMap edges [] _ H0 eq_refl) as [[Hord _] Hout].
  simpl in Hout. unfold rewireEdges, rewire_spec. by split.
Qed.

(** C2. [rewireEdges] translates the endpoints of every edge through
    [idMap], drops an edge with an unmapped endpoint and an edge whose
    translated endpoints are equal, and keeps, of the remaining edges in
    (min, max) order, the first occurrence of every canonical pair, with
    its reasoning text; the output has no self-loop and no two edges
    with the same canonical pair. *)
Theorem rewireEdges_correct (edges : list Edge) (idMap : gmap Z Z) :
  rewireEdges edges idMap = rewire_spec edges idMap ∧
  (∀ e, e ∈ rewireEdges edges idMap → nodeID1 e ≠ nodeID2 e) ∧
  NoDup (canon <$> rewireEdges edges idMap).
Proof.
  destruct (rewireEdges_refines edges idMap) as [Heq Hord].
  split_and!; [done| |].
  - intros e He%Hord. lia.
  - rewrite Heq. apply firstOccurrences_NoDup.
Qed.

(** ** Math.min, Math.max and the loops that fill sets and maps *)

Lemma Math_min_spec (m : Z) (rest : list Z) :
  isMinOf (Math_min m rest) (m :: rest).
Proof.
  unfold Math_min. revert m.
  induction rest as [|x rest IH]; intros m; simpl.
  - split; [left | intros x ->%list_elem_of_singleton; lia].
  - destruct (IH (m `min` x)) as [Hin Hle]. split.
    + apply elem_of_cons in Hin as [Hin|Hin].
      * rewrite Hin. destruct (Z.min_spec m x) as [[_ ->]|[_ ->]];
          [left | right; left].
      * do 2 right. done.
    + intros y Hy. assert (foldl Z.min (m `min` x) rest ≤ m `min` x) as H0.
      { apply Hle. left. }
      apply elem_of_cons in Hy as [->|Hy]; [lia|].
      apply elem_of_cons in Hy as [->|Hy]; [lia|].
      apply Hle. by right.
Qed.

Lemma Qmax_cases (a b : Q) :
  (Qmax a b = a ∧ (b <= a)%Q) ∨ (Qmax a b = b ∧ (a <= b)%Q).
Proof.
  unfold Qmax, GenericMinMax.gmax. destruct (a ?= b)%Q eqn:Hc.
  - left. split; [done|]. apply Qeq_alt in Hc. rewrite Hc. apply Qle_refl.
  - right. split; [done|]. apply Qlt_alt in Hc. by apply Qlt_le_weak.
  - left. split; [done|]. apply Qgt_alt in Hc. by apply Qlt_le_weak.
Qed.

Lemma Math_max_spec (r : Q) (rest : list Q) :
  isMaxOf (Math_max r rest) (r :: rest).
Proof.
  unfold Math_max. revert r.
  induction rest as [|x rest IH]; intros r; simpl.
  - split; [left | intros x ->%list_elem_of_singleton; apply Qle_refl].
  - destruct (IH (Qmax r x)) as [Hin Hle]. split.
    + apply elem_of_cons in Hin as [Hin|Hin].
      * rewrite Hin. destruct (Qmax_cases r x) as [[-> _]|[-> _]];
          [left | right; left].
      * do 2 right. done.
    + intros y Hy. assert (Qmax r x <= foldl Qmax (Qmax r x) rest)%Q as H0.
      { apply Hle. left. }
      apply elem_of_cons in Hy as [->|Hy].
      { eapply Qle_trans; [|exact H0]. apply Q.le_max_l. }
      apply elem_of_cons in Hy as [->|Hy].
      { eapply Qle_trans; [|exact H0]. apply Q.le_max_r. }
      apply Hle. by right.
Qed.

Lemma js_gt_true (a b : Q) : js_gt a b = true ↔ (b < a)%Q.
Proof.
  unfold js_gt. rewrite Qgt_alt. destruct (a ?= b)%Q; split; congruence.
Qed.

Lemma js_gt_false (a b : Q) : js_gt a b = false ↔ (a <= b)%Q.
Proof.
  unfold js_gt. rewrite Qle_alt. destruct (a ?= b)%Q; split; congruence.
Qed.

Lemma fold_add_set (l : list Z) (s0 : gset Z) :
  foldl (λ s i, {[i]} ∪ s) s0 l = list_to_set l ∪ s0.
Proof.
  revert s0. induction l as [|x l IH]; intros s0; simpl.
  - set_solver.
  - rewrite IH. set_solver.
Qed.

Lemma fold_set_const (l : list Z) (r : Z) (im0 : gmap Z Z) (k : Z) :
  foldl (λ im i, <[i := r]> im) im0 l !! k =
  if decide (k ∈ l) then Some r else im0 !! k.
Proof.
  revert im0. induction l as [|x l IH]; intros im0; simpl; [done|].
  rewrite IH. destruct (decide (k ∈ l)) as [Hin|Hnin].
  - rewrite decide_True by (by right). done.
  - destruct (decide (k = x)) as [->|Hne].
    + rewrite decide_True by left. by rewrite lookup_insert_eq.
    + rewrite decide_False by (by intros [?|?]%elem_of_cons).
      by rewrite lookup_insert_ne.
Qed.

Lemma fold_set_identity (l : list Node) (im0 : gmap Z Z) (k : Z) :
  foldl (λ im n, <[node_id n := node_id n]> im) im0 l !! k =
  if decide (k ∈ node_id <$> l) then Some k else im0 !! k.
Proof.
  revert im0. induction l as [|x l IH]; intros im0; csimpl; [done|].
  rewrite IH. destruct (decide (k ∈ node_id <$> l)) as [Hin|Hnin].
  - rewrite decide_True by (by right). done.
  - destruct (decide (k = node_id x)) as [->|Hne].
    + rewrite decide_True by left. by rewrite lookup_insert_eq.
    + rewrite decide_False by (by intros [?|?]%elem_of_cons).
      by rewrite lookup_insert_ne.
Qed.

(** ** The relevance-max deduplication of [mergeNodes] *)

Lemma byIdStep_get (B : list (Z * Node)) (n : Node) (k : Z) :
  omap_get k (byIdStep B n) =
  if decide (k = node_id n) then pick (omap_get k B) n else omap_get k B.
Proof.
  unfold byIdStep, pick. destruct (decide (k = node_id n)) as [->|Hne].
  - destruct (omap_get (node_id n) B) as [prev|] eqn:Hget.
    + destruct (js_gt (rel n) (rel prev)); [|done].
      by rewrite omap_get_set_eq.
    + by rewrite omap_get_set_eq.
  - destruct (omap_get (node_id n) B) as [prev|].
    + destruct (js_gt (rel n) (rel prev)); [|done].
      by rewrite omap_get_set_ne.
    + by rewrite omap_get_set_ne.
Qed.

Lemma byId_fold_get (l : list Node) (B : list (Z * Node)) (k : Z) :
  omap_get k (foldl byIdStep B l) =
  foldl pick (omap_get k B) (filter (λ n, node_id n = k) l).
Proof.
  revert B. induction l as [|n l IH]; intros B; simpl; [done|].
  rewrite IH, byIdStep_get, filter_cons.
  destruct (decide (k = node_id n)) as [->|Hne].
  - by rewrite decide_True.
  - by rewrite decide_False.
Qed.

Lemma byIdStep_wf (B : list (Z * Node)) (n : Node) :
  NoDup B.*1 ∧ (∀ k x, (k, x) ∈ B → node_id x = k) →
  NoDup (byIdStep B n).*1 ∧ (∀ k x, (k, x) ∈ byIdStep B n → node_id x = k).
Proof.
  intros [Hnd Hk]. split.
  - unfold byIdStep. repeat case_match; auto using omap_set_NoDup.
  - intros k x Hin.
    assert (NoDup (byIdStep B n).*1) as Hnd'.
    { unfold byIdStep. repeat case_match; auto using omap_set_NoDup. }
    apply omap_elem_get in Hin; [|done].
    rewrite byIdStep_get in Hin. destruct (decide (k = node_id n)) as [->|Hne].
    + unfold pick in Hin. destruct (omap_get (node_id n) B) as [prev|] eqn:Hp.
      * apply omap_get_Some_elem, Hk in Hp.
        destruct (js_gt (rel n) (rel prev)); congruence.
      * congruence.
    + by apply omap_get_Some_elem, Hk in Hin.
Qed.

Lemma byId_fold_wf (l : list Node) (B : list (Z * Node)) :
  NoDup B.*1 ∧ (∀ k x, (k, x) ∈ B → node_id x = k) →
  NoDup (foldl byIdStep B l).*1 ∧
  (∀ k x, (k, x) ∈ foldl byIdStep B l → node_id x = k).
Proof.
  revert B. induction l as [|n l IH]; intros B HB; simpl; [done|].
  by apply IH, byIdStep_wf.
Qed.

Lemma byId_wf (l : list Node) :
  NoDup (foldl byIdStep [] l).*1 ∧
  (∀ k x, (k, x) ∈ foldl byIdStep [] l → node_id x = k).
Proof.
  apply byId_fold_wf. split; [apply NoDup_nil_2 | by intros k x ?%elem_of_nil].
Qed.

(** What the fold of [pick] yields. *)
Lemma pick_fold_spec (acc : option Node) (l : list Node) :
  match foldl pick acc l with
  | Some w => (acc = Some w ∨ w ∈ l) ∧
              (∀ c, c ∈ l → (rel c <= rel w)%Q) ∧
              (∀ a, acc = Some a → (rel a <= rel w)%Q)
  | None => acc = None ∧ l = []
  end.
Proof.
  revert acc. induction l as [|n l IH]; intros acc; simpl.
  - destruct acc as [a|]; [|done]. split_and!; [by left | by intros c ?%elem_of_nil |].
    intros ? [= <-]. apply Qle_refl.
  - specialize (IH (pick acc n)). destruct (foldl pick (pick acc n) l) as [w|].
    + destruct IH as (Hw & Hl & Hacc). split_and!.
      * destruct Hw as [Hw|Hw]; [|by right; right].
        unfold pick in Hw. destruct acc as [a|].
        -- destruct (js_gt (rel n) (rel a)); injection Hw as <-;
             [right; left | by left].
        -- injection Hw as <-. right; left.
      * intros c [->|Hc]%elem_of_cons; [|auto].
        unfold pick in Hacc. destruct acc as [a|]; [|by apply Hacc].
        destruct (js_gt (rel n) (rel a)) eqn:Hgt; [by apply Hacc|].
        apply js_gt_false in Hgt. eapply Qle_trans; [exact Hgt | by apply Hacc].
      * intros a ->. unfold pick in Hacc.
        destruct (js_gt (rel n) (rel a)) eqn:Hgt; [|by apply Hacc].
        apply js_gt_true in Hgt. eapply Qle_trans; [|by apply Hacc].
        by apply Qlt_le_weak.
    + destruct IH as [Hp _]. unfold pick in Hp. destruct acc; [|done].
      by destruct (js_gt _ _).
Qed.

Lemma omap_values_elem (B : list (Z * Node)) (n : Node) :
  NoDup B.*1 → (∀ k x, (k, x) ∈ B → node_id x = k) →
  n ∈ omap_values B ↔ omap_get (node_id n) B = Some n.
Proof.
  intros Hnd Hk. unfold omap_values. rewrite list_elem_of_fmap. split.
  - intros ([k x] & -> & Hin). simpl. rewrite (Hk _ _ Hin).
    by apply omap_elem_get.
  - intros Hget%omap_get_Some_elem. by exists (node_id n, n).
Qed.

Lemma omap_values_ids (B : list (Z * Node)) :
  (∀ k x, (k, x) ∈ B → node_id x = k) → node_id <$> omap_values B = B.*1.
Proof.
  unfold omap_values. induction B as [|[k x] B IH]; intros Hk; csimpl; [done|].
  rewrite IH.
  - f_equal. apply Hk. left.
  - intros k' x' Hin. apply Hk. by right.
Qed.

Lemma filter_none {A} (P : A → Prop) `{!∀ x, Decision (P x)} (l : list A) :
  (∀ x, x ∈ l → ¬ P x) → filter P l = [].
Proof.
  induction l as [|a l IH]; intros Hl; [done|].
  rewrite filter_cons_False by (apply Hl; left).
  apply IH. intros x Hx. apply Hl. by right.
Qed.

(** In a list without duplicate ids, a node is the only one with its id. *)
Lemma filter_id_unique (l : list Node) (n : Node) :
  NoDup (node_id <$> l) → n ∈ l →
  filter (λ n', node_id n' = node_id n) l = [n].
Proof.
  induction l as [|a l IH]; csimpl; intros Hnd Hin; [by apply elem_of_nil in Hin|].
  apply NoDup_cons in Hnd as [Ha Hnd]. rewrite filter_cons.
  apply elem_of_cons in Hin as [->|Hin].
  - rewrite decide_True by done. f_equal.
    apply filter_none. intros x Hx Heq. apply Ha. rewrite <- Heq.
    by apply list_elem_of_fmap_2.
  - rewrite decide_False; [auto|].
    intros Heq. apply Ha. rewrite Heq. by apply list_elem_of_fmap_2.
Qed.

(** ** The loop over the groups *)

Section MergeGroupsFacts.
Variable nodes : list Node.
Implicit Types (g : Group) (st : MergeState) (n : Node).

Lemma elem_of_idSet (i : Z) :
  i ∈ idSet nodes ↔ ∃ n, n ∈ nodes ∧ node_id n = i.
Proof.
  unfold idSet. rewrite elem_of_list_to_set, list_elem_of_fmap. naive_solver.
Qed.

Lemma elem_of_members g (i : Z) :
  i ∈ members nodes g ↔ i ∈ memberIds g ∧ i ∈ idSet nodes.
Proof. unfold members. rewrite list_elem_of_filter. tauto. Qed.

Lemma groupNode_Some g n :
  groupNode nodes g = Some n →
  ∃ m rest, members nodes g = m :: rest ∧ (2 ≤ length (m :: rest))%nat ∧
            n = mergedNode nodes g m rest.
Proof.
  unfold groupNode. destruct (members nodes g) as [|m [|m' rest]]; try done.
  intros [= <-]. exists m, (m' :: rest). simpl. split_and!; [done|lia|done].
Qed.

Lemma groupNode_None g :
  groupNode nodes g = None ↔ (length (members nodes g) < 2)%nat.
Proof.
  unfold groupNode. destruct (members nodes g) as [|m [|m' rest]]; simpl;
    split; try done; lia.
Qed.

Lemma groupNode_id g n :
  groupNode nodes g = Some n → isMinOf (node_id n) (members nodes g).
Proof.
  intros (m & rest & -> & _ & ->)%groupNode_Some. simpl. apply Math_min_spec.
Qed.

(** One iteration, by whether the group is accepted. *)
Lemma mergeGroup_eq st g :
  mergeGroup nodes st g =
  match groupNode nodes g with
  | Some n =>
      {| assigned := list_to_set (members nodes g) ∪ assigned st;
         idMap := foldl (λ im i, <[i := node_id n]> im) (idMap st)
                        (members nodes g);
         mergedNodes := mergedNodes st ++ [n] |}
  | None => st
  end.
Proof.
  unfold mergeGroup.
  pose proof (length_filter (λ i, i ∈ idSet nodes) (memberIds g)) as Hlen.
  fold (members nodes g) in Hlen.
  destruct (groupNode nodes g) as [n|] eqn:Hg.
  - apply groupNode_Some in Hg as (m & rest & Hm & Hl & ->).
    rewrite Hm in Hlen |- *. simpl in Hlen, Hl.
    rewrite decide_False by lia. rewrite decide_False by (simpl; lia).
    by rewrite fold_add_set.
  - apply groupNode_None in Hg. case_decide; [done|].
    rewrite decide_True by done. done.
Qed.

Lemma mergeGroups_snoc (gs : list Group) g :
  mergeGroups nodes (gs ++ [g]) = mergeGroup nodes (mergeGroups nodes gs) g.
Proof. unfold mergeGroups. by rewrite foldl_snoc. Qed.

(** [mergedNodes] holds the merged nodes of the accepted groups, in the
    order of the groups. *)
Lemma mergeGroups_mergedNodes (gs : list Group) :
  mergedNodes (mergeGroups nodes gs) = omap (groupNode nodes) gs.
Proof.
  induction gs as [|g gs IH] using rev_ind; [done|].
  rewrite mergeGroups_snoc, mergeGroup_eq, omap_app. csimpl.
  destruct (groupNode nodes g); simpl; rewrite IH; [done|].
  by rewrite app_nil_r.
Qed.

(** [assigned] holds the valid members of the accepted groups. *)
Lemma mergeGroups_assigned (gs : list Group) (i : Z) :
  i ∈ assigned (mergeGroups nodes gs) ↔
  ∃ g, g ∈ gs ∧ is_Some (groupNode nodes g) ∧ i ∈ members nodes g.
Proof.
  induction gs as [|g gs IH] using rev_ind.
  - unfold mergeGroups. simpl. split; [set_solver|].
    by intros (g & ?%elem_of_nil & _).
  - rewrite mergeGroups_snoc, mergeGroup_eq.
    destruct (groupNode nodes g) as [n|] eqn:Hg; simpl.
    + rewrite elem_of_union, elem_of_list_to_set, IH. split.
      * intros [Hi|(g' & Hg' & HS & Hi)].
        -- exists g. rewrite elem_of_app, list_elem_of_singleton, Hg. eauto.
        -- exists g'. rewrite elem_of_app. eauto.
      * intros (g' & [Hg'| ->%list_elem_of_singleton]%elem_of_app & HS & Hi);
          [right; eauto | by left].
    + rewrite IH. split.
      * intros (g' & Hg' & HS & Hi). exists g'. rewrite elem_of_app. eauto.
      * intros (g' & [Hg'| ->%list_elem_of_singleton]%elem_of_app & HS & Hi);
          [eauto|]. rewrite Hg in HS. by destruct HS.
Qed.

(** [idMap] sends a valid member of an accepted group to the
    representative of the last such group. *)
Lemma mergeGroups_idMap_snoc (gs : list Group) g (i : Z) :
  idMap (mergeGroups nodes (gs ++ [g])) !! i =
  match groupNode nodes g with
  | Some n => if decide (i ∈ members nodes g) then Some (node_id n)
              else idMap (mergeGroups nodes gs) !! i
  | None => idMap (mergeGroups nodes gs) !! i
  end.
Proof.
  rewrite mergeGroups_snoc, mergeGroup_eq.
  destruct (groupNode nodes g); simpl; [|done]. apply fold_set_const.
Qed.

(** The entries of [idMap] after the loop: the keys are the assigned
    ids, and every value is the id of a merged node. *)
Lemma mergeGroups_idMap_wf (gs : list Group) (i v : Z) :
  idMap (mergeGroups nodes gs) !! i = Some v →
  i ∈ assigned (mergeGroups nodes gs) ∧
  v ∈ node_id <$> mergedNodes (mergeGroups nodes gs).
Proof.
  revert v. induction gs as [|g gs IH] using rev_ind; intros v; [done|].
  rewrite mergeGroups_idMap_snoc. rewrite mergeGroups_snoc, mergeGroup_eq.
  destruct (groupNode nodes g) as [n|] eqn:Hg; simpl; [|apply IH].
  rewrite fmap_app, elem_of_app, elem_of_union, elem_of_list_to_set.
  case_decide as Hi.
  - intros [= <-]. split; [by left|]. right. csimpl. left.
  - intros [? ?]%IH. auto.
Qed.

Lemma mergeGroups_assigned_mapped (gs : list Group) (i : Z) :
  i ∈ assigned (mergeGroups nodes gs) →
  is_Some (idMap (mergeGroups nodes gs) !! i) ∧ i ∈ idSet nodes.
Proof.
  induction gs as [|g gs IH] using rev_ind; [set_solver|].
  rewrite mergeGroups_idMap_snoc. rewrite mergeGroups_snoc, mergeGroup_eq.
  destruct (groupNode nodes g) as [n|] eqn:Hg; simpl; [|apply IH].
  rewrite elem_of_union, elem_of_list_to_set. case_decide as Hi.
  - intros _. split; [by eexists|]. by apply elem_of_members in Hi as [_ ?].
  - intros [?|?]; [done|]. by apply IH.
Qed.

(** The ids that pass through are the input ids that are not assigned. *)
Lemma elem_of_passthrough st n :
  n ∈ passthrough nodes st ↔ n ∈ nodes ∧ node_id n ∉ assigned st.
Proof. unfold passthrough. rewrite list_elem_of_filter. tauto. Qed.

Lemma passthrough_ids st (k : Z) :
  k ∈ node_id <$> passthrough nodes st ↔ k ∈ idSet nodes ∧ k ∉ assigned st.
Proof.
  rewrite list_elem_of_fmap, elem_of_idSet. split.
  - intros (n & -> & [? ?]%elem_of_passthrough). eauto.
  - intros [(n & Hn & <-) Hk]. exists n. split; [done|].
    by apply elem_of_passthrough.
Qed.

(** The returned [idMap]. *)
Lemma mergeNodes_idMap (gs : list Group) (k : Z) :
  res_idMap (mergeNodes nodes gs) !! k =
  if decide (k ∈ idSet nodes ∧ k ∉ assigned (mergeGroups nodes gs))
  then Some k else idMap (mergeGroups nodes gs) !! k.
Proof.
  unfold mergeNodes. simpl. rewrite fold_set_identity.
  destruct (decide (k ∈ node_id <$> passthrough nodes (mergeGroups nodes gs)))
    as [Hin|Hnin].
  - rewrite decide_True; [done|]. by apply passthrough_ids.
  - rewrite decide_False; [done|]. by rewrite <- passthrough_ids.
Qed.

(** The returned nodes are the choices of [pick] among the candidates:
    the merged nodes, then the nodes that pass through. *)
Lemma mergeNodes_nodes (gs : list Group) n :
  n ∈ res_nodes (mergeNodes nodes gs) ↔
  foldl pick None
    (filter (λ n', node_id n' = node_id n)
       (omap (groupNode nodes) gs ++ passthrough nodes (mergeGroups nodes gs)))
  = Some n.
Proof.
  unfold mergeNodes. simpl.
  destruct (byId_wf (mergedNodes (mergeGroups nodes gs) ++
                     passthrough nodes (mergeGroups nodes gs))) as [Hnd Hk].
  rewrite omap_values_elem by done.
  by rewrite byId_fold_get, mergeGroups_mergedNodes.
Qed.

Lemma mergeNodes_NoDup (gs : list Group) :
  NoDup (node_id <$> res_nodes (mergeNodes nodes gs)).
Proof.
  unfold mergeNodes. simpl.
  destruct (byId_wf (mergedNodes (mergeGroups nodes gs) ++
                     passthrough nodes (mergeGroups nodes gs))) as [Hnd Hk].
  by rewrite omap_values_ids.
Qed.

(** Every candidate is represented in the output by a node with its id
    and at least its relevance, itself a candidate. *)
Lemma mergeNodes_candidate (gs : list Group) (c : Node) :
  c ∈ omap (groupNode nodes) gs ++ passthrough nodes (mergeGroups nodes gs) →
  ∃ w, w ∈ res_nodes (mergeNodes nodes gs) ∧ node_id w = node_id c ∧
       (rel c <= rel w)%Q ∧
       w ∈ omap (groupNode nodes) gs ++ passthrough nodes (mergeGroups nodes gs).
Proof.
  intros Hc.
  set (cands := omap (groupNode nodes) gs ++ passthrough nodes (mergeGroups nodes gs)) in *.
  pose proof (pick_fold_spec None (filter (λ n', node_id n' = node_id c) cands)) as Hp.
  destruct (foldl pick None _) as [w|] eqn:Hw.
  - destruct Hp as ([?|Hin] & Hmax & _); [done|].
    apply list_elem_of_filter in Hin as [Hid Hin].
    exists w. split_and!; [|done| |done].
    + apply mergeNodes_nodes. by rewrite Hid.
    + apply Hmax. by apply list_elem_of_filter.
  - destruct Hp as [_ Hnil].
    assert (c ∈ filter (λ n', node_id n' = node_id c) cands) as Hin
      by by apply list_elem_of_filter.
    rewrite Hnil in Hin. by apply elem_of_nil in Hin.
Qed.

Lemma mergeNodes_from_candidates (gs : list Group) n :
  n ∈ res_nodes (mergeNodes nodes gs) →
  n ∈ omap (groupNode nodes) gs ++ passthrough nodes (mergeGroups nodes gs).
Proof.
  intros Hn%mergeNodes_nodes.
  pose proof (pick_fold_spec None
    (filter (λ n', node_id n' = node_id n)
       (omap (groupNode nodes) gs ++ passthrough nodes (mergeGroups nodes gs))))
    as Hp.
  rewrite Hn in Hp. destruct Hp as ([?|Hin] & _); [done|].
  by apply list_elem_of_filter in Hin as [_ ?].
Qed.
End MergeGroupsFacts.

(** ** trim *)

Lemma dropSpaces_decomp (l : list ascii) :
  ∃ p, l = p ++ dropSpaces l.
Proof.
  induction l as [|a l [p IH]]; [by exists []|]. simpl.
  destruct (Ascii.is_space a); [|by exists []].
  exists (a :: p). simpl. by rewrite <- IH.
Qed.

Lemma dropSpaces_head (l : list ascii) :
  match dropSpaces l with
  | [] => True
  | a :: _ => Ascii.is_space a = false
  end.
Proof.
  induction l as [|a l IH]; [done|]. simpl.
  by destruct (Ascii.is_space a) eqn:Ha.
Qed.

Lemma dropSpaces_fixed (l : list ascii) :
  match l with [] => True | a :: _ => Ascii.is_space a = false end →
  dropSpaces l = l.
Proof. destruct l as [|a l]; [done|]. simpl. by intros ->. Qed.

Lemma dropSpaces_idemp (l : list ascii) :
  dropSpaces (dropSpaces l) = dropSpaces l.
Proof. apply dropSpaces_fixed, dropSpaces_head. Qed.

Lemma trimList_fixed (t : list ascii) :
  dropSpaces t = t → dropSpaces (rev t) = rev t → trimList t = t.
Proof.
  intros H1 H2. unfold trimList. by rewrite H1, H2, rev_involutive.
Qed.

Lemma trimList_idemp (l : list ascii) : trimList (trimList l) = trimList l.
Proof.
  apply trimList_fixed; unfold trimList.
  - destruct (dropSpaces_decomp (rev (dropSpaces l))) as [p Hp].
    apply (f_equal (@rev ascii)) in Hp.
    rewrite rev_involutive, rev_app_distr in Hp.
    pose proof (dropSpaces_head l) as Hh. rewrite Hp in Hh.
    apply dropSpaces_fixed.
    by destruct (rev (dropSpaces (rev (dropSpaces l)))).
  - by rewrite rev_involutive, dropSpaces_idemp.
Qed.

Lemma trim_idemp (s : string) : trim (trim s) = trim s.
Proof.
  unfold trim. fold (trimList (list_ascii_of_string s)).
  rewrite list_ascii_of_string_of_list_ascii.
  fold (trimList (trimList (list_ascii_of_string s))).
  by rewrite trimList_idemp.
Qed.

Lemma list_ascii_of_string_app (s t : string) :
  list_ascii_of_string (s +:+ t) = list_ascii_of_string s ++ list_ascii_of_string t.
Proof.
  induction s as [|a s IH]; [done|].
  rewrite string_app_cons. simpl. by rewrite IH.
Qed.

Lemma endsVisible_cons (a : ascii) (s : string) :
  endsVisible s → endsVisible (String a s).
Proof.
  intros (l & b & Hl & Hb). exists (a :: l), b. simpl. by rewrite Hl.
Qed.

Lemma endsVisible_app (s t : string) : endsVisible t → endsVisible (s +:+ t).
Proof.
  intros Ht. induction s as [|a s IH]; [done|].
  rewrite string_app_cons. by apply endsVisible_cons.
Qed.

Lemma digit_visible (a : ascii) :
  is_Some (Ascii.is_nat a) → Ascii.is_space a = false.
Proof.
  intros [n Hn]. destruct a as [[] [] [] [] [] [] [] []]; done.
Qed.

Lemma digits_endsVisible (d : string) : digits d → d ≠ "" → endsVisible d.
Proof.
  induction d as [|a d IH]; [done|]. intros [Ha Hd] _.
  destruct d as [|b d].
  - exists [], a. split; [done|]. by apply digit_visible.
  - apply endsVisible_cons. by apply IH.
Qed.

Lemma numToString_endsVisible (z : Z) : endsVisible (numToString z).
Proof.
  destruct (numToString_shape z) as (d & Hd & Hne & [-> | ->]).
  - by apply digits_endsVisible.
  - by apply endsVisible_cons, digits_endsVisible.
Qed.

Lemma join_endsVisible (sep : string) (xs : list string) :
  xs ≠ [] → Forall endsVisible xs → endsVisible (join sep xs).
Proof.
  induction xs as [|x xs IH]; [done|]. intros _ [Hx Hxs]%Forall_cons.
  destruct xs as [|y xs]; [done|].
  change (endsVisible (x +:+ sep +:+ join sep (y :: xs))).
  apply endsVisible_app, endsVisible_app. by apply IH.
Qed.

(** The generated label is its own trimmed form. *)
Lemma trim_generated_label (ms : list Z) :
  ms ≠ [] →
  trim ("Merged " +:+ join "+" (numToString <$> ms))
  = "Merged " +:+ join "+" (numToString <$> ms).
Proof.
  intros Hms.
  assert (endsVisible (join "+" (numToString <$> ms))) as (l & b & Hl & Hb).
  { apply join_endsVisible; [by destruct ms|].
    apply Forall_fmap, Forall_forall. intros z _. apply numToString_endsVisible. }
  unfold trim. fold (trimList (list_ascii_of_string
    ("Merged " +:+ join "+" (numToString <$> ms)))).
  rewrite trimList_fixed.
  - apply string_of_list_ascii_of_string.
  - done.
  - rewrite list_ascii_of_string_app, Hl, app_assoc, rev_app_distr. simpl.
    by rewrite Hb.
Qed.

(** ** mergeNodes *)

Section MergeNodesFacts.
Variable nodes : list Node.

Lemma accepted_iff (g : Group) :
  is_Some (groupNode nodes g) ↔ (2 ≤ length (members nodes g))%nat.
Proof.
  pose proof (groupNode_None nodes g) as H.
  destruct (groupNode nodes g) as [n|].
  - split; [|by eexists]. intros _.
    destruct (decide (2 ≤ length (members nodes g))%nat) as [|Hlt]; [done|].
    assert (@Some Node n = None) by (apply H; lia). done.
  - split; [by intros [? ?]|]. intros Hle.
    assert (length (members nodes g) < 2)%nat by by apply H. lia.
Qed.

(** Later groups that do not claim [i] leave its entry alone. *)
Lemma mergeGroups_idMap_app (gs1 gs2 : list Group) (i : Z) :
  (∀ g, g ∈ gs2 → is_Some (groupNode nodes g) → i ∉ members nodes g) →
  idMap (mergeGroups nodes (gs1 ++ gs2)) !! i
  = idMap (mergeGroups nodes gs1) !! i.
Proof.
  induction gs2 as [|g gs2 IH] using rev_ind; intros Hi.
  - by rewrite app_nil_r.
  - rewrite app_assoc, mergeGroups_idMap_snoc.
    assert (idMap (mergeGroups nodes (gs1 ++ gs2)) !! i
            = idMap (mergeGroups nodes gs1) !! i) as ->.
    { apply IH. intros g' Hg'. apply Hi, elem_of_app. by left. }
    destruct (groupNode nodes g) as [n|] eqn:Hg; [|done].
    rewrite decide_False; [done|]. apply Hi; [|by rewrite Hg].
    apply elem_of_app. right. left.
Qed.

(** The candidates of the deduplication, in the vocabulary of the
    statements. *)
Lemma candidate_iff (groups : list Group) (c : Node) :
  c ∈ omap (groupNode nodes) groups
      ++ passthrough nodes (mergeGroups nodes groups)
  ↔ candidate nodes groups c.
Proof.
  unfold candidate, unclaimed.
  rewrite elem_of_app, list_elem_of_omap, elem_of_passthrough.
  rewrite mergeGroups_assigned. split.
  - intros [?|[Hc Hun]]; [by left|right]. split; [done|].
    intros g Hg Hacc Hin. apply Hun. exists g. by rewrite accepted_iff.
  - intros [?|[Hc Hun]]; [by left|right]. split; [done|].
    intros (g & Hg & Hacc%accepted_iff & Hin). by eapply Hun.
Qed.
End MergeNodesFacts.

(** C1, as worded, fails when two groups share a member: [idMap] keeps
    for member 2 the representative of the later group. *)
Lemma mergeNodes_overlap_counterexample :
  overlap_g1 ∈ [overlap_g1; overlap_g2] ∧
  (2 ≤ length (members overlap_nodes overlap_g1))%nat ∧
  ¬ mergeClaim overlap_nodes [overlap_g1; overlap_g2] overlap_g1.
Proof.
  split_and!; [left | vm_compute; lia |].
  intros (n & [Hin Hmin] & _ & _ & _ & _ & Hmap).
  assert (node_id n = 1) as Hid.
  { assert (members overlap_nodes overlap_g1 = [1; 2]) as Hms by by vm_compute.
    rewrite Hms in Hin, Hmin.
    assert (node_id n ≤ 1) by (apply Hmin; left).
    apply elem_of_cons in Hin as [?|Hin]; [done|].
    apply list_elem_of_singleton in Hin. lia. }
  specialize (Hmap 2). rewrite Hid in Hmap.
  assert (res_idMap (mergeNodes overlap_nodes [overlap_g1; overlap_g2]) !! 2
          = Some 2) as H2 by by vm_compute.
  rewrite H2 in Hmap.
  assert (2 ∈ members overlap_nodes overlap_g1) as Hm.
  { vm_compute. right; left. }
  specialize (Hmap Hm). done.
Qed.

(** C1 (amended). For a group with two valid member ids or more, none of
    which is a valid member of another accepted group, [mergeNodes]
    yields exactly one node whose id is the least valid member id; its
    title is the trimmed label of the group (the generated label
    "Merged id1+id2+..." when the label is absent or empty), its summary
    the trimmed summary of the group (the title when the summary is
    absent or empty), its relevance the greatest relevance of the valid
    members, its papers the empty sequence; and [idMap] sends every valid
    member, the representative included, to that id. *)
Theorem mergeNodes_disjoint_group
    (nodes : list Node) (pre post : list Group) (g : Group) :
  (2 ≤ length (members nodes g))%nat →
  (∀ g' i, g' ∈ pre ++ post → (2 ≤ length (members nodes g'))%nat →
           i ∈ members nodes g' → i ∉ members nodes g) →
  mergeClaim nodes (pre ++ g :: post) g.
Proof.
  intros Hacc Hdis. unfold mergeClaim.
  destruct (proj2 (accepted_iff nodes g) Hacc) as [n Hg].
  pose proof (groupNode_id nodes g n Hg) as Hmin.
  assert (∀ c g', g' ∈ pre ++ post → groupNode nodes g' = Some c →
                  node_id c ≠ node_id n) as Hother.
  { intros c g' Hg' Hc Heq.
    apply (Hdis g' (node_id c)); [done| | |].
    - apply accepted_iff. by rewrite Hc.
    - by apply (groupNode_id nodes g' c).
    - rewrite Heq. apply Hmin. }
  assert (∀ i, i ∈ members nodes g →
               i ∈ assigned (mergeGroups nodes (pre ++ g :: post))) as Hass.
  { intros i Hi. apply mergeGroups_assigned. exists g.
    rewrite elem_of_app, elem_of_cons, Hg. eauto. }
  assert (n ∈ res_nodes (mergeNodes nodes (pre ++ g :: post))) as Hn.
  { apply mergeNodes_nodes.
    rewrite omap_app. csimpl. rewrite Hg, !filter_app, filter_cons_True by done.
    rewrite !filter_none; [done| | |].
    - intros c [_ Hfree]%elem_of_passthrough Heq.
      rewrite Heq in Hfree. by apply Hfree, Hass, Hmin.
    - intros c (g' & Hg' & Hc)%list_elem_of_omap.
      eapply Hother; [|done]. apply elem_of_app. by right.
    - intros c (g' & Hg' & Hc)%list_elem_of_omap.
      eapply Hother; [|done]. apply elem_of_app. by left. }
  exists n. split; [done|]. split.
  { apply filter_id_unique; [apply mergeNodes_NoDup | done]. }
  apply groupNode_Some in Hg as Hshape. destruct Hshape as (m & rest & Hm & _ & Hnode).
  split_and!.
  - exists (mergedTitle g (members nodes g)), (mergedSummary g (members nodes g)).
    assert (specTitle g (members nodes g) (mergedTitle g (members nodes g))) as Ht.
    { unfold specTitle, mergedTitle, js_or_str, absent.
      destruct (label g) as [s|].
      - destruct (decide (s = "")) as [->|Hs].
        + right. split; [by right|]. apply trim_generated_label. by rewrite Hm.
        + left. eauto.
      - right. split; [by left|]. apply trim_generated_label. by rewrite Hm. }
    rewrite Hm in *. subst n. simpl. split_and!; [done..|].
    unfold specSummary, mergedSummary, js_or_str, absent.
    destruct (group_summary g) as [s|].
    + destruct (decide (s = "")) as [->|Hs].
      * right. split; [by right|]. apply trim_idemp.
      * left. eauto.
    + right. split; [by left|]. apply trim_idemp.
  - subst n. simpl. eexists. split; [done|]. rewrite Hm. csimpl.
    apply Math_max_spec.
  - by subst n.
  - intros i Hi. rewrite mergeNodes_idMap.
    rewrite decide_False by (intros [_ Hno]; by apply Hno, Hass).
    rewrite cons_middle, app_assoc.
    rewrite mergeGroups_idMap_app.
    + rewrite mergeGroups_idMap_snoc, Hg. by rewrite decide_True.
    + intros g' Hg' Hacc' Hin. eapply (Hdis g' i); [|by apply accepted_iff|done..].
      apply elem_of_app. by right.
Qed.

Lemma mergeNodes_disjoint_group_witness :
  (2 ≤ length (members example_nodes example_group))%nat ∧
  mergeClaim example_nodes
    ([example_other] ++ example_group :: [example_single]) example_group.
Proof.
  split; [vm_compute; lia|].
  apply (mergeNodes_disjoint_group example_nodes
           [example_other] [example_single] example_group).
  - vm_compute; lia.
  - intros g' i Hg' Hacc Hi.
    apply elem_of_cons in Hg' as [->|Hg'].
    + assert (members example_nodes example_other = [3; 4]) as Ho by by vm_compute.
      assert (members example_nodes example_group = [1; 2]) as Hg by by vm_compute.
      rewrite Ho in Hi. rewrite Hg.
      apply elem_of_cons in Hi as [->|Hi].
      * intros [?|[?|?%elem_of_nil]%elem_of_cons]%elem_of_cons; done.
      * apply list_elem_of_singleton in Hi as ->.
        intros [?|[?|?%elem_of_nil]%elem_of_cons]%elem_of_cons; done.
    + apply list_elem_of_singleton in Hg' as ->.
      exfalso. vm_compute in Hacc. lia.
Defined.



(** C6. Merging the output of a merge again, with no group, returns the
    identity mapping on the ids of that output. *)
Theorem mergeNodes_idempotent_mapping
    (nodes : list Node) (groups : list Group) (k : Z) :
  res_idMap (mergeNodes (res_nodes (mergeNodes nodes groups)) []) !! k =
  if decide (k ∈ node_id <$> res_nodes (mergeNodes nodes groups))
  then Some k else None.
Proof.
  rewrite mergeNodes_idMap.
  change (mergeGroups (res_nodes (mergeNodes nodes groups)) [])
    with (mkMergeState ∅ ∅ []).
  cbn [assigned idMap]. rewrite lookup_empty.
  destruct (decide (k ∈ node_id <$> res_nodes (mergeNodes nodes groups)))
    as [Hin|Hnin].
  - rewrite decide_True; [done|]. split; [|apply not_elem_of_empty].
    unfold idSet. by apply elem_of_list_to_set.
  - rewrite decide_False; [done|]. intros [Hin _]. apply Hnin.
    unfold idSet in Hin. by apply elem_of_list_to_set in Hin.
Qed.

(** C7. After a consolidation step, [idMap] is defined on exactly the
    input node ids, each of its values is the id of a node of the merged
    output, and both endpoints of every rewired edge are ids of nodes of
    the merged output. *)
Theorem consolidation_no_dangling
    (nodes : list Node) (groups : list Group) (edges : list Edge) :
  (∀ k, is_Some (res_idMap (mergeNodes nodes groups) !! k)
        ↔ k ∈ node_id <$> nodes) ∧
  (∀ k v, res_idMap (mergeNodes nodes groups) !! k = Some v →
          v ∈ node_id <$> res_nodes (mergeNodes nodes groups)) ∧
  (∀ e, e ∈ rewireEdges edges (res_idMap (mergeNodes nodes groups)) →
        nodeID1 e ∈ node_id <$> res_nodes (mergeNodes nodes groups) ∧
        nodeID2 e ∈ node_id <$> res_nodes (mergeNodes nodes groups)).
Proof.
  assert (∀ k v, res_idMap (mergeNodes nodes groups) !! k = Some v →
                 v ∈ node_id <$> res_nodes (mergeNodes nodes groups)) as Hval.
  { intros k v. rewrite mergeNodes_idMap.
    assert (∀ c, c ∈ omap (groupNode nodes) groups
                     ++ passthrough nodes (mergeGroups nodes groups) →
                 node_id c ∈ node_id <$> res_nodes (mergeNodes nodes groups))
      as Hc.
    { intros c (w & Hw & <- & _)%mergeNodes_candidate.
      by apply list_elem_of_fmap_2. }
    case_decide as Hk.
    - intros [= <-]. apply passthrough_ids in Hk.
      apply list_elem_of_fmap in Hk as (c & -> & Hin).
      apply Hc, elem_of_app. by right.
    - intros [_ Hv]%mergeGroups_idMap_wf.
      rewrite mergeGroups_mergedNodes in Hv.
      apply list_elem_of_fmap in Hv as (c & -> & Hin).
      apply Hc, elem_of_app. by left. }
  split_and!; [|done|].
  - intros k. rewrite mergeNodes_idMap.
    assert (k ∈ node_id <$> nodes ↔ k ∈ idSet nodes) as ->.
    { unfold idSet. by rewrite elem_of_list_to_set. }
    case_decide as Hk.
    + split; [by intros _; destruct Hk | by eexists].
    + split.
      * intros [v [Hin _]%mergeGroups_idMap_wf].
        by apply mergeGroups_assigned_mapped in Hin as [_ ?].
      * intros Hin.
        destruct (decide (k ∈ assigned (mergeGroups nodes groups))) as [Ha|Hna].
        -- by apply mergeGroups_assigned_mapped in Ha as [? _].
        -- exfalso. by apply Hk.
  - intros e He.
    destruct (rewireEdges_refines edges (res_idMap (mergeNodes nodes groups)))
      as [Heq _].
    rewrite Heq in He. apply firstOccurrences_subset in He.
    apply list_elem_of_omap in He as (e0 & _ & He0).
    unfold translated in He0.
    destruct (_ !! nodeID1 e0) as [a|] eqn:Ha; [|done].
    destruct (_ !! nodeID2 e0) as [b|] eqn:Hb; [|done].
    case_decide; [done|]. injection He0 as <-. simpl.
    apply Hval in Ha, Hb.
    split; [destruct (Z.min_spec a b) as [[_ ->]|[_ ->]]
           | destruct (Z.max_spec a b) as [[_ ->]|[_ ->]]]; done.
Qed.

(** ** Client reconciliation: nodes *)

Lemma omap_set_fresh {V} (k : Z) (v : V) (m : list (Z * V)) :
  k ∉ m.*1 → omap_set k v m = m ++ [(k, v)].
Proof.
  induction m as [|[k' v'] m IH]; csimpl; [done|].
  rewrite not_elem_of_cons. intros [Hne Hk].
  rewrite decide_False by done. by rewrite IH.
Qed.

(** [new Map(entries)] with distinct keys lists the entries in order. *)
Lemma omap_of_NoDup_id {V} (es : list (Z * V)) :
  NoDup es.*1 → omap_of es = es.
Proof.
  unfold omap_of.
  cut (∀ acc, NoDup (acc ++ es).*1 →
              foldl (λ m e, omap_set e.1 e.2 m) acc es = acc ++ es).
  { intros H Hnd. by apply (H []). }
  induction es as [|[k v] es IH]; intros acc Hnd; simpl.
  - by rewrite app_nil_r.
  - rewrite omap_set_fresh.
    + rewrite IH; rewrite <- app_assoc; done.
    + rewrite fmap_app in Hnd. apply NoDup_app in Hnd as (_ & Hd & _).
      intros Hk. apply (Hd k Hk). left.
Qed.

Lemma nodeStep_get (B : list (Z * Node)) (n : Node) (k : Z) :
  omap_get k (nodeStep B n) =
  if decide (k = node_id n) then lay (omap_get k B) n else omap_get k B.
Proof.
  unfold nodeStep, lay. destruct (decide (k = node_id n)) as [->|Hne].
  - destruct (omap_get (node_id n) B); by rewrite omap_get_set_eq.
  - destruct (omap_get (node_id n) B); by rewrite omap_get_set_ne.
Qed.

Lemma nodes_fold_get (l : list Node) (B : list (Z * Node)) (k : Z) :
  omap_get k (foldl nodeStep B l) =
  foldl lay (omap_get k B) (filter (λ n, node_id n = k) l).
Proof.
  revert B. induction l as [|n l IH]; intros B; simpl; [done|].
  rewrite IH, nodeStep_get, filter_cons.
  destruct (decide (k = node_id n)) as [->|Hne].
  - by rewrite decide_True.
  - by rewrite decide_False.
Qed.

Lemma nodeStep_wf (B : list (Z * Node)) (n : Node) :
  NoDup B.*1 ∧ (∀ k x, (k, x) ∈ B → node_id x = k) →
  NoDup (nodeStep B n).*1 ∧ (∀ k x, (k, x) ∈ nodeStep B n → node_id x = k).
Proof.
  intros [Hnd Hk].
  assert (NoDup (nodeStep B n).*1) as Hnd'.
  { unfold nodeStep. case_match; by apply omap_set_NoDup. }
  split; [done|]. intros k x Hin.
  apply omap_elem_get in Hin; [|done].
  rewrite nodeStep_get in Hin. destruct (decide (k = node_id n)) as [->|Hne].
  - unfold lay in Hin. destruct (omap_get (node_id n) B); by injection Hin as <-.
  - by apply omap_get_Some_elem, Hk in Hin.
Qed.

Lemma nodeStep_keys (B : list (Z * Node)) (n : Node) (k : Z) :
  k ∈ B.*1 → k ∈ (nodeStep B n).*1.
Proof. unfold nodeStep. case_match; apply omap_set_keys_incl. Qed.

Lemma nodes_fold_wf (l : list Node) (B : list (Z * Node)) :
  NoDup B.*1 ∧ (∀ k x, (k, x) ∈ B → node_id x = k) →
  NoDup (foldl nodeStep B l).*1 ∧
  (∀ k x, (k, x) ∈ foldl nodeStep B l → node_id x = k).
Proof.
  revert B. induction l as [|n l IH]; intros B HB; simpl; [done|].
  by apply IH, nodeStep_wf.
Qed.

Lemma nodes_fold_keys (l : list Node) (B : list (Z * Node)) (k : Z) :
  k ∈ B.*1 → k ∈ (foldl nodeStep B l).*1.
Proof.
  revert B. induction l as [|n l IH]; intros B HB; simpl; [done|].
  by apply IH, nodeStep_keys.
Qed.

Lemma omap_set_wf (B : list (Z * Node)) (n : Node) :
  NoDup B.*1 ∧ (∀ k x, (k, x) ∈ B → node_id x = k) →
  NoDup (omap_set (node_id n) n B).*1 ∧
  (∀ k x, (k, x) ∈ omap_set (node_id n) n B → node_id x = k).
Proof.
  intros [Hnd Hk]. split; [by apply omap_set_NoDup|]. intros k x Hin.
  apply omap_elem_get in Hin; [|by apply omap_set_NoDup].
  destruct (decide (node_id n = k)) as [<-|Hne].
  - rewrite omap_get_set_eq in Hin. by injection Hin as <-.
  - rewrite omap_get_set_ne in Hin by done.
    by apply omap_get_Some_elem, Hk in Hin.
Qed.

(** The map built from the previous nodes. *)
Lemma prev_map_wf (prev : list Node) :
  NoDup (omap_of ((λ n, (node_id n, n)) <$> prev)).*1 ∧
  (∀ k x, (k, x) ∈ omap_of ((λ n, (node_id n, n)) <$> prev) → node_id x = k).
Proof.
  unfold omap_of.
  cut (∀ acc : list (Z * Node),
         NoDup acc.*1 ∧ (∀ k x, (k, x) ∈ acc → node_id x = k) →
         NoDup (foldl (λ m e, omap_set e.1 e.2 m) acc
                  ((λ n, (node_id n, n)) <$> prev)).*1 ∧
         (∀ k x, (k, x) ∈ foldl (λ m e, omap_set e.1 e.2 m) acc
                            ((λ n, (node_id n, n)) <$> prev) →
                 node_id x = k)).
  { intros H. apply H. split; [apply NoDup_nil_2 | by intros k x ?%elem_of_nil]. }
  induction prev as [|n prev IH]; intros acc Hacc; csimpl; [done|].
  by apply IH, omap_set_wf.
Qed.

Lemma prev_map_keys (prev : list Node) (n : Node) :
  n ∈ prev → node_id n ∈ (omap_of ((λ n, (node_id n, n)) <$> prev)).*1.
Proof.
  unfold omap_of.
  cut (∀ acc : list (Z * Node),
         node_id n ∈ acc.*1 ∨ n ∈ prev →
         node_id n ∈ (foldl (λ m e, omap_set e.1 e.2 m) acc
                        ((λ n, (node_id n, n)) <$> prev)).*1).
  { intros H Hn. apply H. by right. }
  induction prev as [|a prev IH]; intros acc; csimpl.
  - by intros [?|?%elem_of_nil].
  - intros [Hacc|[->|Hin]%elem_of_cons]; apply IH.
    + left. by apply omap_set_keys_incl.
    + left. rewrite omap_set_keys. case_decide; [done|].
      apply elem_of_app. right. left.
    + by right.
Qed.

(** The reconciled nodes have distinct ids: the view keeps the
    invariant of the data model. *)
Lemma setDataNodes_NoDup (prev incoming : list Node) :
  NoDup (node_id <$> setDataNodes prev incoming).
Proof.
  unfold setDataNodes.
  destruct (nodes_fold_wf incoming _ (prev_map_wf prev)) as [Hnd Hk].
  by rewrite omap_values_ids.
Qed.

(** The reconciled node for an id. *)
Lemma setDataNodes_elem (prev incoming : list Node) (m : Node) :
  m ∈ setDataNodes prev incoming ↔
  foldl lay (omap_get (node_id m) (omap_of ((λ n, (node_id n, n)) <$> prev)))
        (filter (λ n, node_id n = node_id m) incoming) = Some m.
Proof.
  unfold setDataNodes.
  destruct (nodes_fold_wf incoming _ (prev_map_wf prev)) as [Hnd Hk].
  rewrite omap_values_elem by done. by rewrite nodes_fold_get.
Qed.

Lemma prev_map_get (prev : list Node) (old : Node) :
  NoDup (node_id <$> prev) → old ∈ prev →
  omap_get (node_id old) (omap_of ((λ n, (node_id n, n)) <$> prev)) = Some old.
Proof.
  intros Hnd Hin.
  assert (((λ n, (node_id n, n)) <$> prev).*1 = node_id <$> prev) as Hkeys.
  { rewrite <- list_fmap_compose. done. }
  rewrite omap_of_NoDup_id by by rewrite Hkeys.
  apply omap_elem_get; [by rewrite Hkeys|].
  by apply (list_elem_of_fmap_2 (λ n, (node_id n, n))).
Qed.

Lemma prev_map_get_None (prev : list Node) (k : Z) :
  k ∉ node_id <$> prev →
  omap_get k (omap_of ((λ n, (node_id n, n)) <$> prev)) = None.
Proof.
  intros Hk. apply omap_get_None. intros Hin. apply Hk.
  clear Hk. revert Hin. unfold omap_of.
  cut (∀ acc : list (Z * Node),
         k ∈ (foldl (λ m e, omap_set e.1 e.2 m) acc
                ((λ n, (node_id n, n)) <$> prev)).*1 →
         k ∈ acc.*1 ∨ k ∈ node_id <$> prev).
  { intros H Hin. by destruct (H [] Hin) as [?%elem_of_nil|?]. }
  induction prev as [|a prev IH]; intros acc; csimpl; [by left|].
  intros [Hin|Hin]%IH; [|by right; right].
  rewrite omap_set_keys in Hin. case_decide; [by left|].
  apply elem_of_app in Hin as [?| ->%list_elem_of_singleton]; [by left|].
  right. left.
Qed.

(** C4. For an incoming snapshot and a view with unique node ids: the
    reconciled node of an incoming node whose id is in the view has the
    old node's fields overlaid by the incoming ones (a field of the
    incoming node takes its value, a field it omits keeps the old one);
    an incoming node with a new id is inserted as it is. *)
Theorem setDataNodes_overlay (prev incoming : list Node) (n : Node) :
  NoDup (node_id <$> prev) → NoDup (node_id <$> incoming) → n ∈ incoming →
  (∀ old, old ∈ prev → node_id old = node_id n →
     ∃ m, filter (λ x, node_id x = node_id n) (setDataNodes prev incoming) = [m]
          ∧ overlaid old n m) ∧
  (node_id n ∉ node_id <$> prev →
     filter (λ x, node_id x = node_id n) (setDataNodes prev incoming) = [n]).
Proof.
  intros Hprev Hinc Hn.
  pose proof (filter_id_unique incoming n Hinc Hn) as Hf.
  split.
  - intros old Hold Hid. exists (spread old n).
    assert (spread old n ∈ setDataNodes prev incoming) as Hm.
    { apply setDataNodes_elem. cbn [spread node_id].
      rewrite Hf, <- Hid, prev_map_get by done. done. }
    split.
    + by apply (filter_id_unique _ (spread old n)), Hm; [apply setDataNodes_NoDup].
    + unfold overlaid, fieldOverlaid, spread, overlay. simpl.
      split_and!; try done; try (by intros v ->); by intros ->.
  - intros Hnew.
    apply filter_id_unique; [apply setDataNodes_NoDup|].
    apply setDataNodes_elem. by rewrite Hf, prev_map_get_None.
Qed.

Lemma setDataNodes_overlay_witness :
  NoDup (node_id <$> [view_node]) ∧ NoDup (node_id <$> [incoming_node]) ∧
  incoming_node ∈ [incoming_node] ∧
  (∀ old, old ∈ [view_node] → node_id old = node_id incoming_node →
     ∃ m, filter (λ x, node_id x = node_id incoming_node)
            (setDataNodes [view_node] [incoming_node]) = [m]
          ∧ overlaid old incoming_node m).
Proof.
  assert (NoDup (node_id <$> [view_node])) as H1 by apply NoDup_singleton.
  assert (NoDup (node_id <$> [incoming_node])) as H2 by apply NoDup_singleton.
  assert (incoming_node ∈ [incoming_node]) as H3 by left.
  split_and!; [done..|].
  exact (proj1 (setDataNodes_overlay [view_node] [incoming_node] incoming_node
                  H1 H2 H3)).
Defined.

(** ** Client reconciliation: edges *)

Lemma edgeStep_spec (st : EdgeState) (e : Edge) :
  edgeInv st →
  edgeInv (edgeStep st e) ∧
  merged (edgeStep st e) =
    merged st ++ (if decide (edgeKey e ∈ edgeKey <$> merged st) then [] else [e]).
Proof.
  unfold edgeInv, edgeStep. intros Hinv. rewrite Hinv.
  destruct (decide (edgeKey e ∈ edgeKey <$> merged st)) as [Hin|Hnin].
  - rewrite decide_True by by apply elem_of_list_to_set.
    by rewrite app_nil_r.
  - rewrite decide_False by by rewrite elem_of_list_to_set.
    simpl. split; [|done]. rewrite fmap_app, list_to_set_app_L. csimpl.
    set_solver.
Qed.

Lemma edges_fold_inv (l : list Edge) (st : EdgeState) :
  edgeInv st → edgeInv (foldl edgeStep st l).
Proof.
  revert st. induction l as [|e l IH]; intros st Hinv; simpl; [done|].
  by apply IH, edgeStep_spec.
Qed.

(** The loop only appends, and what it appends comes from the incoming
    edges. *)
Lemma edges_fold_prefix (l : list Edge) (st : EdgeState) :
  edgeInv st →
  ∃ added, merged (foldl edgeStep st l) = merged st ++ added ∧
           (∀ e, e ∈ added → e ∈ l).
Proof.
  revert st. induction l as [|e l IH]; intros st Hinv; simpl.
  - exists []. split; [by rewrite app_nil_r | by intros e ?%elem_of_nil].
  - destruct (edgeStep_spec st e Hinv) as [Hinv' Hm].
    destruct (IH _ Hinv') as (added & Hadd & Hsub).
    rewrite Hadd, Hm, <- app_assoc. eexists. split; [done|].
    intros e' [He'|He']%elem_of_app; [|right; auto].
    case_decide; [by apply elem_of_nil in He'|].
    apply list_elem_of_singleton in He' as ->. left.
Qed.

Lemma edges_init_inv (prev : list Edge) :
  edgeInv (mkEdgeState prev (list_to_set (edgeKey <$> prev))).
Proof. done. Qed.

(** Two states that agree on the keys of the incoming edges receive the
    same additions. *)
Lemma edges_fold_agree (l : list Edge) (st1 st2 : EdgeState) :
  edgeInv st1 → edgeInv st2 →
  (∀ e, e ∈ l → edgeKey e ∈ edgeKey <$> merged st1
                ↔ edgeKey e ∈ edgeKey <$> merged st2) →
  ∃ added, merged (foldl edgeStep st1 l) = merged st1 ++ added ∧
           merged (foldl edgeStep st2 l) = merged st2 ++ added.
Proof.
  revert st1 st2. induction l as [|e l IH]; intros st1 st2 H1 H2 Hag; simpl.
  - exists []. by rewrite !app_nil_r.
  - destruct (edgeStep_spec st1 e H1) as [H1' Hm1].
    destruct (edgeStep_spec st2 e H2) as [H2' Hm2].
    destruct (IH _ _ H1' H2') as (added & Ha1 & Ha2).
    { intros e' He'. rewrite Hm1, Hm2, !fmap_app, !elem_of_app.
      rewrite (Hag e') by by right.
      assert (edgeKey e ∈ edgeKey <$> merged st1
              ↔ edgeKey e ∈ edgeKey <$> merged st2) as He by (apply Hag; left).
      destruct (decide (edgeKey e ∈ edgeKey <$> merged st1)) as [Hin|Hnin].
      - rewrite decide_True by by apply He. done.
      - rewrite decide_False by by rewrite <- He. done. }
    rewrite Ha1, Ha2, Hm1, Hm2, <- !app_assoc.
    assert (edgeKey e ∈ edgeKey <$> merged st1
            ↔ edgeKey e ∈ edgeKey <$> merged st2) as He by (apply Hag; left).
    destruct (decide (edgeKey e ∈ edgeKey <$> merged st1)) as [Hin|Hnin].
    + rewrite decide_True by by apply He. eauto.
    + rewrite decide_False by by rewrite <- He. eauto.
Qed.

Lemma setDataEdges_prefix (prev incoming : list Edge) :
  ∃ added, setDataEdges prev incoming = prev ++ added ∧
           (∀ e, e ∈ added → e ∈ incoming).
Proof.
  unfold setDataEdges.
  apply (edges_fold_prefix incoming _ (edges_init_inv prev)).
Qed.

(** Reconciling with two snapshots in turn is one pass of the loop over
    the edges of both. *)
Lemma setDataEdges_twice (prev a b : list Edge) :
  setDataEdges (setDataEdges prev a) b =
  merged (foldl edgeStep
            (foldl edgeStep (mkEdgeState prev (list_to_set (edgeKey <$> prev))) a)
            b).
Proof.
  unfold setDataEdges.
  pose proof (edges_fold_inv a _ (edges_init_inv prev)) as Hinv.
  unfold edgeInv in Hinv. rewrite <- Hinv. by destruct (foldl edgeStep _ a).
Qed.

(** C3. Reconciliation removes nothing: every node id of the view is a
    node id of the reconciled view, and the edges of the view are kept,
    unchanged and in place, new edges being appended after them; so the
    canonical key of every edge of the view is still present. *)
Theorem reconcile_never_removes (view incoming : Graph) :
  (∀ n, n ∈ g_nodes view →
        node_id n ∈ node_id <$> g_nodes (reconcile view incoming)) ∧
  (∃ added, g_edges (reconcile view incoming) = g_edges view ++ added ∧
            (∀ e, e ∈ added → e ∈ g_edges incoming)) ∧
  (∀ e, e ∈ g_edges view →
        e ∈ g_edges (reconcile view incoming) ∧
        edgeKey e ∈ edgeKey <$> g_edges (reconcile view incoming)).
Proof.
  unfold reconcile. simpl. split_and!.
  - intros n Hn. unfold setDataNodes.
    destruct (nodes_fold_wf (g_nodes incoming) _ (prev_map_wf (g_nodes view)))
      as [_ Hk].
    rewrite omap_values_ids by done.
    by apply nodes_fold_keys, prev_map_keys.
  - apply setDataEdges_prefix.
  - intros e He.
    destruct (setDataEdges_prefix (g_edges view) (g_edges incoming))
      as (added & -> & _).
    assert (e ∈ g_edges view ++ added) by (apply elem_of_app; by left).
    split; [done|]. by apply list_elem_of_fmap_2.
Qed.

(** ** Client reconciliation: two snapshots *)

Lemma setDataNodes_twice (prev a b : list Node) :
  setDataNodes (setDataNodes prev a) b =
  omap_values
    (foldl nodeStep
       (foldl nodeStep (omap_of ((λ n, (node_id n, n)) <$> prev)) a) b).
Proof.
  unfold setDataNodes at 1. f_equal. f_equal. unfold setDataNodes.
  destruct (nodes_fold_wf a _ (prev_map_wf prev)) as [Hnd Hk].
  revert Hnd Hk. generalize (foldl nodeStep (omap_of ((λ n, (node_id n, n)) <$> prev)) a).
  intros M Hnd Hk.
  assert ((λ n, (node_id n, n)) <$> omap_values M = M) as ->.
  { unfold omap_values. clear Hnd.
    induction M as [|[k x] M IH]; csimpl; [done|].
    rewrite IH by (intros k' x' ?; apply Hk; by right).
    by rewrite (Hk k x) by left. }
  by apply omap_of_NoDup_id.
Qed.

Lemma lay_fold_disjoint (acc : option Node) (la lb : list Node) :
  la = [] ∨ lb = [] →
  foldl lay (foldl lay acc la) lb = foldl lay (foldl lay acc lb) la.
Proof. by intros [-> | ->]. Qed.

Lemma touched_node (s : Graph) (n : Node) :
  n ∈ g_nodes s → node_id n ∈ touched s.
Proof.
  intros Hn. unfold touched. rewrite !elem_of_union, !elem_of_list_to_set.
  left; left. by apply list_elem_of_fmap_2.
Qed.

Lemma touched_edge (s : Graph) (e : Edge) :
  e ∈ g_edges s → nodeID1 e ∈ touched s ∧ nodeID2 e ∈ touched s.
Proof.
  intros He. unfold touched. rewrite !elem_of_union, !elem_of_list_to_set.
  split; [left; right | right]; by apply list_elem_of_fmap_2.
Qed.

(** Edges of snapshots that touch disjoint ids have different keys. *)
Lemma disjoint_edge_keys (A B : Graph) (e e' : Edge) :
  touched A ## touched B → e ∈ g_edges A → e' ∈ g_edges B →
  edgeKey e ≠ edgeKey e'.
Proof.
  intros Hdis [H1 H2]%touched_edge [H1' H2']%touched_edge [Hmin _]%edgeKey_eq.
  assert (nodeID1 e = nodeID1 e' ∨ nodeID1 e = nodeID2 e' ∨
          nodeID2 e = nodeID1 e' ∨ nodeID2 e = nodeID2 e') as Hc by lia.
  pose proof (proj1 (elem_of_disjoint _ _) Hdis) as Hd.
  destruct Hc as [Hc|[Hc|[Hc|Hc]]];
    [apply (Hd (nodeID1 e)) | apply (Hd (nodeID1 e))
     | apply (Hd (nodeID2 e)) | apply (Hd (nodeID2 e))];
    try done; by rewrite Hc.
Qed.

Lemma setDataEdges_commute (A B : Graph) (prev : list Edge) :
  touched A ## touched B →
  setDataEdges (setDataEdges prev (g_edges A)) (g_edges B)
  ≡ₚ setDataEdges (setDataEdges prev (g_edges B)) (g_edges A).
Proof.
  intros Hdis. rewrite !setDataEdges_twice.
  set (st0 := mkEdgeState prev (list_to_set (edgeKey <$> prev))).
  pose proof (edges_init_inv prev) as H0. fold st0 in H0.
  destruct (edges_fold_prefix (g_edges A) st0 H0) as (addedA & HA & HsubA).
  destruct (edges_fold_prefix (g_edges B) st0 H0) as (addedB & HB & HsubB).
  destruct (edges_fold_agree (g_edges B) (foldl edgeStep st0 (g_edges A)) st0)
    as (added1 & H1 & H1'); [by apply edges_fold_inv | done | |].
  { intros e He. rewrite HA, fmap_app, elem_of_app. split; [|by left].
    intros [?|(e' & Hk & He')%list_elem_of_fmap]; [done|].
    exfalso. by apply (disjoint_edge_keys A B e' e Hdis); [apply HsubA| |]. }
  destruct (edges_fold_agree (g_edges A) (foldl edgeStep st0 (g_edges B)) st0)
    as (added2 & H2 & H2'); [by apply edges_fold_inv | done | |].
  { intros e He. rewrite HB, fmap_app, elem_of_app. split; [|by left].
    intros [?|(e' & Hk & He')%list_elem_of_fmap]; [done|].
    exfalso. by apply (disjoint_edge_keys A B e e' Hdis); [|apply HsubB|]. }
  rewrite H1, H2, HA, HB.
  rewrite HB in H1'. apply app_inv_head in H1' as <-.
  rewrite HA in H2'. apply app_inv_head in H2' as <-.
  rewrite <- !app_assoc. apply Permutation_app_head, Permutation_app_comm.
Qed.

Lemma setDataNodes_commute (A B : Graph) (prev : list Node) :
  touched A ## touched B →
  setDataNodes (setDataNodes prev (g_nodes A)) (g_nodes B)
  ≡ₚ setDataNodes (setDataNodes prev (g_nodes B)) (g_nodes A).
Proof.
  intros Hdis. rewrite !setDataNodes_twice. unfold omap_values.
  apply fmap_Permutation.
  pose proof (prev_map_wf prev) as H0.
  apply omap_ext_perm.
  - by apply nodes_fold_wf, nodes_fold_wf.
  - by apply nodes_fold_wf, nodes_fold_wf.
  - intros k. rewrite !nodes_fold_get. apply lay_fold_disjoint.
    destruct (filter (λ n, node_id n = k) (g_nodes A)) as [|a la] eqn:Ha; [by left|].
    right. apply filter_none. intros b Hb Hk.
    assert (a ∈ filter (λ n, node_id n = k) (g_nodes A)) as Hin
      by (rewrite Ha; left).
    apply list_elem_of_filter in Hin as [Hida Hina].
    apply touched_node in Hina, Hb. rewrite Hida, <- Hk in Hina.
    by apply (proj1 (elem_of_disjoint _ _) Hdis (node_id b)).
Qed.

(** C10. For a view and two snapshots that touch disjoint sets of node
    ids, reconciling with one and then the other yields, in either
    order, the same nodes and the same edges up to their order in the
    lists. *)
Theorem reconcile_commutes (view A B : Graph) :
  touched A ## touched B →
  (g_nodes (reconcile (reconcile view A) B)
   ≡ₚ g_nodes (reconcile (reconcile view B) A)) ∧
  (g_edges (reconcile (reconcile view A) B)
   ≡ₚ g_edges (reconcile (reconcile view B) A)) ∧
  (∀ n, n ∈ g_nodes (reconcile (reconcile view A) B)
        ↔ n ∈ g_nodes (reconcile (reconcile view B) A)) ∧
  (∀ e, e ∈ g_edges (reconcile (reconcile view A) B)
        ↔ e ∈ g_edges (reconcile (reconcile view B) A)).
Proof.
  intros Hdis. unfold reconcile. simpl.
  pose proof (setDataNodes_commute A B (g_nodes view) Hdis) as Hn.
  pose proof (setDataEdges_commute A B (g_edges view) Hdis) as He.
  split_and!; [done..| |].
  - intros n. by rewrite Hn.
  - intros e. by rewrite He.
Qed.

Lemma reconcile_commutes_witness :
  touched snapshot_A ## touched snapshot_B ∧
  (g_nodes (reconcile (reconcile sample_view snapshot_A) snapshot_B)
   ≡ₚ g_nodes (reconcile (reconcile sample_view snapshot_B) snapshot_A)) ∧
  (g_edges (reconcile (reconcile sample_view snapshot_A) snapshot_B)
   ≡ₚ g_edges (reconcile (reconcile sample_view snapshot_B) snapshot_A)).
Proof.
  assert (touched snapshot_A ## touched snapshot_B) as Hdis.
  { unfold touched. simpl. set_solver. }
  split; [done|].
  destruct (reconcile_commutes sample_view snapshot_A snapshot_B Hdis)
    as (Hn & He & _).
  by split.
Defined.

(** ** The topic of a node *)

(** C8. The label map of [handler] is keyed by the least of all member
    ids of a group, valid or not, while [mergeNodes] takes the least
    valid one. For the group [1; 2; 3] over nodes 2, 3 and 5 the merged
    node has id 2 and its topic is its summary, not the group label; and
    node 5, which passes through, takes the label of a group that was
    not accepted. *)
Theorem topic_keyed_by_unfiltered_min :
  let groups := [stale_group; half_group] in
  let r := mergeNodes stale_nodes groups in
  ∃ rep other,
    res_nodes r = [rep; other] ∧
    groupNode stale_nodes stale_group = Some rep ∧
    node_id rep = 2 ∧
    label stale_group = Some "Graph Learning" ∧
    labelByMergedId groups !! 1 = Some "Graph Learning" ∧
    labelByMergedId groups !! 2 = None ∧
    topic groups rep = Some "Graph methods" ∧
    groupNode stale_nodes half_group = None ∧
    other ∈ stale_nodes ∧
    node_id other = 5 ∧
    topic groups other = Some "Pair".
Proof.
  eexists _, _. split_and!; try by vm_compute.
  vm_compute. do 2 right. left.
Qed.

(** ** The lookup chain *)

Section ProvidersFacts.
Variables Work Hit : Type.
Variable workLink : Work → Outcome (option string).
Variable hitLink : Hit → Outcome (option string).
Variable fetchOpenAlex : Request → Fetched (option (list Work)).
Variable fetchArxiv : Request → Fetched string.
Variable fetchScholar : Request → Fetched (option (list Hit)).
Variable SERPAPI_KEY : option string.

Lemma slice0_length {A} (limit : Z) (xs : list A) :
  0 < limit → Z.of_nat (length (slice0 limit xs)) ≤ Z.max 0 limit.
Proof. intros Hl. unfold slice0. rewrite length_take. lia. Qed.

Lemma arxivLoop_length (entries : list (option string)) (limit : Z)
    (out : list string) :
  Z.of_nat (length out) ≤ limit →
  Z.of_nat (length (arxivLoop entries limit out)) ≤ limit.
Proof.
  revert out. induction entries as [|lm entries IH]; intros out Hout; simpl;
    [done|].
  case_decide as Hlt; [|done]. apply IH.
  destruct lm as [href|]; [|done]. case_decide; [done|].
  rewrite length_app. simpl. lia.
Qed.

Lemma encodeURIComponent_wf (s : string) :
  isWellFormed s = true → encodeURIComponent s = Returned (escapeAll s).
Proof.
  unfold isWellFormed, encodeURIComponent. by destruct (unpairedSurrogate s).
Qed.

Lemma encodeURIComponent_throws (s : string) :
  isWellFormed s = false → encodeURIComponent s = Threw.
Proof.
  unfold isWellFormed, encodeURIComponent. by destruct (unpairedSurrogate s).
Qed.

Lemma lift_returned {A B} (a : A) (k : A → Comp B) :
  lift (Returned a) ≫= k = k a.
Proof. unfold mbind, Comp_bind, bind, lift. by destruct (k a). Qed.

Lemma lift_threw {A B} (k : A → Comp B) :
  lift Threw ≫= k = ([], Threw).
Proof. done. Qed.

Lemma ret_outcome {B} (pr : Provider) (net : Request → Fetched B) (limit : Z) :
  providerOutcome pr net limit (ret []).
Proof.
  exists [], []. split_and!; [done|simpl; lia|simpl; lia|].
  by intros rq ?%elem_of_nil.
Qed.

Lemma findOpenAlex_outcome (topic : option string) (limit : Z) :
  isWellFormed (trim (js_or_str topic "")) = true →
  providerOutcome OpenAlex fetchOpenAlex limit
    (findOpenAlex Work workLink fetchOpenAlex topic limit).
Proof.
  intros Hwf. unfold findOpenAlex. case_decide as Hl; [apply ret_outcome|].
  case_decide as Hq; [apply ret_outcome|].
  rewrite (encodeURIComponent_wf _ Hwf), lift_returned.
  set (rq := mkRequest OpenAlex _ limit abortDelay _).
  assert (∀ ps, Z.of_nat (length ps) ≤ Z.max 0 limit →
            (fetchOpenAlex rq = Rejected ∨
             (∃ b, fetchOpenAlex rq = Response false b) ∨
             fetchOpenAlex rq = Response true Threw → ps = []) →
            providerOutcome OpenAlex fetchOpenAlex limit ([rq], Returned ps))
    as Hok.
  { intros ps Hlen Herr. exists [rq], ps. split_and!; [done..|].
    by intros ? ->%list_elem_of_singleton. }
  unfold doFetch. destruct (fetchOpenAlex rq) as [|ok body] eqn:Hf; simpl.
  { apply Hok; [simpl; lia | done]. }
  destruct ok; simpl; [|apply Hok; [simpl; lia | done]].
  destruct body as [j|]; simpl; [|apply Hok; [simpl; lia | done]].
  destruct (mapThrowing workLink (default [] j)) as [links|]; simpl.
  - apply Hok; [apply slice0_length; lia|].
    intros [?|[[b ?]|?]]; done.
  - apply Hok; [simpl; lia|]. done.
Qed.

Lemma findArxiv_outcome (topic : option string) (limit : Z) :
  isWellFormed (trim (js_or_str topic "")) = true →
  providerOutcome Arxiv fetchArxiv limit (findArxiv fetchArxiv topic limit).
Proof.
  intros Hwf. unfold findArxiv. case_decide as Hl; [apply ret_outcome|].
  case_decide as Hq; [apply ret_outcome|].
  rewrite (encodeURIComponent_wf _ Hwf), lift_returned.
  set (rq := mkRequest Arxiv _ limit abortDelay _).
  assert (∀ ps, Z.of_nat (length ps) ≤ Z.max 0 limit →
            (fetchArxiv rq = Rejected ∨
             (∃ b, fetchArxiv rq = Response false b) ∨
             fetchArxiv rq = Response true Threw → ps = []) →
            providerOutcome Arxiv fetchArxiv limit ([rq], Returned ps))
    as Hok.
  { intros ps Hlen Herr. exists [rq], ps. split_and!; [done..|].
    by intros ? ->%list_elem_of_singleton. }
  unfold doFetch. destruct (fetchArxiv rq) as [|ok body] eqn:Hf; simpl.
  { apply Hok; [simpl; lia | done]. }
  destruct ok; simpl; [|apply Hok; [simpl; lia | done]].
  destruct body as [xml|]; simpl; [|apply Hok; [simpl; lia | done]].
  apply Hok.
  - pose proof (arxivLoop_length (linkOf <$> entryMatches xml) limit [])
      as Hlen. simpl in Hlen. lia.
  - intros [?|[[b ?]|?]]; done.
Qed.

Lemma findScholarSerpAPI_outcome (topic : option string) (limit : Z) :
  isWellFormed (trim (js_or_str topic "")) = true →
  isWellFormed (default "" SERPAPI_KEY) = true →
  providerOutcome Scholar fetchScholar limit
    (findScholarSerpAPI Hit hitLink fetchScholar SERPAPI_KEY topic limit).
Proof.
  intros Hwf Hkey.
  unfold findScholarSerpAPI. case_decide as Hl; [apply ret_outcome|].
  case_decide as Hq; [apply ret_outcome|].
  rewrite (encodeURIComponent_wf _ Hwf), lift_returned.
  rewrite (encodeURIComponent_wf _ Hkey), lift_returned.
  set (rq := mkRequest Scholar _ limit abortDelay _).
  assert (∀ ps, Z.of_nat (length ps) ≤ Z.max 0 limit →
            (fetchScholar rq = Rejected ∨
             (∃ b, fetchScholar rq = Response false b) ∨
             fetchScholar rq = Response true Threw → ps = []) →
            providerOutcome Scholar fetchScholar limit ([rq], Returned ps))
    as Hok.
  { intros ps Hlen Herr. exists [rq], ps. split_and!; [done..|].
    by intros ? ->%list_elem_of_singleton. }
  unfold doFetch. destruct (fetchScholar rq) as [|ok body] eqn:Hf; simpl.
  { apply Hok; [simpl; lia | done]. }
  destruct ok; simpl; [|apply Hok; [simpl; lia | done]].
  destruct body as [j|]; simpl; [|apply Hok; [simpl; lia | done]].
  destruct (mapThrowing hitLink (default [] j)) as [links|]; simpl.
  - apply Hok; [apply slice0_length; lia|].
    intros [?|[[b ?]|?]]; done.
  - apply Hok; [simpl; lia|]. done.
Qed.

(** The URL is built outside the [try]: a query that cannot be encoded
    makes the provider throw before any request. *)
Lemma findOpenAlex_throws (topic : option string) (limit : Z) :
  0 < limit → trim (js_or_str topic "") ≠ "" →
  isWellFormed (trim (js_or_str topic "")) = false →
  findOpenAlex Work workLink fetchOpenAlex topic limit = ([], Threw).
Proof.
  intros Hl Hq Hwf. unfold findOpenAlex.
  rewrite decide_False by lia. rewrite decide_False by done.
  by rewrite (encodeURIComponent_throws _ Hwf).
Qed.

Lemma findArxiv_throws (topic : option string) (limit : Z) :
  0 < limit → trim (js_or_str topic "") ≠ "" →
  isWellFormed (trim (js_or_str topic "")) = false →
  findArxiv fetchArxiv topic limit = ([], Threw).
Proof.
  intros Hl Hq Hwf. unfold findArxiv.
  rewrite decide_False by lia. rewrite decide_False by done.
  by rewrite (encodeURIComponent_throws _ Hwf).
Qed.

Lemma findScholarSerpAPI_throws (topic : option string) (limit : Z) :
  0 < limit → trim (js_or_str topic "") ≠ "" →
  js_or SERPAPI_KEY None ≠ None →
  isWellFormed (trim (js_or_str topic "")) = false
  ∨ isWellFormed (default "" SERPAPI_KEY) = false →
  findScholarSerpAPI Hit hitLink fetchScholar SERPAPI_KEY topic limit
  = ([], Threw).
Proof.
  intros Hl Hq Hk Hwf. unfold findScholarSerpAPI.
  rewrite decide_False by (intros [?|?]; [done|lia]).
  rewrite decide_False by done.
  destruct (isWellFormed (trim (js_or_str topic ""))) eqn:Hwq.
  - destruct Hwf as [?|Hwk]; [done|].
    rewrite (encodeURIComponent_wf _ Hwq), lift_returned.
    by rewrite (encodeURIComponent_throws _ Hwk).
  - by rewrite (encodeURIComponent_throws _ Hwq).
Qed.

(** Whether a provider is asked at all. *)
Lemma findScholarSerpAPI_idle (topic : option string) (limit : Z) :
  js_or SERPAPI_KEY None = None ∨ limit ≤ 0 ∨ trim (js_or_str topic "") = "" →
  findScholarSerpAPI Hit hitLink fetchScholar SERPAPI_KEY topic limit = ret [].
Proof.
  intros Hidle. unfold findScholarSerpAPI. case_decide as Hk; [done|].
  destruct Hidle as [?|[?|Hq]]; [exfalso; apply Hk; by left
                                |exfalso; apply Hk; by right|].
  by rewrite decide_True.
Qed.

Lemma bind_returned {A B} (tr : list Request) (a : A) (k : A → Comp B) :
  ((tr, Returned a) : Comp A) ≫= k = (tr ++ (k a).1, (k a).2).
Proof.
  unfold mbind, Comp_bind, bind. by destruct (k a).
Qed.

Lemma bind_threw {A B} (tr : list Request) (k : A → Comp B) :
  ((tr, Threw) : Comp A) ≫= k = (tr, Threw).
Proof. done. Qed.


(** Every run of the chain: it returns at most [limit] links, or it
    throws because the topic or the key cannot be encoded; at most
    three requests have left, each with the limit and the abort
    delay. *)
Lemma lookupPapers_trace (topic : option string) (limit : Z) :
  ∃ tr r, lookupPapers Work Hit workLink hitLink fetchOpenAlex fetchArxiv
            fetchScholar SERPAPI_KEY topic limit = (tr, r) ∧
          (length tr ≤ 3)%nat ∧
          (js_or SERPAPI_KEY None = None → length tr ≤ 2)%nat ∧
          (∀ rq, rq ∈ tr → req_limit rq = limit ∧ req_timeout rq = abortDelay) ∧
          match r with
          | Returned ps =>
              Z.of_nat (length ps) ≤ Z.max 0 limit
          | Threw =>
              0 < limit ∧ trim (js_or_str topic "") ≠ "" ∧
              (isWellFormed (trim (js_or_str topic "")) = false
               ∨ js_or SERPAPI_KEY None ≠ None ∧
                 isWellFormed (default "" SERPAPI_KEY) = false)
          end.
Proof.
  destruct (decide (limit ≤ 0 ∨ trim (js_or_str topic "") = "")) as [Hidle|Hbusy].
  { exists [], (Returned []). split_and!; try (simpl; lia).
    - unfold lookupPapers.
      assert (findOpenAlex Work workLink fetchOpenAlex topic limit = ret [])
        as ->.
      { unfold findOpenAlex. case_decide; [done|].
        destruct Hidle as [?|Hq]; [lia|]. by rewrite decide_True. }
      assert (findArxiv fetchArxiv topic limit = ret []) as ->.
      { unfold findArxiv. case_decide; [done|].
        destruct Hidle as [?|Hq]; [lia|]. by rewrite decide_True. }
      rewrite findScholarSerpAPI_idle by tauto. done.
    - by intros rq ?%elem_of_nil. }
  assert (0 < limit ∧ trim (js_or_str topic "") ≠ "") as [Hl Hq].
  { split; [lia|]. intros ?. apply Hbusy. by right. }
  destruct (isWellFormed (trim (js_or_str topic ""))) eqn:Hwf.
  2:{ exists [], Threw.
      split; [unfold lookupPapers; by rewrite findOpenAlex_throws|].
      split; [simpl; lia|]. split; [simpl; lia|].
      split; [by intros rq ?%elem_of_nil|]. split_and!; [done..|by left]. }
  destruct (findOpenAlex_outcome topic limit Hwf)
    as (t1 & p1 & H1 & Hl1 & Hn1 & Hr1).
  destruct (findArxiv_outcome topic limit Hwf)
    as (t2 & p2 & H2 & Hl2 & Hn2 & Hr2).
  assert (∀ rq, rq ∈ t1 ++ t2 →
                req_limit rq = limit ∧ req_timeout rq = abortDelay) as Hall12.
  { intros rq [Hin|Hin]%elem_of_app;
      [destruct (Hr1 rq Hin) as (_ & ? & ? & _)
      |destruct (Hr2 rq Hin) as (_ & ? & ? & _)]; done. }
  unfold lookupPapers. rewrite H1, bind_returned.
  destruct p1 as [|l1 p1]; simpl.
  2:{ eexists _, _. split; [done|]. rewrite !app_nil_r.
      split_and!; [lia|lia| |done].
      intros rq Hin. apply Hall12, elem_of_app. by left. }
  rewrite H2, bind_returned. destruct p2 as [|l2 p2]; simpl.
  2:{ eexists _, _. split; [done|]. rewrite !app_nil_r, length_app.
      split_and!; [lia|lia|done|done]. }
  destruct (decide (js_or SERPAPI_KEY None = None)) as [Hnokey|Hkey].
  { rewrite findScholarSerpAPI_idle by by left. simpl.
    eexists _, _. split; [done|]. rewrite !app_nil_r, length_app.
    split_and!; [lia|lia|done|simpl; lia]. }
  destruct (isWellFormed (default "" SERPAPI_KEY)) eqn:Hwk.
  - destruct (findScholarSerpAPI_outcome topic limit Hwf Hwk)
      as (t3 & p3 & H3 & Hl3 & Hn3 & Hr3).
    rewrite H3, bind_returned. simpl.
    eexists _, _. split; [done|]. rewrite !app_nil_r, !length_app.
    split_and!.
    + lia.
    + done.
    + rewrite app_assoc. intros rq [Hin|Hin]%elem_of_app; [by apply Hall12|].
      by destruct (Hr3 rq Hin) as (_ & ? & ? & _).
    + done.
  - rewrite findScholarSerpAPI_throws by (try done; by right). simpl.
    eexists _, _. split; [done|]. rewrite !app_nil_r, length_app.
    split_and!; [lia|lia|done|done|done|by right].
Qed.

Lemma lookupPapers_returns (topic : option string) (limit : Z) :
  isWellFormed (trim (js_or_str topic "")) = true →
  isWellFormed (default "" SERPAPI_KEY) = true →
  ∃ tr ps, lookupPapers Work Hit workLink hitLink fetchOpenAlex fetchArxiv
             fetchScholar SERPAPI_KEY topic limit = (tr, Returned ps) ∧
           Z.of_nat (length ps) ≤ Z.max 0 limit.
Proof.
  intros Hwf Hkey.
  destruct (lookupPapers_trace topic limit) as (tr & [ps|] & Hrun & _ & _ & _ & Hr).
  - by exists tr, ps.
  - destruct Hr as (_ & _ & [Hbad|[_ Hbad]]); congruence.
Qed.

(** Every run of the loop over the nodes. *)
Lemma attachPapers_trace (groups : list Group) (ns : list Node) (limit : Z) :
  ∃ tr r,
    attachPapers Work Hit workLink hitLink fetchOpenAlex fetchArxiv
      fetchScholar SERPAPI_KEY groups limit ns = (tr, r) ∧
    (length tr ≤ 3 * length ns)%nat ∧
    (js_or SERPAPI_KEY None = None → length tr ≤ 2 * length ns)%nat ∧
    (∀ rq, rq ∈ tr → req_limit rq = limit ∧ req_timeout rq = abortDelay) ∧
    match r with
    | Returned ns' =>
        Forall2 (λ n n', ∃ t ps,
                   lookupPapers Work Hit workLink hitLink fetchOpenAlex
                     fetchArxiv fetchScholar SERPAPI_KEY (topic groups n) limit
                   = (t, Returned ps) ∧
                   Z.of_nat (length ps) ≤ Z.max 0 limit ∧
                   n' = setPapers n ps) ns ns'
    | Threw =>
        0 < limit ∧
        ((∃ n, n ∈ ns ∧
               isWellFormed (trim (js_or_str (topic groups n) "")) = false)
         ∨ js_or SERPAPI_KEY None ≠ None ∧
           isWellFormed (default "" SERPAPI_KEY) = false)
    end.
Proof.
  induction ns as [|n ns IH]; simpl.
  - exists [], (Returned []).
    split; [done|]. split; [simpl; lia|]. split; [simpl; lia|].
    split; [by intros rq ?%elem_of_nil | constructor].
  - destruct IH as (tr & r & Hrest & Hlen & Hlen2 & Hall & Hr).
    destruct (lookupPapers_trace (topic groups n) limit)
      as (t & [ps|] & Hl & Ht & Ht2 & Hrq & Hps).
    + rewrite Hl, bind_returned, Hrest. destruct r as [ns'|].
      * rewrite bind_returned. simpl. eexists _, _. split; [done|].
        rewrite app_nil_r, length_app.
        split; [lia|]. split.
        { intros Hk. specialize (Ht2 Hk). specialize (Hlen2 Hk). lia. }
        split; [intros rq [?|?]%elem_of_app; auto|].
        constructor; [|done]. by exists t, ps.
      * rewrite bind_threw. simpl. eexists _, _. split; [done|].
        rewrite length_app.
        split; [lia|]. split.
        { intros Hk. specialize (Ht2 Hk). specialize (Hlen2 Hk). lia. }
        split; [intros rq [?|?]%elem_of_app; auto|].
        destruct Hr as [Hlim [(m & Hm & Hbad)|Hbad]]; (split; [done|]).
        -- left. exists m. split; [by right | done].
        -- by right.
    + rewrite Hl, bind_threw. eexists _, _. split; [done|].
      split; [lia|]. split.
      { intros Hk. specialize (Ht2 Hk). lia. }
      split; [done|].
      destruct Hps as (Hlim & _ & [Hbad|Hbad]); (split; [done|]).
      * left. exists n. split; [by left | done].
      * by right.
Qed.
End ProvidersFacts.

(** ** The examples of the specification *)

(** Example 1: merging nodes 1 and 2. *)
Example merge_example_1 :
  let r := mergeNodes [gnn; gcn] [example_group] in
  res_nodes r = [mkNode 1 (Some "Graph Learning") (Some "...") (Some [])
                        (Some (9 # 10)%Q)] ∧
  res_idMap r = {[1 := 1; 2 := 1]}.
Proof. split; [by vm_compute|]. apply map_eq. intros k. by vm_compute. Qed.

(** Example 2: the first of two edges with one canonical pair wins. *)
Example rewire_example_2 :
  rewireEdges [mkEdge 1 2 "a"; mkEdge 2 1 "b"] identity12 = [mkEdge 1 2 "a"].
Proof. by vm_compute. Qed.

(** Example 3: the old summary survives a snapshot that omits it. *)
Example reconcile_example_3 :
  setDataNodes [view_node] [incoming_node]
  = [mkNode 5 (Some "X2") (Some "old") None None].
Proof. by vm_compute. Qed.

(** Example 4: a group with one member id is dropped. *)
Example merge_example_4 :
  let r := mergeNodes [ssl] [example_single] in
  res_nodes r = [ssl] ∧ res_idMap r !! 7 = Some 7.
Proof. split; by vm_compute. Qed.

(** Example 5: an edge that mentions an id outside [idMap] is dropped. *)
Example rewire_example_5 :
  rewireEdges [mkEdge 1 9 "orphan"; mkEdge 2 1 "kept"] identity12
  = [mkEdge 1 2 "kept"].
Proof. by vm_compute. Qed.

(** Two groups with representative 1: the merged node of higher
    relevance is kept, whichever group comes first. *)
Example merge_same_representative :
  node_id <$> res_nodes (mergeNodes [gnn; gcn; gat] [low_group; high_group])
    = [1] ∧
  title <$> res_nodes (mergeNodes [gnn; gcn; gat] [low_group; high_group])
    = [Some "High"] ∧
  title <$> res_nodes (mergeNodes [gnn; gcn; gat] [high_group; low_group])
    = [Some "High"].
Proof. split_and!; by vm_compute. Qed.

(** OpenAlex is aborted, arXiv answers: two requests, the papers are the
    first two links of the feed. *)
Example lookup_falls_through :
  lookupPapers string string plainLink plainLink slowOpenAlex arxivFeed
    noScholar None (Some " graph learning ") 2
  = ([mkRequest OpenAlex "graph%20learning" 2 6000 None;
      mkRequest Arxiv "graph%20learning" 2 6000 None],
     Returned ["https://arxiv.org/abs/1"; "https://arxiv.org/abs/2"]).
Proof. by vm_compute. Qed.

(** * Further properties of the code *)

(** ** mergeNodes and rewireEdges without groups *)

Lemma filter_all {A} (P : A → Prop) `{!∀ x, Decision (P x)} (l : list A) :
  (∀ x, x ∈ l → P x) → filter P l = l.
Proof.
  induction l as [|a l IH]; intros Hl; [done|].
  rewrite filter_cons_True by (apply Hl; left).
  f_equal. apply IH. intros x Hx. apply Hl. by right.
Qed.

(** Nodes with fresh, distinct ids are appended to [byId] in order. *)
Lemma byId_fold_fresh (l : list Node) (B : list (Z * Node)) :
  NoDup (B.*1 ++ (node_id <$> l)) →
  foldl byIdStep B l = B ++ ((λ n, (node_id n, n)) <$> l).
Proof.
  revert B. induction l as [|n l IH]; intros B Hnd; csimpl.
  - by rewrite app_nil_r.
  - assert (node_id n ∉ B.*1) as Hfresh.
    { apply NoDup_app in Hnd as (_ & Hd & _). intros Hin.
      apply (Hd _ Hin). left. }
    unfold byIdStep at 2.
    rewrite (proj2 (omap_get_None (node_id n) B) Hfresh).
    rewrite omap_set_fresh by done. rewrite IH.
    + by rewrite <- app_assoc.
    + rewrite fmap_app. csimpl. by rewrite <- app_assoc.
Qed.

Lemma mergeNodes_nil_nodes (nodes : list Node) :
  NoDup (node_id <$> nodes) → res_nodes (mergeNodes nodes []) = nodes.
Proof.
  intros Hnd. unfold mergeNodes.
  change (mergeGroups nodes []) with (mkMergeState ∅ ∅ []).
  cbn [res_nodes mergedNodes app]. unfold passthrough. cbn [assigned].
  rewrite filter_all by (intros; apply not_elem_of_empty).
  rewrite byId_fold_fresh by done. unfold omap_values. simpl.
  rewrite <- list_fmap_compose. apply list_fmap_id.
Qed.

(** X1. With no groups and distinct node ids, [mergeNodes] returns the
    input nodes themselves, in the input order. *)
Theorem mergeNodes_no_groups_unchanged (nodes : list Node) :
  NoDup (node_id <$> nodes) → res_nodes (mergeNodes nodes []) = nodes.
Proof. apply mergeNodes_nil_nodes. Qed.

Lemma mergeNodes_no_groups_unchanged_witness :
  NoDup (node_id <$> tidy_nodes) ∧
  res_nodes (mergeNodes tidy_nodes []) = tidy_nodes.
Proof.
  assert (NoDup (node_id <$> tidy_nodes)) as Hnd.
  { by apply (bool_decide_unpack (NoDup _)); vm_compute. }
  split; [done|]. exact (mergeNodes_no_groups_unchanged tidy_nodes Hnd).
Defined.

(** Every id of the output of [mergeNodes] is an input id. *)
Lemma mergeNodes_ids_incl (nodes : list Node) (groups : list Group) (k : Z) :
  k ∈ node_id <$> res_nodes (mergeNodes nodes groups) → k ∈ node_id <$> nodes.
Proof.
  intros (n & -> & Hn)%list_elem_of_fmap.
  apply mergeNodes_from_candidates, candidate_iff in Hn
    as [(g & _ & Hg)|[Hn _]].
  - apply groupNode_id in Hg as [Hin _].
    apply elem_of_members in Hin as [_ (n' & Hn' & <-)%elem_of_idSet].
    by apply list_elem_of_fmap_2.
  - by apply list_elem_of_fmap_2.
Qed.

(** X2. [mergeNodes] invents no id and never grows the node set: every
    id of the output is the id of an input node, and the output has at
    most as many nodes as the input. *)
Theorem mergeNodes_never_grows (nodes : list Node) (groups : list Group) :
  (∀ k, k ∈ node_id <$> res_nodes (mergeNodes nodes groups) →
        k ∈ node_id <$> nodes) ∧
  (length (res_nodes (mergeNodes nodes groups)) ≤ length nodes)%nat.
Proof.
  split; [apply mergeNodes_ids_incl|].
  rewrite <- (length_fmap node_id (res_nodes _)), <- (length_fmap node_id nodes).
  apply submseteq_length, NoDup_submseteq; [apply mergeNodes_NoDup|].
  apply mergeNodes_ids_incl.
Qed.

(** ** What rewireEdges keeps *)

Lemma firstOccurrences_pairs (l : list Edge) (p : Z * Z) :
  p ∈ canon <$> firstOccurrences l ↔ p ∈ canon <$> l.
Proof.
  induction l as [|a l IH]; [done|]. csimpl. rewrite !elem_of_cons, <- IH.
  rewrite !list_elem_of_fmap. split.
  - intros [->|(e & -> & He)]; [by left|].
    apply list_elem_of_filter in He as [_ He]. right. eauto.
  - intros [->|(e & -> & He)]; [by left|].
    destruct (decide (canon e = canon a)) as [Heq|Hne]; [by left|].
    right. exists e. split; [done|]. by apply list_elem_of_filter.
Qed.

Lemma translated_canon (idMap : gmap Z Z) (e t : Edge) :
  translated idMap e = Some t ↔
  ∃ a b, idMap !! nodeID1 e = Some a ∧ idMap !! nodeID2 e = Some b ∧ a ≠ b ∧
         t = mkEdge (Z.min a b) (Z.max a b) (reasoning e).
Proof.
  unfold translated. split.
  - destruct (idMap !! nodeID1 e) as [a|]; [|done].
    destruct (idMap !! nodeID2 e) as [b|]; [|done].
    case_decide; [done|]. intros [= <-]. by exists a, b.
  - intros (a & b & -> & -> & Hne & ->). by rewrite decide_False.
Qed.

(** X3. No relationship between two surviving nodes is lost: the
    canonical pairs of the edges that [rewireEdges] returns are exactly
    the pairs (min, max) of the translated endpoints of the input edges
    whose endpoints are both mapped, to different ids. *)
Theorem rewireEdges_pairs (edges : list Edge) (idMap : gmap Z Z) (p : Z * Z) :
  p ∈ canon <$> rewireEdges edges idMap ↔
  ∃ e a b, e ∈ edges ∧ idMap !! nodeID1 e = Some a ∧
           idMap !! nodeID2 e = Some b ∧ a ≠ b ∧
           p = (Z.min a b, Z.max a b).
Proof.
  destruct (rewireEdges_refines edges idMap) as [-> _]. unfold rewire_spec.
  rewrite firstOccurrences_pairs, list_elem_of_fmap. split.
  - intros (t & -> & (e & He & Ht)%list_elem_of_omap).
    apply translated_canon in Ht as (a & b & Ha & Hb & Hne & ->).
    exists e, a, b. split_and!; try done. unfold canon. simpl. f_equal; lia.
  - intros (e & a & b & He & Ha & Hb & Hne & ->).
    exists (mkEdge (Z.min a b) (Z.max a b) (reasoning e)). split.
    + unfold canon. simpl. f_equal; lia.
    + apply list_elem_of_omap. exists e. split; [done|].
      apply translated_canon. by exists a, b.
Qed.

Lemma firstOccurrences_NoDup_id (l : list Edge) :
  NoDup (canon <$> l) → firstOccurrences l = l.
Proof.
  induction l as [|a l IH]; csimpl; [done|].
  intros [Ha Hl]%NoDup_cons. rewrite IH by done. f_equal.
  apply filter_all. intros e He Heq. apply Ha. rewrite <- Heq.
  by apply list_elem_of_fmap_2.
Qed.

(** Rewiring through a map that fixes every endpoint leaves a list of
    edges in (min, max) order and without repeated pair as it is. *)
Lemma rewireEdges_identity (l : list Edge) (idMap : gmap Z Z) :
  (∀ e, e ∈ l → nodeID1 e < nodeID2 e ∧
                idMap !! nodeID1 e = Some (nodeID1 e) ∧
                idMap !! nodeID2 e = Some (nodeID2 e)) →
  NoDup (canon <$> l) →
  rewireEdges l idMap = l.
Proof.
  intros Hl Hnd. destruct (rewireEdges_refines l idMap) as [-> _].
  unfold rewire_spec.
  assert (omap (translated idMap) l = l) as ->.
  { clear Hnd. induction l as [|e l IH]; [done|]. csimpl.
    destruct (Hl e) as (Hlt & H1 & H2); [left|].
    assert (translated idMap e = Some e) as ->.
    { unfold translated. rewrite H1, H2, decide_False by lia.
      rewrite Z.min_l, Z.max_r by lia. by destruct e. }
    by rewrite IH by (intros e' He'; apply Hl; by right). }
  by apply firstOccurrences_NoDup_id.
Qed.

Lemma mergeNodes_idMap_values (nodes : list Node) (groups : list Group) (k v : Z) :
  res_idMap (mergeNodes nodes groups) !! k = Some v →
  v ∈ node_id <$> res_nodes (mergeNodes nodes groups).
Proof.
  rewrite mergeNodes_idMap.
  assert (∀ c, c ∈ omap (groupNode nodes) groups
                   ++ passthrough nodes (mergeGroups nodes groups) →
               node_id c ∈ node_id <$> res_nodes (mergeNodes nodes groups))
    as Hc.
  { intros c (w & Hw & <- & _)%mergeNodes_candidate.
    by apply list_elem_of_fmap_2. }
  case_decide as Hk.
  - intros [= <-]. apply passthrough_ids in Hk.
    apply list_elem_of_fmap in Hk as (c & -> & Hin).
    apply Hc, elem_of_app. by right.
  - intros [_ Hv]%mergeGroups_idMap_wf.
    rewrite mergeGroups_mergedNodes in Hv.
    apply list_elem_of_fmap in Hv as (c & -> & Hin).
    apply Hc, elem_of_app. by left.
Qed.

(** X4. Consolidating a consolidated graph again, the clustering call
    proposing no group, changes nothing: the nodes are returned as they
    are and in order, and the edges too. *)
Theorem consolidation_stable_without_groups
    (nodes : list Node) (groups : list Group) (edges : list Edge) :
  let r := mergeNodes nodes groups in
  let es := rewireEdges edges (res_idMap r) in
  let r' := mergeNodes (res_nodes r) [] in
  res_nodes r' = res_nodes r ∧ rewireEdges es (res_idMap r') = es.
Proof.
  intros r es r'. split.
  - apply mergeNodes_nil_nodes, mergeNodes_NoDup.
  - destruct (rewireEdges_refines edges (res_idMap r)) as [Heq Hord].
    apply rewireEdges_identity.
    + intros e He. split; [by apply Hord|].
      assert (nodeID1 e ∈ node_id <$> res_nodes r ∧
              nodeID2 e ∈ node_id <$> res_nodes r) as [H1 H2].
      { unfold es in He. rewrite Heq in He.
        apply firstOccurrences_subset in He.
        apply list_elem_of_omap in He as (e0 & _ & He0).
        apply translated_canon in He0 as (a & b & Ha & Hb & _ & ->). simpl.
        apply mergeNodes_idMap_values in Ha, Hb.
        split; [destruct (Z.min_spec a b) as [[_ ->]|[_ ->]]
               | destruct (Z.max_spec a b) as [[_ ->]|[_ ->]]]; done. }
      unfold r'. rewrite !mergeNodes_idMap.
      change (mergeGroups (res_nodes r) []) with (mkMergeState ∅ ∅ []).
      cbn [assigned]. unfold idSet.
      rewrite !decide_True; [done| |];
        (split; [by apply elem_of_list_to_set | apply not_elem_of_empty]).
    + unfold es. rewrite Heq. apply firstOccurrences_NoDup.
Qed.

(** ** Reconciling the same snapshot again *)

Lemma overlay_absorb {A} (a b : option A) :
  overlay a (overlay a b) = overlay a b.
Proof. by destruct a. Qed.

Lemma overlay_assoc {A} (a b c : option A) :
  overlay a (overlay b c) = overlay (overlay a b) c.
Proof. by destruct a. Qed.

Lemma node_ext (n m : Node) :
  node_id n = node_id m → title n = title m → summary n = summary m →
  papers n = papers m → relevance n = relevance m → n = m.
Proof. destruct n, m. simpl. by intros -> -> -> -> ->. Qed.

Lemma lay_fold_Some (x : Node) (l : list Node) :
  foldl lay (Some x) l = Some (foldl spread x l).
Proof. revert x. induction l as [|n l IH]; intros x; simpl; [done|]. apply IH. Qed.

(** A field of the fold of [spread]: the value of the last node that has
    the field, the old value when none has it. *)
Lemma spread_fold_field {A} (f : Node → option A) (x : Node) (l : list Node) :
  (∀ old n, f (spread old n) = overlay (f n) (f old)) →
  f (foldl spread x l)
  = overlay (foldl (λ a n, overlay (f n) a) None l) (f x).
Proof.
  intros Hf. induction l as [|n l IH] using rev_ind; [done|].
  rewrite !foldl_snoc, Hf, IH. apply overlay_assoc.
Qed.

Lemma spread_fold_id (x : Node) (l : list Node) :
  node_id (foldl spread x l) = default (node_id x) (last (node_id <$> l)).
Proof.
  induction l as [|n l IH] using rev_ind; [done|].
  rewrite foldl_snoc, fmap_app. csimpl. by rewrite last_snoc.
Qed.

Lemma spread_fold_absorb (x : Node) (l : list Node) :
  foldl spread (foldl spread x l) l = foldl spread x l.
Proof.
  apply node_ext.
  - rewrite !spread_fold_id. by destruct (last (node_id <$> l)).
  - rewrite !(spread_fold_field title) by done. apply overlay_absorb.
  - rewrite !(spread_fold_field summary) by done. apply overlay_absorb.
  - rewrite !(spread_fold_field papers) by done. apply overlay_absorb.
  - rewrite !(spread_fold_field relevance) by done. apply overlay_absorb.
Qed.

Lemma spread_fold_absorb_first (n0 : Node) (l : list Node) :
  foldl spread (spread (foldl spread n0 l) n0) l = foldl spread n0 l.
Proof.
  assert (∀ {A} (a b : option A), overlay a (overlay b (overlay a b))
                                  = overlay a b) as Ho.
  { intros A a b. by destruct a, b. }
  apply node_ext.
  - rewrite !spread_fold_id. cbn [spread node_id].
    by destruct (last (node_id <$> l)).
  - rewrite (spread_fold_field title) by done. cbn [spread title].
    rewrite (spread_fold_field title) by done. apply Ho.
  - rewrite (spread_fold_field summary) by done. cbn [spread summary].
    rewrite (spread_fold_field summary) by done. apply Ho.
  - rewrite (spread_fold_field papers) by done. cbn [spread papers].
    rewrite (spread_fold_field papers) by done. apply Ho.
  - rewrite (spread_fold_field relevance) by done. cbn [spread relevance].
    rewrite (spread_fold_field relevance) by done. apply Ho.
Qed.

Lemma lay_fold_absorb (acc : option Node) (l : list Node) :
  foldl lay (foldl lay acc l) l = foldl lay acc l.
Proof.
  destruct acc as [x|].
  - by rewrite !lay_fold_Some, spread_fold_absorb.
  - destruct l as [|n0 l]; [done|]. simpl.
    rewrite !lay_fold_Some. simpl. by rewrite lay_fold_Some, spread_fold_absorb_first.
Qed.

(** Two ordered maps with the same keys, in the same order and without
    repetition, and the same lookups are equal. *)
Lemma omap_ext_eq {V} (m1 m2 : list (Z * V)) :
  m1.*1 = m2.*1 → NoDup m1.*1 →
  (∀ k, omap_get k m1 = omap_get k m2) → m1 = m2.
Proof.
  revert m2. induction m1 as [|[k v] m1 IH]; intros [|[k' v'] m2]; csimpl;
    try done.
  intros [= <- Hkeys] [Hk Hnd]%NoDup_cons Hget. f_equal.
  - specialize (Hget k). simpl in Hget. rewrite !decide_True in Hget by done.
    by injection Hget as ->.
  - apply IH; [done..|]. intros j. specialize (Hget j). simpl in Hget.
    destruct (decide (j = k)) as [->|Hne]; [|done].
    rewrite (proj2 (omap_get_None k m1) Hk).
    symmetry. apply omap_get_None. by rewrite <- Hkeys.
Qed.

Lemma nodeStep_keys_eq (B : list (Z * Node)) (n : Node) :
  node_id n ∈ B.*1 → (nodeStep B n).*1 = B.*1.
Proof.
  intros Hin. unfold nodeStep.
  destruct (omap_get (node_id n) B); rewrite omap_set_keys; by rewrite decide_True.
Qed.

Lemma nodes_fold_keys_eq (l : list Node) (B : list (Z * Node)) :
  (∀ n, n ∈ l → node_id n ∈ B.*1) → (foldl nodeStep B l).*1 = B.*1.
Proof.
  revert B. induction l as [|n l IH]; intros B Hl; simpl; [done|].
  rewrite IH.
  - apply nodeStep_keys_eq, Hl. left.
  - intros n' Hn'. rewrite nodeStep_keys_eq by (apply Hl; left).
    apply Hl. by right.
Qed.

Lemma nodeStep_adds_key (B : list (Z * Node)) (n : Node) :
  node_id n ∈ (nodeStep B n).*1.
Proof.
  unfold nodeStep. destruct (omap_get (node_id n) B); rewrite omap_set_keys;
    case_decide; try done; apply elem_of_app; right; left.
Qed.

Lemma nodes_fold_has_keys (l : list Node) (B : list (Z * Node)) (n : Node) :
  n ∈ l → node_id n ∈ (foldl nodeStep B l).*1.
Proof.
  revert B. induction l as [|a l IH]; intros B; [by intros ?%elem_of_nil|].
  intros [->|Hin]%elem_of_cons; simpl; [|by apply IH].
  apply nodes_fold_keys, nodeStep_adds_key.
Qed.

Lemma setDataNodes_again (prev incoming : list Node) :
  setDataNodes (setDataNodes prev incoming) incoming = setDataNodes prev incoming.
Proof.
  rewrite setDataNodes_twice. unfold setDataNodes. f_equal.
  set (M := foldl nodeStep (omap_of ((λ n, (node_id n, n)) <$> prev)) incoming).
  destruct (nodes_fold_wf incoming _ (prev_map_wf prev)) as [Hnd Hk].
  fold M in Hnd, Hk.
  assert ((foldl nodeStep M incoming).*1 = M.*1) as Hkeys.
  { apply nodes_fold_keys_eq. intros n Hn. by apply nodes_fold_has_keys. }
  apply omap_ext_eq; [done| by rewrite Hkeys |].
  intros k. rewrite nodes_fold_get. unfold M. rewrite nodes_fold_get.
  apply lay_fold_absorb.
Qed.

Lemma edges_fold_seen (l : list Edge) (st : EdgeState) (e : Edge) :
  edgeInv st → e ∈ l →
  edgeKey e ∈ edgeKey <$> merged (foldl edgeStep st l).
Proof.
  revert st. induction l as [|a l IH]; intros st Hinv; [by intros ?%elem_of_nil|].
  intros [->|Hin]%elem_of_cons; simpl.
  - destruct (edgeStep_spec st a Hinv) as [Hinv' Hm].
    destruct (edges_fold_prefix l _ Hinv') as (added & -> & _).
    rewrite fmap_app, elem_of_app. left. rewrite Hm, fmap_app, elem_of_app.
    case_decide; [by left|]. right. csimpl. left.
  - apply IH; [|done]. by apply edgeStep_spec.
Qed.

Lemma edges_fold_known (l : list Edge) (st : EdgeState) :
  edgeInv st → (∀ e, e ∈ l → edgeKey e ∈ edgeKey <$> merged st) →
  merged (foldl edgeStep st l) = merged st.
Proof.
  revert st. induction l as [|a l IH]; intros st Hinv Hl; simpl; [done|].
  destruct (edgeStep_spec st a Hinv) as [Hinv' Hm].
  rewrite decide_True in Hm by (apply Hl; left). rewrite app_nil_r in Hm.
  rewrite IH; [done..|]. intros e He. rewrite Hm. apply Hl. by right.
Qed.

Lemma setDataEdges_again (prev incoming : list Edge) :
  setDataEdges (setDataEdges prev incoming) incoming = setDataEdges prev incoming.
Proof.
  rewrite setDataEdges_twice. unfold setDataEdges.
  apply edges_fold_known.
  - apply edges_fold_inv, edges_init_inv.
  - intros e He. by apply edges_fold_seen; [apply edges_init_inv|].
Qed.

(** X5. Reconciling the view with a snapshot it has just been reconciled
    with changes nothing: a poll that fetches the same graph again
    leaves the nodes and the edges of the view as they are, in content
    and in order. *)
Theorem reconcile_idempotent (view s : Graph) :
  reconcile (reconcile view s) s = reconcile view s.
Proof.
  unfold reconcile. simpl. by rewrite setDataNodes_again, setDataEdges_again.
Qed.

(** ** The view over a run of polls *)

Lemma edges_fold_NoDup (l : list Edge) (st : EdgeState) :
  edgeInv st → NoDup (edgeKey <$> merged st) →
  NoDup (edgeKey <$> merged (foldl edgeStep st l)).
Proof.
  revert st. induction l as [|e l IH]; intros st Hinv Hnd; simpl; [done|].
  destruct (edgeStep_spec st e Hinv) as [Hinv' Hm].
  apply IH; [done|]. rewrite Hm. case_decide as Hin.
  - by rewrite app_nil_r.
  - rewrite fmap_app. apply NoDup_app. split_and!; [done| |apply NoDup_singleton].
    intros k Hk ->%list_elem_of_singleton. done.
Qed.

(** X6. The view that the client builds from its empty initial state
    over any run of fetched snapshots has no two nodes with one id and no
    two edges with one undirected key, whatever the snapshots hold. *)
Theorem view_stays_simple (snapshots : list Graph) :
  let view := foldl reconcile (mkGraph [] []) snapshots in
  NoDup (node_id <$> g_nodes view) ∧ NoDup (edgeKey <$> g_edges view).
Proof.
  simpl.
  cut (∀ v, NoDup (node_id <$> g_nodes v) ∧ NoDup (edgeKey <$> g_edges v) →
            NoDup (node_id <$> g_nodes (foldl reconcile v snapshots)) ∧
            NoDup (edgeKey <$> g_edges (foldl reconcile v snapshots))).
  { intros H. apply H. split; apply NoDup_nil_2. }
  induction snapshots as [|s ss IH]; intros v [Hn He]; simpl; [done|].
  apply IH. unfold reconcile. simpl. split.
  - apply setDataNodes_NoDup.
  - unfold setDataEdges. by apply edges_fold_NoDup; [apply edges_init_inv|].
Qed.

(** ** The degree map and the radius of a node *)

Lemma numOr0_default (o : option Z) : numOr0 o = default 0 o.
Proof. destruct o as [v|]; [|done]. simpl. by case_decide. Qed.

Lemma degreeStep_lookup (m : gmap Z Z) (e : Edge) (k : Z) :
  default 0 (degreeStep m e !! k)
  = default 0 (m !! k)
    + (if decide (nodeID1 e = k) then 1 else 0)
    + (if decide (nodeID2 e = k) then 1 else 0).
Proof.
  unfold degreeStep. rewrite !numOr0_default.
  generalize (nodeID1 e) (nodeID2 e). intros a b.
  destruct (decide (b = k)) as [Hb|Hb], (decide (a = k)) as [Ha|Ha]; subst;
    repeat (rewrite ?lookup_insert_eq, ?lookup_insert_ne by done; simpl); lia.
Qed.

Lemma degree_init (dataNodes : list Node) (k : Z) :
  default 0 (foldl (λ (m : gmap Z Z) n, <[node_id n := 0]> m) ∅ dataNodes !! k)
  = 0.
Proof.
  induction dataNodes as [|n l IH] using rev_ind; [done|].
  rewrite foldl_snoc. destruct (decide (node_id n = k)) as [->|Hne].
  - by rewrite lookup_insert_eq.
  - by rewrite lookup_insert_ne.
Qed.

Lemma nodeDegrees_lookup (dataNodes : list Node) (dataEdges : list Edge) (k : Z) :
  default 0 (nodeDegrees dataNodes dataEdges !! k)
  = Z.of_nat (length (filter (λ e, nodeID1 e = k) dataEdges)
              + length (filter (λ e, nodeID2 e = k) dataEdges)).
Proof.
  unfold nodeDegrees.
  induction dataEdges as [|e l IH] using rev_ind.
  - simpl. apply degree_init.
  - rewrite foldl_snoc, degreeStep_lookup, IH, !filter_app, !length_app.
    rewrite !filter_cons, !filter_nil.
    repeat case_decide; simpl; lia.
Qed.

(** X7. The radius of a node is the base radius plus the scaling times
    the number of edge ends at the node, an edge from the node to itself
    counting twice; it does not depend on the node being in [dataNodes],
    and a node that no edge mentions has the base radius. *)
Theorem getNodeRadius_counts_edge_ends
    (dataNodes : list Node) (dataEdges : list Edge) (scaling : Q) (k : Z) :
  getNodeRadius dataNodes dataEdges scaling k
  = (baseRadius
     + inject_Z (Z.of_nat (length (filter (λ e, nodeID1 e = k) dataEdges)
                           + length (filter (λ e, nodeID2 e = k) dataEdges)))
       * scaling)%Q.
Proof.
  unfold getNodeRadius. by rewrite numOr0_default, nodeDegrees_lookup.
Qed.

(** ** Positions across rebuilds *)

Lemma savePositions_lookup (ds : list D3Node) (w h : Q) (d : D3Node) :
  NoDup (node_id ∘ d3_node <$> ds) → d ∈ ds →
  savePositions ds w h !! node_id (d3_node d)
  = Some (default (w / 2)%Q (d3_x d), default (h / 2)%Q (d3_y d)).
Proof.
  unfold savePositions. induction ds as [|a l IH] using rev_ind;
    [by intros _ ?%elem_of_nil|].
  rewrite fmap_app, foldl_snoc. csimpl. intros (Hl & Hd & _)%NoDup_app.
  intros [Hin| ->%list_elem_of_singleton]%elem_of_app.
  - rewrite lookup_insert_ne; [by apply IH|].
    intros Heq. apply (Hd (node_id (d3_node d))).
    + by apply (list_elem_of_fmap_2 (node_id ∘ d3_node)) in Hin.
    + rewrite <- Heq. left.
  - by rewrite lookup_insert_eq.
Qed.

Lemma savePositions_None (ds : list D3Node) (w h : Q) (k : Z) :
  k ∉ (node_id ∘ d3_node <$> ds) → savePositions ds w h !! k = None.
Proof.
  unfold savePositions. induction ds as [|a l IH] using rev_ind; [done|].
  rewrite fmap_app, foldl_snoc, not_elem_of_app. csimpl.
  intros [Hl Ha]. rewrite lookup_insert_ne; [by apply IH|].
  intros Heq. apply Ha. rewrite Heq. left.
Qed.

(** X8. Positions survive a rebuild: when the simulated nodes have
    distinct ids and defined positions, seeding their nodes from the map
    saved on a tick gives back these very positions, whatever the size of
    the viewport at the rebuild; and a node whose id was not in the
    simulation starts at the centre of the viewport. *)
Theorem seedNodes_restores_saved
    (ds : list D3Node) (w h w' h' : Q) (fresh : Node) :
  NoDup (node_id ∘ d3_node <$> ds) →
  Forall (λ d, is_Some (d3_x d) ∧ is_Some (d3_y d)) ds →
  seedNodes (d3_node <$> ds) (savePositions ds w h) w' h' = ds ∧
  (node_id fresh ∉ (node_id ∘ d3_node <$> ds) →
   seedNodes [fresh] (savePositions ds w h) w' h'
   = [mkD3Node fresh (Some (w' / 2)%Q) (Some (h' / 2)%Q)]).
Proof.
  intros Hnd Hdef. split.
  - unfold seedNodes. rewrite <- list_fmap_compose.
    rewrite <- (list_fmap_id ds) at 2. apply list_fmap_ext.
    intros i d Hd. apply list_elem_of_lookup_2 in Hd as Hin.
    simpl. rewrite (savePositions_lookup ds w h d Hnd Hin). simpl.
    rewrite Forall_forall in Hdef. destruct (Hdef d Hin) as [[x Hx] [y Hy]].
    destruct d as [n dx dy]. simpl in *. by subst.
  - intros Hfresh. unfold seedNodes. simpl.
    by rewrite savePositions_None.
Qed.

Lemma seedNodes_restores_saved_witness :
  NoDup (node_id ∘ d3_node <$> moved_nodes) ∧
  Forall (λ d, is_Some (d3_x d) ∧ is_Some (d3_y d)) moved_nodes ∧
  seedNodes (d3_node <$> moved_nodes)
    (savePositions moved_nodes (800 # 1)%Q (600 # 1)%Q) (1024 # 1)%Q (768 # 1)%Q
  = moved_nodes.
Proof.
  assert (NoDup (node_id ∘ d3_node <$> moved_nodes)) as Hnd.
  { by apply (bool_decide_unpack (NoDup _)); vm_compute. }
  assert (Forall (λ d, is_Some (d3_x d) ∧ is_Some (d3_y d)) moved_nodes) as Hdef.
  { repeat constructor; by eexists. }
  split_and!; [done..|].
  exact (proj1 (seedNodes_restores_saved moved_nodes (800 # 1)%Q (600 # 1)%Q
                  (1024 # 1)%Q (768 # 1)%Q gcn Hnd Hdef)).
Defined.

(** ** Wrapping a title *)

Lemma splitOn_nonempty (sep : ascii) (s : string) : splitOn sep s ≠ [].
Proof.
  destruct s as [|c s]; simpl; [done|].
  case_decide; [done|]. by destruct (splitOn sep s).
Qed.

Lemma join_cons_char (sep : string) (c : ascii) (w : string) (ws : list string) :
  join sep (String c w :: ws) = String c (join sep (w :: ws)).
Proof. by destruct ws. Qed.

(** [s.split(" ").join(" ")] is [s]. *)
Lemma join_splitOn (sep : ascii) (s : string) :
  join (String sep "") (splitOn sep s) = s.
Proof.
  induction s as [|c s IH]; [done|]. simpl.
  pose proof (splitOn_nonempty sep s) as Hne.
  case_decide as Hc.
  - subst c. destruct (splitOn sep s) as [|w ws]; [done|].
    change (join (String sep "") ("" :: w :: ws))
      with (String sep (join (String sep "") (w :: ws))).
    by rewrite IH.
  - destruct (splitOn sep s) as [|w ws]; [done|].
    by rewrite join_cons_char, IH.
Qed.

Lemma join_cons2 (sep x y : string) (l : list string) :
  join sep (x :: y :: l) = x +:+ sep +:+ join sep (y :: l).
Proof. reflexivity. Qed.

Lemma join_app (sep : string) (l1 l2 : list string) :
  l1 ≠ [] → l2 ≠ [] →
  join sep (l1 ++ l2) = join sep l1 +:+ sep +:+ join sep l2.
Proof.
  intros H1 H2. induction l1 as [|x l1 IH]; [done|].
  destruct l1 as [|y l1].
  - destruct l2 as [|z l2]; [done|]. apply join_cons2.
  - rewrite <- !app_comm_cons, !join_cons2, app_comm_cons, IH by done.
    by rewrite !string_app_assoc.
Qed.

Lemma join_concat (sep : string) (gs : list (list string)) :
  Forall (λ g, g ≠ []) gs →
  join sep (join sep <$> gs) = join sep (concat gs).
Proof.
  induction gs as [|g gs IH]; [done|]. intros [Hg Hgs]%Forall_cons.
  destruct gs as [|g' gs].
  - simpl. by rewrite app_nil_r.
  - rewrite !fmap_cons, join_cons2, <- fmap_cons, IH by done.
    change (concat (g :: g' :: gs)) with (g ++ concat (g' :: gs)).
    rewrite join_app; [done..|].
    apply Forall_cons in Hgs as [Hg' _]. simpl. by destruct g'.
Qed.

Section WrapFacts.
Variable measure : string → Q.
Variable maxWidth : Q.

(** The invariant of the wrapping loop. *)
Lemma wrap_fold (ws : list string) (st : WrapState) :
  Forall (λ g, g ≠ []) (wrap_lines st) →
  Forall (λ g, (2 ≤ length g)%nat → (measure (join " " g) <= maxWidth)%Q)
         (wrap_lines st ++ [wrap_line st]) →
  let st' := foldl (wrapStep measure maxWidth) st ws in
  Forall (λ g, g ≠ []) (wrap_lines st') ∧
  Forall (λ g, (2 ≤ length g)%nat → (measure (join " " g) <= maxWidth)%Q)
         (wrap_lines st' ++ [wrap_line st']) ∧
  concat (wrap_lines st') ++ wrap_line st'
  = concat (wrap_lines st) ++ wrap_line st ++ ws ∧
  (ws ≠ [] → wrap_line st' ≠ []).
Proof.
  revert st. induction ws as [|w ws IH]; intros st Hne Hfit; simpl.
  - rewrite app_nil_r. done.
  - apply Forall_app in Hfit as [Hfit Hline].
    rewrite Forall_singleton in Hline.
    set (st1 := wrapStep measure maxWidth st w).
    assert (Forall (λ g, g ≠ []) (wrap_lines st1) ∧
            Forall (λ g, (2 ≤ length g)%nat →
                         (measure (join " " g) <= maxWidth)%Q)
                   (wrap_lines st1 ++ [wrap_line st1]) ∧
            concat (wrap_lines st1) ++ wrap_line st1
            = concat (wrap_lines st) ++ wrap_line st ++ [w] ∧
            wrap_line st1 ≠ []) as (Hne1 & Hfit1 & Hcat1 & Hl1).
    { unfold st1, wrapStep.
      destruct (js_gt (measure (join " " (wrap_line st ++ [w]))) maxWidth)
        eqn:Hgt; simpl.
      - case_bool_decide as Hempty; simpl.
        + rewrite Hempty. split_and!; [done| |done|done].
          apply Forall_app. split; [done|]. apply Forall_singleton.
          simpl. lia.
        + split_and!; [| |by rewrite concat_app; simpl; rewrite app_nil_r, <- app_assoc|done].
          * apply Forall_app. split; [done|]. by apply Forall_singleton.
          * rewrite !Forall_app, !Forall_singleton. split_and!; [done..|].
            simpl. lia.
      - apply js_gt_false in Hgt. split_and!; [done| |done|by destruct (wrap_line st)].
        apply Forall_app. split; [done|]. by apply Forall_singleton. }
    destruct (IH st1 Hne1 Hfit1) as (Hne' & Hfit' & Hcat' & Hlast).
    split_and!; [done..| |].
    + rewrite Hcat', app_assoc, Hcat1, <- !app_assoc. done.
    + intros _. destruct ws as [|w' ws]; [exact Hl1|]. by apply Hlast.
Qed.

Lemma wrapWords_spec (title : string) :
  Forall (λ g, g ≠ []) (wrapWords measure maxWidth title) ∧
  Forall (λ g, (2 ≤ length g)%nat → (measure (join " " g) <= maxWidth)%Q)
         (wrapWords measure maxWidth title) ∧
  concat (wrapWords measure maxWidth title) = splitOn " " title.
Proof.
  unfold wrapWords.
  destruct (wrap_fold (splitOn " " title) (mkWrapState [] []))
    as (Hne & Hfit & Hcat & Hlast).
  { constructor. }
  { apply Forall_singleton. simpl. lia. }
  simpl in Hcat. specialize (Hlast (splitOn_nonempty _ _)).
  rewrite bool_decide_eq_false_2 by done.
  split_and!.
  - apply Forall_app. split; [done|]. by apply Forall_singleton.
  - done.
  - rewrite concat_app. simpl. by rewrite app_nil_r.
Qed.

(** X9. Wrapping a title loses nothing: the lines, joined by single
    spaces, give back the title; no line is empty of words; and a line
    of two words or more is never wider than [maxWidth] (a single word
    may be). *)
Theorem wrapLabel_keeps_title (title : string) :
  join " " (wrapLabel measure maxWidth title) = title ∧
  Forall (λ g, g ≠ [] ∧
               ((2 ≤ length g)%nat → (measure (join " " g) <= maxWidth)%Q))
         (wrapWords measure maxWidth title) ∧
  (1 ≤ length (wrapLabel measure maxWidth title)
     ≤ length (splitOn " " title))%nat.
Proof.
  destruct (wrapWords_spec title) as (Hne & Hfit & Hcat).
  split_and!.
  - unfold wrapLabel. rewrite join_concat by done. rewrite Hcat.
    apply (join_splitOn " ").
  - apply Forall_and. by split.
  - unfold wrapLabel. rewrite length_fmap.
    destruct (wrapWords measure maxWidth title) as [|g gs] eqn:Hw.
    { simpl in Hcat. by destruct (splitOn_nonempty " " title). }
    simpl. lia.
  - unfold wrapLabel. rewrite length_fmap, <- Hcat.
    clear Hcat Hfit. induction Hne as [|g gs Hg _ IH]; simpl; [lia|].
    rewrite length_app. destruct g; [done|]. simpl. lia.
Qed.
End WrapFacts.

(** The title of five words, one of them empty, wrapped at twelve
    characters. *)
Example wrapLabel_example :
  wrapLabel charCount (12 # 1)%Q long_title
  = ["Graph Neural"; "Networks for"; " Molecules"].
Proof. by vm_compute. Qed.

(** ** The regular expressions of findArxiv *)

Section MatcherFacts.
Context {R : Type}.
Implicit Types (k : list ascii → option R) (s : list ascii) (r : R).

Lemma lit_Some (i : bool) (p : list ascii) k s r :
  lit i p k s = Some r →
  ∃ m rest, s = m ++ rest ∧ sameText i p m ∧ k rest = Some r.
Proof.
  revert s. induction p as [|a p IH]; intros s; simpl.
  - intros Hk. exists [], s. split_and!; [done|constructor|done].
  - destruct s as [|b s]; [done|].
    destruct (sameChar i a b) eqn:Hab; [|done].
    intros (m & rest & -> & Hm & Hk)%IH.
    exists (b :: m), rest. split_and!; [done|by constructor|done].
Qed.


Lemma lazyStarGroup_Some (C : ascii → bool)
    (k : list ascii → list ascii → option R) s r :
  lazyStarGroup C k s = Some r →
  ∃ m rest, s = m ++ rest ∧ Forall (λ c, C c = true) m ∧ k m rest = Some r.
Proof.
  revert k. induction s as [|c s IH]; intros k; simpl.
  - destruct (k [] []) eqn:Hk; [|done]. intros [= ->].
    exists [], []. by split_and!.
  - destruct (k [] (c :: s)) eqn:Hk.
    + intros [= ->]. exists [], (c :: s). by split_and!.
    + destruct (C c) eqn:Hc; [|done].
      intros (m & rest & -> & Hm & Hr)%IH.
      exists (c :: m), rest. split_and!; [done|by constructor|done].
Qed.



Lemma search_Some (f : list ascii → option R) s r :
  search f s = Some r → ∃ pre rest, s = pre ++ rest ∧ f rest = Some r.
Proof.
  induction s as [|c s IH]; simpl.
  - destruct (f []) eqn:Hf; [|done]. intros [= ->]. by exists [], [].
  - destruct (f (c :: s)) eqn:Hf.
    + intros [= ->]. by exists [], (c :: s).
    + intros (pre & rest & -> & Hr)%IH. by exists (c :: pre), rest.
Qed.
End MatcherFacts.

Lemma sameText_exact (p m : list ascii) : sameText false p m → m = p.
Proof.
  induction 1 as [|a b p m Hab _ IH]; [done|].
  apply bool_decide_eq_true in Hab. by rewrite IH, Hab.
Qed.

Lemma sameText_length (i : bool) (p m : list ascii) :
  sameText i p m → length m = length p.
Proof. intros H. symmetry. by eapply Forall2_length. Qed.

(** A match of [entryRegex] is a piece of the text that opens and
    closes an entry, and the search goes on after it. *)
Lemma entryRegex_Some (s block rest : list ascii) :
  entryRegex s = Some (block, rest) →
  ∃ pre inner, s = pre ++ block ++ rest ∧
               block = chars "<entry>" ++ inner ++ chars "</entry>".
Proof.
  unfold entryRegex.
  intros (pre & s1 & -> & H1)%search_Some.
  apply lit_Some in H1 as (m1 & s2 & -> & ->%sameText_exact & H2).
  apply lazyStarGroup_Some in H2 as (inner & s3 & -> & _ & H3).
  apply lit_Some in H3 as (m3 & s4 & -> & ->%sameText_exact & [= <- <-]).
  exists pre, inner. split; [|done]. simpl. by rewrite <- ?app_assoc.
Qed.

Lemma entryRegex_shorter (s block rest : list ascii) :
  entryRegex s = Some (block, rest) → (length rest < length s)%nat.
Proof.
  intros (pre & inner & -> & ->)%entryRegex_Some.
  rewrite !length_app. simpl. lia.
Qed.

(** The length of the text is fuel enough for [execAll]. *)
Lemma execAll_enough (fuel fuel' : nat) (xml : list ascii) :
  (length xml ≤ fuel)%nat → (length xml ≤ fuel')%nat →
  execAll fuel xml = execAll fuel' xml.
Proof.
  revert fuel' xml. induction fuel as [|fuel IH]; intros fuel' xml Hf Hf'.
  - destruct xml; [|simpl in Hf; lia]. by destruct fuel'.
  - destruct fuel' as [|fuel'].
    { destruct xml; [|simpl in Hf'; lia]. done. }
    simpl. destruct (entryRegex xml) as [[block rest]|] eqn:He; [|done].
    apply entryRegex_shorter in He. f_equal. apply IH; lia.
Qed.

Lemma chars_length (s : string) : length (chars s) = String.length s.
Proof. induction s as [|c s IH]; [done|]. simpl. by rewrite IH. Qed.

(** [entryMatches] holds every match: more fuel finds no other. *)
Lemma entryMatches_fuel (fuel : nat) (xml : string) :
  (String.length xml ≤ fuel)%nat →
  string_of_list_ascii <$> execAll fuel (chars xml) = entryMatches xml.
Proof.
  intros Hf. unfold entryMatches. f_equal.
  apply execAll_enough; rewrite chars_length; lia.
Qed.







(** ** More on the lookup providers *)


Section ProvidersMore.
Variables Work Hit : Type.
Variable workLink : Work → Outcome (option string).
Variable hitLink : Hit → Outcome (option string).
Variable fetchOpenAlex : Request → Fetched (option (list Work)).
Variable fetchArxiv : Request → Fetched string.
Variable fetchScholar : Request → Fetched (option (list Hit)).
Variable SERPAPI_KEY : option string.


(** X11. A node without usable topic causes no network traffic: when
    the topic is absent or blank, or the limit is not positive, the
    chain issues no request at all and yields no paper, whatever the
    providers would answer. *)
Theorem lookupPapers_silent (topic : option string) (limit : Z) :
  limit ≤ 0 ∨ trim (js_or_str topic "") = "" →
  lookupPapers Work Hit workLink hitLink fetchOpenAlex fetchArxiv
    fetchScholar SERPAPI_KEY topic limit = ([], Returned []).
Proof.
  intros Hsilent. unfold lookupPapers.
  assert (findOpenAlex Work workLink fetchOpenAlex topic limit = ret []) as ->.
  { unfold findOpenAlex. case_decide; [done|].
    destruct Hsilent as [?|Hq]; [lia|]. by rewrite decide_True. }
  assert (findArxiv fetchArxiv topic limit = ret []) as ->.
  { unfold findArxiv. case_decide; [done|].
    destruct Hsilent as [?|Hq]; [lia|]. by rewrite decide_True. }
  assert (findScholarSerpAPI Hit hitLink fetchScholar SERPAPI_KEY topic limit
          = ret []) as ->.
  { unfold findScholarSerpAPI. case_decide as Hk; [done|].
    destruct Hsilent as [?|Hq]; [exfalso; apply Hk; right; lia|].
    by rewrite decide_True. }
  done.
Qed.


(** The loop changes the papers only. *)
Lemma attachPapers_fields (groups : list Group) (ns : list Node) (limit : Z) :
  ∃ tr r,
    attachPapers Work Hit workLink hitLink fetchOpenAlex fetchArxiv
      fetchScholar SERPAPI_KEY groups limit ns = (tr, r) ∧
    (∀ rq, rq ∈ tr → req_limit rq = limit) ∧
    ∀ ns', r = Returned ns' →
           Forall2 (λ n n', ∃ ps, n' = setPapers n ps) ns ns'.
Proof.
  destruct (attachPapers_trace Work Hit workLink hitLink fetchOpenAlex
              fetchArxiv fetchScholar SERPAPI_KEY groups ns limit)
    as (tr & r & Hrun & _ & _ & Hall & Hr).
  exists tr, r. split_and!; [done| |].
  - intros rq Hrq. by destruct (Hall rq Hrq).
  - intros ns' ->. eapply Forall2_impl; [done|].
    intros n n' (t & ps & _ & _ & ->). by exists ps.
Qed.
End ProvidersMore.


Lemma lookupPapers_silent_witness :
  lookupPapers string string plainLink plainLink slowOpenAlex arxivFeed
    noScholar (Some "key") (Some "   ") 3 = ([], Returned []).
Proof.
  apply (lookupPapers_silent string string plainLink plainLink slowOpenAlex
           arxivFeed noScholar (Some "key") (Some "   ") 3).
  right. by vm_compute.
Defined.


(** A feed as arXiv serves it, every link tag naming [href] before
    [rel]: the entries are found, no link is. *)
Example findArxiv_href_first :
  length (entryMatches feed_href_first) = 2%nat ∧
  findArxiv (λ _, Response true (Returned feed_href_first))
    (Some "graph learning") 3
  = ([mkRequest Arxiv "graph%20learning" 3 abortDelay None], Returned []).
Proof. split; by vm_compute. Qed.

(** ** The optimize handler *)

Lemma isGraph_nodes (g : Graph) :
  isGraph (Some g) = true ↔
  ∀ n, n ∈ g_nodes g →
       is_Some (title n) ∧ is_Some (summary n) ∧ is_Some (papers n)
       ∧ is_Some (relevance n).
Proof.
  unfold isGraph.
  assert (forallb edgeOk (g_edges g) = true) as -> by by apply forallb_forall.
  rewrite andb_true_r, forallb_forall. unfold nodeOk. split.
  - intros H n Hn%list_elem_of_In. specialize (H n Hn).
    rewrite !andb_true_iff, !bool_decide_eq_true in H. tauto.
  - intros H n Hn%list_elem_of_In. specialize (H n Hn).
    rewrite !andb_true_iff, !bool_decide_eq_true. tauto.
Qed.

Lemma backfill_id (g : Graph) :
  isGraph (Some g) = true → backfillSummary <$> g_nodes g = g_nodes g.
Proof.
  intros Hg. pose proof (proj1 (isGraph_nodes g) Hg) as Hn. clear Hg.
  rename Hn into Hg. rewrite <- (list_fmap_id (g_nodes g)) at 2.
  apply list_fmap_ext. intros i n Hn%list_elem_of_lookup_2.
  destruct (Hg n Hn) as (_ & [s Hs] & _). unfold backfillSummary.
  by rewrite Hs.
Qed.

(** X13. The back-fill of missing summaries in [handler] never changes
    anything: it runs after [isGraph], which only lets through graphs
    whose nodes all have a summary. *)
Theorem backfillSummary_never_fires (g : Graph) :
  isGraph (Some g) = true → backfillSummary <$> g_nodes g = g_nodes g.
Proof. apply backfill_id. Qed.

Lemma backfillSummary_never_fires_witness :
  isGraph (Some full_graph) = true ∧
  backfillSummary <$> g_nodes full_graph = g_nodes full_graph.
Proof.
  assert (isGraph (Some full_graph) = true) as Hg by by vm_compute.
  split; [done|]. exact (backfillSummary_never_fires full_graph Hg).
Defined.

(** X14. Every payload that the optimize handler accepts is served by
    the read endpoint: [isGraph] implies [isValidGraphPayload], and
    [getData] answers 200 with the stored graph itself. *)
Theorem getData_serves_valid_graph (g : Graph) :
  isGraph (Some g) = true →
  isValidGraphPayload (Some g) = true ∧
  getData (Ok (Some (Some g))) = mkHttpResponse 200 (BodyData g).
Proof.
  intros Hg.
  assert (isValidGraphPayload (Some g) = true) as Hv.
  { unfold isGraph, isValidGraphPayload in *.
    apply andb_true_iff in Hg as [Hn He]. rewrite He, andb_true_r.
    rewrite forallb_forall in Hn. apply forallb_forall. intros n Hin.
    specialize (Hn n Hin). unfold nodeOk in Hn.
    rewrite !andb_true_iff in *. tauto. }
  split; [done|]. unfold getData. by rewrite Hv.
Qed.

Lemma getData_serves_valid_graph_witness :
  isGraph (Some full_graph) = true ∧
  getData (Ok (Some (Some full_graph))) = mkHttpResponse 200 (BodyData full_graph).
Proof.
  assert (isGraph (Some full_graph) = true) as Hg by by vm_compute.
  split; [done|]. exact (proj2 (getData_serves_valid_graph full_graph Hg)).
Defined.

Lemma andThen_ok {A B} (evs : list Event) (a : A) (k : A → Run B) :
  andThen (evs, Ok a) k = (evs ++ (k a).1, (k a).2).
Proof. unfold andThen. by destruct (k a). Qed.

Lemma andThen_err {A B} (evs : list Event) (e : string) (k : A → Run B) :
  andThen ((evs, Err e) : Run A) k = (evs, Err e).
Proof. done. Qed.

Section HandlerFacts.
Variable dbGet : Result (option (option Graph)).
Variable dbPut : Graph → Result unit.
Variable OPENAI_API_KEY : option string.
Variable openai : list Node → OpenAIReply.
Variable parseGroups : string → Parsed.
Variable parsedLimit : Z.
Variables Work Hit : Type.
Variable workLink : Work → Outcome (option string).
Variable hitLink : Hit → Outcome (option string).
Variable fetchOpenAlex : Request → Fetched (option (list Work)).
Variable fetchArxiv : Request → Fetched string.
Variable fetchScholar : Request → Fetched (option (list Hit)).
Variable SERPAPI_KEY : option string.

Local Abbreviation theHandler :=
  (handler dbGet dbPut OPENAI_API_KEY openai parseGroups parsedLimit Work Hit
     workLink hitLink fetchOpenAlex fetchArxiv fetchScholar SERPAPI_KEY).
Local Abbreviation theBody :=
  (handlerBody dbGet dbPut OPENAI_API_KEY openai parseGroups parsedLimit Work
     Hit workLink hitLink fetchOpenAlex fetchArxiv fetchScholar SERPAPI_KEY).

(** The clustering call issues at most one request and never writes. *)
Lemma getMergeGroups_events (nodes : list Node) :
  ∃ evs r, getMergeGroups OPENAI_API_KEY openai parseGroups nodes = (evs, r) ∧
           (evs = [] ∨ evs = [EvGroups (liteNode <$> nodes)]).
Proof.
  unfold getMergeGroups. case_decide; [by eexists _, _; split; [|left]|].
  destruct (openai _) as [e|st t|e|a b]; try by (eexists _, _; split; [|right]).
  destruct (js_or a b) as [text|]; [|by eexists _, _; split; [|right]].
  case_decide; [by eexists _, _; split; [|right]|].
  destruct (parseGroups text); by eexists _, _; split; [|right].
Qed.

(** The shape of every run of the body of [handler]. *)
Lemma handlerBody_cases :
  (* the read fails *)
  (∃ e, dbGet = Err e ∧ theBody = ([EvRead], Err e)) ∨
  (* the payload is not a graph *)
  (∃ x, readGraph dbGet = ([EvRead], Ok x) ∧ isGraph x = false ∧
        theBody = ([EvRead],
                   Ok (mkHttpResponse 400
                         (BodyError "Stored payload is not a valid {nodes, edges} graph.")))) ∨
  (* the payload is a graph *)
  (∃ g, readGraph dbGet = ([EvRead], Ok (Some g)) ∧ isGraph (Some g) = true ∧
     ((* the clustering call fails *)
      (∃ evs e, getMergeGroups OPENAI_API_KEY openai parseGroups (g_nodes g)
                = (evs, Err e) ∧ theBody = (EvRead :: evs, Err e)) ∨
      (* it returns groups *)
      (∃ evs groups tr ns',
         getMergeGroups OPENAI_API_KEY openai parseGroups (g_nodes g)
           = (evs, Ok groups) ∧
         attachPapers Work Hit workLink hitLink fetchOpenAlex fetchArxiv
           fetchScholar SERPAPI_KEY groups (S2_PAPERS_PER_NODE parsedLimit)
           (res_nodes (mergeNodes (g_nodes g) groups)) = (tr, Returned ns') ∧
         let optimized :=
           mkGraph ns' (rewireEdges (g_edges g)
                          (res_idMap (mergeNodes (g_nodes g) groups))) in
         theBody
         = (EvRead :: evs ++ (EvLookup <$> tr) ++ [EvWrite optimized],
            match dbPut optimized with
            | Ok _ => Ok (mkHttpResponse 200 (BodyData optimized))
            | Err e => Err e
            end)) ∨
      (* a lookup throws *)
      (∃ evs groups tr,
         getMergeGroups OPENAI_API_KEY openai parseGroups (g_nodes g)
           = (evs, Ok groups) ∧
         attachPapers Work Hit workLink hitLink fetchOpenAlex fetchArxiv
           fetchScholar SERPAPI_KEY groups (S2_PAPERS_PER_NODE parsedLimit)
           (res_nodes (mergeNodes (g_nodes g) groups)) = (tr, Threw) ∧
         theBody
         = (EvRead :: evs ++ (EvLookup <$> tr),
            Err "URIError: URI malformed")))).
Proof.
  unfold handlerBody, readGraph.
  destruct dbGet as [[payload|]|e].
  - rewrite andThen_ok. destruct (isGraph payload) eqn:Hg; cbn [negb].
    + destruct payload as [g|]; [|done]. right; right. exists g.
      split_and!; [done..|]. rewrite (backfill_id g Hg).
      destruct (getMergeGroups OPENAI_API_KEY openai parseGroups (g_nodes g))
        as [evs [groups|e]] eqn:Hgroups.
      * right.
        destruct (attachPapers Work Hit workLink hitLink fetchOpenAlex
                    fetchArxiv fetchScholar SERPAPI_KEY groups
                    (S2_PAPERS_PER_NODE parsedLimit)
                    (res_nodes (mergeNodes (g_nodes g) groups)))
          as [tr [ns'|]] eqn:Hattach.
        -- left. exists evs, groups, tr, ns'. split_and!; [done..|].
           rewrite andThen_ok. cbv zeta. rewrite Hattach. unfold liftComp.
           cbn [fst snd]. rewrite andThen_ok. unfold writeGraph.
           destruct (dbPut _) as [[]|e].
           ++ rewrite andThen_ok. cbn [fst snd]. by rewrite !app_nil_r.
           ++ rewrite andThen_err. done.
        -- right. exists evs, groups, tr. split_and!; [done..|].
           rewrite andThen_ok. cbv zeta. rewrite Hattach. unfold liftComp.
           cbn [fst snd]. by rewrite andThen_err.
      * left. exists evs, e. split; [done|]. by rewrite andThen_err.
    + right; left. exists payload. split_and!; [done..|]. cbn [fst snd]. done.
  - rewrite andThen_ok. right; left. exists None. by split_and!.
  - left. by exists e.
Qed.

(** X15. A stored payload that is not a valid graph is answered with
    status 400 after the read alone: the clustering service is not
    called, nothing is looked up and nothing is written. *)
Theorem handler_rejects_invalid_payload (payload : option Graph) :
  dbGet = Ok (Some payload) → isGraph payload = false →
  theHandler
  = ([EvRead],
     mkHttpResponse 400
       (BodyError "Stored payload is not a valid {nodes, edges} graph.")).
Proof.
  intros Hget Hbad. unfold handler, handlerBody, readGraph.
  by rewrite Hget; simpl; rewrite Hbad.
Qed.

(** A clustering call that returns groups has issued its request. *)
Lemma getMergeGroups_ok (nodes : list Node) (evs : list Event)
    (groups : list Group) :
  getMergeGroups OPENAI_API_KEY openai parseGroups nodes = (evs, Ok groups) →
  evs = [EvGroups (liteNode <$> nodes)].
Proof.
  unfold getMergeGroups. case_decide; [done|].
  destruct (openai _) as [e|st t|e|a b]; try done.
  destruct (js_or a b) as [text|]; [|done].
  case_decide; [done|].
  destruct (parseGroups text); try done. by intros [= <- _].
Qed.

Lemma readGraph_found (g : Graph) :
  readGraph dbGet = ([EvRead], Ok (Some g)) → dbGet = Ok (Some (Some g)).
Proof.
  unfold readGraph. destruct dbGet as [[payload|]|e]; try done.
  by intros [= ->].
Qed.

(** X16. The handler writes at most once, as the last thing it does, and
    only after the read, the clustering request and all the lookups; it
    answers 200 exactly when that write succeeds, with the graph it has
    written as the body; every other answer is 400, 401 or 500. *)
Theorem handler_writes_last :
  ((∀ g, EvWrite g ∉ theHandler.1) ∧
   statusCode theHandler.2 ∈ [400; 401; 500]) ∨
  (∃ stored tr g,
     dbGet = Ok (Some (Some stored)) ∧
     theHandler.1
     = EvRead :: EvGroups (liteNode <$> g_nodes stored)
         :: (EvLookup <$> tr) ++ [EvWrite g] ∧
     match dbPut g with
     | Ok _ => theHandler.2 = mkHttpResponse 200 (BodyData g)
     | Err _ => statusCode theHandler.2 ∈ [401; 500]
     end).
Proof.
  unfold handler.
  assert (∀ g, EvWrite g ∉ [EvRead]) as Hread.
  { intros g [?|?%elem_of_nil]%elem_of_cons; done. }
  destruct handlerBody_cases
    as [(e & _ & ->)|[(x & _ & _ & ->)|(g & Hfound & _ & [(evs & e & Hgr & ->)|
         [(evs & groups & tr & ns' & Hgr & _ & ->)
         |(evs & groups & tr & Hgr & _ & ->)]])]].
  - left. destruct (includes e _); simpl; (split; [done|]);
      apply elem_of_cons; right; [left | right; left].
  - left. split; [done|]. simpl. left.
  - left.
    assert (∀ g', EvWrite g' ∉ EvRead :: evs) as Hno.
    { destruct (getMergeGroups_events (g_nodes g)) as (evs' & r & Hev & Hshape).
      rewrite Hgr in Hev. injection Hev as <- _.
      intros g' [?|Hin]%elem_of_cons; [done|].
      destruct Hshape as [-> | ->]; [by apply elem_of_nil in Hin|].
      by apply list_elem_of_singleton in Hin. }
    destruct (includes e _); simpl; (split; [done|]);
      apply elem_of_cons; right; [left | right; left].
  - right. cbv zeta. set (optimized := mkGraph ns' _).
    apply getMergeGroups_ok in Hgr as ->. apply readGraph_found in Hfound.
    exists g, tr, optimized.
    destruct (dbPut optimized) as [[]|e]; [|destruct (includes e _)];
      cbn [fst snd statusCode]; split_and!; try done.
    + left.
    + right; left.
  - left. apply getMergeGroups_ok in Hgr as ->.
    assert (includes "URIError: URI malformed" "invalid_api_key" = false)
      as -> by by vm_compute.
    cbn [fst snd statusCode]. split.
    + intros g' [?|[Hin|Hin]%elem_of_cons]%elem_of_cons; [done..|].
      by apply list_elem_of_fmap in Hin as (rq & ? & _).
    + right; right; left.
Qed.




(** X18. Without an API key the run of a valid stored graph stops after
    the read: no request leaves, nothing is written, and the answer is
    500 "Optimize failed", not the 401 whose text names a missing key. *)
Theorem handler_without_key (g : Graph) :
  dbGet = Ok (Some (Some g)) → isGraph (Some g) = true →
  js_or OPENAI_API_KEY None = None →
  theHandler = ([EvRead], mkHttpResponse 500 (BodyError "Optimize failed")).
Proof.
  intros Hget Hg Hkey. unfold handler, handlerBody, readGraph.
  rewrite Hget, andThen_ok, Hg. cbn [negb].
  unfold getMergeGroups. rewrite decide_True by done.
  rewrite andThen_err. done.
Qed.

Lemma includes_app (pre t p : string) :
  includes t p = true → includes (pre +:+ t) p = true.
Proof.
  intros Ht. induction pre as [|a pre IH]; [done|].
  rewrite string_app_cons. simpl. rewrite IH. apply orb_true_r.
Qed.

(** X19. When the clustering service refuses the request and its answer
    names [invalid_api_key], the handler answers 401 after the read and
    that one request; nothing is looked up or written. *)
Theorem handler_invalid_key (g : Graph) (status : Z) (text : string) :
  dbGet = Ok (Some (Some g)) → isGraph (Some g) = true →
  js_or OPENAI_API_KEY None ≠ None →
  openai (liteNode <$> g_nodes g) = OaNotOk status (Some text) →
  includes text "invalid_api_key" = true →
  theHandler
  = ([EvRead; EvGroups (liteNode <$> g_nodes g)],
     mkHttpResponse 401 (BodyError "OpenAI API key invalid or missing")).
Proof.
  intros Hget Hg Hkey Hreply Htext. unfold handler, handlerBody, readGraph.
  rewrite Hget, andThen_ok, Hg. cbn [negb]. rewrite (backfill_id g Hg).
  unfold getMergeGroups. rewrite decide_False by done. rewrite Hreply.
  rewrite andThen_err. cbn [fst snd app].
  assert (includes ("Error: OpenAI " +:+ numToString status +:+ ": "
                    +:+ default "" (Some text)) "invalid_api_key" = true) as ->.
  { rewrite <- !string_app_assoc. by apply includes_app. }
  done.
Qed.
(** The shape of a run answered with status 200. *)
Lemma handler_success_shape :
  statusCode theHandler.2 = 200 →
  ∃ stored groups tr ns',
    dbGet = Ok (Some (Some stored)) ∧ isGraph (Some stored) = true ∧
    attachPapers Work Hit workLink hitLink fetchOpenAlex fetchArxiv
      fetchScholar SERPAPI_KEY groups (S2_PAPERS_PER_NODE parsedLimit)
      (res_nodes (mergeNodes (g_nodes stored) groups)) = (tr, Returned ns') ∧
    node_id <$> ns' = node_id <$> res_nodes (mergeNodes (g_nodes stored) groups) ∧
    body theHandler.2
    = BodyData (mkGraph ns' (rewireEdges (g_edges stored)
                               (res_idMap (mergeNodes (g_nodes stored) groups)))).
Proof.
  unfold handler.
  destruct handlerBody_cases
    as [(e & _ & ->)|[(x & _ & _ & ->)|(g & Hfound & Hvalid & [(evs & e & Hgr & ->)|
         [(evs & groups & tr & ns' & Hgr & Hattach & ->)
         |(evs & groups & tr & _ & _ & ->)]])]].
  - by destruct (includes e _).
  - done.
  - by destruct (includes e _).
  - cbv zeta. destruct (dbPut _) as [[]|e]; [|by destruct (includes e _)].
    intros _. exists g, groups, tr, ns'. apply readGraph_found in Hfound.
    split_and!; try done.
    destruct (attachPapers_fields Work Hit workLink hitLink fetchOpenAlex
                fetchArxiv fetchScholar SERPAPI_KEY groups
                (res_nodes (mergeNodes (g_nodes g) groups))
                (S2_PAPERS_PER_NODE parsedLimit))
      as (tr' & r' & Hattach' & _ & Hfields).
    rewrite Hattach in Hattach'. injection Hattach' as <- <-.
    specialize (Hfields ns' eq_refl).
    clear -Hfields. induction Hfields as [|n n' ns ns' [ps ->] _ IH]; [done|].
    csimpl. by rewrite IH.
  - assert (includes "URIError: URI malformed" "invalid_api_key" = false)
      as -> by by vm_compute.
    done.
Qed.

(** X20. The client never shows a consolidation as fewer nodes. When the
    view holds the nodes of the stored graph, reconciling it with the
    graph that a successful optimize run has written leaves the list of
    node ids of the view as it was: the nodes that the server merged
    away stay on the view, and no node is added. *)
Theorem handleOptimize_keeps_view_ids (view stored g : Graph) :
  dbGet = Ok (Some (Some stored)) →
  theHandler.2 = mkHttpResponse 200 (BodyData g) →
  NoDup (node_id <$> g_nodes view) →
  (∀ k, k ∈ node_id <$> g_nodes stored → k ∈ node_id <$> g_nodes view) →
  node_id <$> g_nodes (reconcile view g) = node_id <$> g_nodes view.
Proof.
  intros Hget Hresp Hnd Hsub.
  assert (statusCode theHandler.2 = 200) as Hok by by rewrite Hresp.
  destruct (handler_success_shape Hok)
    as (stored' & groups & tr & ns' & Hget' & _ & _ & Hids & Hbody).
  rewrite Hget in Hget'. injection Hget' as <-.
  rewrite Hresp in Hbody. injection Hbody as ->.
  unfold reconcile, setDataNodes. cbn [g_nodes].
  assert (((λ n, (node_id n, n)) <$> g_nodes view).*1 = node_id <$> g_nodes view)
    as Hkeys by by rewrite <- list_fmap_compose.
  destruct (nodes_fold_wf ns' _ (prev_map_wf (g_nodes view))) as [_ Hk].
  rewrite omap_values_ids by done.
  rewrite nodes_fold_keys_eq.
  - rewrite omap_of_NoDup_id by by rewrite Hkeys. done.
  - intros n Hn. rewrite omap_of_NoDup_id by by rewrite Hkeys.
    rewrite Hkeys. apply Hsub.
    apply (mergeNodes_ids_incl (g_nodes stored) groups).
    rewrite <- Hids. by apply list_elem_of_fmap_2.
Qed.
(** A valid stored graph is never answered with 400. *)
Lemma handler_accepts_valid (g : Graph) :
  dbGet = Ok (Some (Some g)) → isGraph (Some g) = true →
  statusCode theHandler.2 ∈ [200; 401; 500].
Proof.
  intros Hget Hg. unfold handler.
  destruct handlerBody_cases
    as [(e & He & _)|[(x & Hx & Hbad & _)|(g' & _ & _ & [(evs & e & _ & ->)|
         [(evs & groups & tr & ns' & _ & _ & ->)
         |(evs & groups & tr & _ & _ & ->)]])]].
  - by rewrite Hget in He.
  - unfold readGraph in Hx. rewrite Hget in Hx. injection Hx as <-.
    by rewrite Hg in Hbad.
  - destruct (includes e _); simpl; [right; left | right; right; left].
  - cbv zeta. destruct (dbPut _) as [[]|e]; [left|].
    destruct (includes e _); simpl; [right; left | right; right; left].
  - assert (includes "URIError: URI malformed" "invalid_api_key" = false)
      as -> by by vm_compute.
    simpl. right; right; left.
Qed.
End HandlerFacts.

Section ChainEscapes.
Variables Work Hit : Type.
Variable workLink : Work → Outcome (option string).
Variable hitLink : Hit → Outcome (option string).
Variable fetchOpenAlex : Request → Fetched (option (list Work)).
Variable fetchArxiv : Request → Fetched string.
Variable fetchScholar : Request → Fetched (option (list Hit)).
Variable dbPut : Graph → Result unit.

(** C9. The chain does propagate an exception. Each provider builds its
    URL, with [encodeURIComponent], before its [try]: for the topic
    [torn_topic], which holds an unpaired surrogate, and the limit 3,
    each of the three providers throws without a request, whatever the
    network would answer, and so does the chain, at its first provider.
    The run of [handler] on a stored graph whose first node has that
    summary ends after the read and the clustering request: no paper is
    looked up for any node, nothing is written, and the answer is 500. *)
Theorem lookupPapers_propagates_URIError :
  isWellFormed torn_topic = false ∧
  findOpenAlex Work workLink fetchOpenAlex (Some torn_topic) 3 = ([], Threw) ∧
  findArxiv fetchArxiv (Some torn_topic) 3 = ([], Threw) ∧
  findScholarSerpAPI Hit hitLink fetchScholar (Some "key") (Some torn_topic) 3
    = ([], Threw) ∧
  lookupPapers Work Hit workLink hitLink fetchOpenAlex fetchArxiv
    fetchScholar (Some "key") (Some torn_topic) 3 = ([], Threw) ∧
  isGraph (Some torn_graph) = true ∧
  handler (Ok (Some (Some torn_graph))) dbPut (Some "sk") quiet_openai
    quiet_parse 3 Work Hit workLink hitLink fetchOpenAlex fetchArxiv
    fetchScholar (Some "key")
  = ([EvRead; EvGroups (liteNode <$> g_nodes torn_graph)],
     mkHttpResponse 500 (BodyError "Optimize failed")).
Proof.
  assert (isWellFormed torn_topic = false) as Hwf by by vm_compute.
  assert (trim (js_or_str (Some torn_topic) "") = torn_topic) as Htrim
    by by vm_compute.
  assert (findOpenAlex Work workLink fetchOpenAlex (Some torn_topic) 3
          = ([], Threw)) as Hfirst.
  { apply findOpenAlex_throws; [lia| by rewrite Htrim | by rewrite Htrim]. }
  split_and!; [done|done| | | |by vm_compute|].
  - apply findArxiv_throws; [lia| by rewrite Htrim | by rewrite Htrim].
  - apply findScholarSerpAPI_throws;
      [lia| by rewrite Htrim | done | left; by rewrite Htrim].
  - unfold lookupPapers. by rewrite Hfirst.
  - unfold handler, handlerBody, readGraph.
    rewrite andThen_ok.
    assert (isGraph (Some torn_graph) = true) as Hg by by vm_compute.
    rewrite Hg. cbn [negb]. rewrite (backfill_id torn_graph Hg).
    assert (getMergeGroups (Some "sk") quiet_openai quiet_parse
              (g_nodes torn_graph)
            = ([EvGroups (liteNode <$> g_nodes torn_graph)], Ok []))
      as -> by by vm_compute.
    rewrite andThen_ok. cbv zeta.
    assert (attachPapers Work Hit workLink hitLink fetchOpenAlex fetchArxiv
              fetchScholar (Some "key") [] (S2_PAPERS_PER_NODE 3)
              (res_nodes (mergeNodes (g_nodes torn_graph) []))
            = ([], Threw)) as ->.
    { assert (res_nodes (mergeNodes (g_nodes torn_graph) [])
              = g_nodes torn_graph) as -> by by vm_compute.
      assert (S2_PAPERS_PER_NODE 3 = 3) as -> by done.
      cbn [attachPapers torn_graph g_nodes].
      assert (topic [] (mkNode 1 (Some "GNN") (Some torn_topic) (Some [])
                          (Some (9 # 10)%Q)) = Some torn_topic)
        as -> by by vm_compute.
      unfold lookupPapers. by rewrite Hfirst. }
    unfold liftComp. cbn [fst snd]. rewrite andThen_err. by vm_compute.
Qed.
End ChainEscapes.

Lemma handler_rejects_invalid_payload_witness :
  isGraph (Some old_graph) = false ∧
  handler (Ok (Some (Some old_graph))) calm_put (Some "sk") calm_openai
    calm_parse 3 string string plainLink plainLink slowOpenAlex arxivFeed
    noScholar None
  = ([EvRead],
     mkHttpResponse 400
       (BodyError "Stored payload is not a valid {nodes, edges} graph.")).
Proof.
  split; [by vm_compute|].
  apply handler_rejects_invalid_payload with (payload := Some old_graph);
    [done | by vm_compute].
Defined.


Lemma handler_without_key_witness :
  handler calm_get calm_put (Some "") calm_openai calm_parse 3
    string string plainLink plainLink slowOpenAlex arxivFeed noScholar None
  = ([EvRead], mkHttpResponse 500 (BodyError "Optimize failed")).
Proof.
  apply handler_without_key with (g := full_graph);
    [done | by vm_compute | done].
Defined.

Lemma handler_invalid_key_witness :
  handler calm_get calm_put (Some "sk") refusing_openai calm_parse 3
    string string plainLink plainLink slowOpenAlex arxivFeed noScholar None
  = ([EvRead; EvGroups (liteNode <$> g_nodes full_graph)],
     mkHttpResponse 401 (BodyError "OpenAI API key invalid or missing")).
Proof.
  apply handler_invalid_key
    with (g := full_graph) (status := 401)
         (text := "{ error: { code: invalid_api_key } }");
    [done | by vm_compute | done | done | by vm_compute].
Defined.

Lemma handleOptimize_keeps_view_ids_witness :
  length (g_nodes calm_optimized) = 4%nat ∧
  node_id <$> g_nodes (reconcile full_graph calm_optimized)
  = node_id <$> g_nodes full_graph.
Proof.
  split; [by vm_compute|].
  apply (handleOptimize_keeps_view_ids calm_get calm_put (Some "sk")
           calm_openai calm_parse 3 string string plainLink plainLink
           slowOpenAlex arxivFeed noScholar None full_graph full_graph);
    [done | by vm_compute | by apply (bool_decide_unpack (NoDup _)); vm_compute
    | done].
Defined.

(** A run that succeeds: the read, the clustering request, the lookups
    of the four nodes that remain, and the write. *)
Example handler_run :
  let '(evs, response) :=
    handler calm_get calm_put (Some "sk") calm_openai calm_parse 3
      string string plainLink plainLink slowOpenAlex arxivFeed noScholar None in
  length evs = 11%nat ∧ statusCode response = 200 ∧
  last evs = (match body response with
              | BodyData g => Some (EvWrite g)
              | BodyError _ => None
              end).
Proof. by vm_compute. Qed.


(** ** The upload handler *)

Lemma startsWith_slice (s p : string) :
  startsWith s p = true → s = p +:+ slice (String.length p) s.
Proof.
  revert s. induction p as [|a p IH]; intros s; [done|].
  destruct s as [|b s]; [done|]. simpl.
  intros [->%bool_decide_eq_true Hs]%andb_true_iff.
  rewrite string_app_cons. f_equal. by apply IH.
Qed.

Lemma js_or_str_Some (o : option string) (s : string) :
  js_or_str o "" = s → s ≠ "" → o = Some s.
Proof.
  unfold js_or_str. destruct o as [t|]; [|by intros <-].
  case_decide; by intros <-.
Qed.

Lemma upload_isValid_isGraph (payload : option Graph) :
  Upload.isValidGraphPayload payload = isGraph payload.
Proof. done. Qed.

Section UploadFacts.
Variable UPLOAD_TOKEN : option string.
Variable jsonParse : string → option (option Graph).
Variable dbPut : Graph → Result unit.

Local Abbreviation theUpload := (Upload.handler UPLOAD_TOKEN jsonParse dbPut).

(** The shape of every run of the upload handler. *)
Lemma upload_cases (event : UploadEvent) :
  ((theUpload event).1 = [] ∧ up_statusCode (theUpload event).2 ∈ [400; 401]) ∨
  (∃ tok text g,
     UPLOAD_TOKEN = Some tok ∧ tok ≠ "" ∧
     js_or (authorization event) (Authorization event)
       = Some ("Bearer " +:+ tok) ∧
     js_or (event_body event) None = Some text ∧
     jsonParse text = Some (Some g) ∧ isGraph (Some g) = true ∧
     (theUpload event).1 = [EvWrite g] ∧
     (theUpload event).2
     = match dbPut g with
       | Ok _ => mkUploadResponse 200 None
       | Err _ => mkUploadResponse 500 (Some "Failed to write")
       end).
Proof.
  unfold Upload.handler.
  set (auth := js_or_str (js_or (authorization event) (Authorization event)) "").
  set (token := if startsWith auth "Bearer " then slice 7 auth else "").
  assert (token ≠ "" → auth = "Bearer " +:+ token) as Hbearer.
  { unfold token. destruct (startsWith auth "Bearer ") eqn:Hstart; [|done].
    intros _. by apply startsWith_slice in Hstart. }
  clearbody token.
  destruct (bool_decide (js_or UPLOAD_TOKEN None = None)) eqn:Hset; simpl.
  { left. split; [done|]. right; left. }
  apply bool_decide_eq_false in Hset.
  destruct (bool_decide (Some token = UPLOAD_TOKEN)) eqn:Htok; simpl;
    [|left; split; [done|]; right; left].
  apply bool_decide_eq_true in Htok.
  destruct (js_or (event_body event) None) as [text|] eqn:Hbody;
    [|left; split; [done|]; left].
  destruct (jsonParse text) as [payload|] eqn:Hparse;
    [|left; split; [done|]; left].
  destruct (Upload.isValidGraphPayload payload) eqn:Hvalid; simpl;
    [|left; split; [done|]; left].
  destruct payload as [g|]; [|done].
  right.
  assert (token ≠ "") as Hne.
  { intros Heq. rewrite Heq in Htok. by rewrite <- Htok in Hset. }
  exists token, text, g. split_and!; try done.
  - apply js_or_str_Some; [by apply Hbearer|].
    intros Heq. by vm_compute in Heq.
  - by destruct (dbPut g).
  - by destruct (dbPut g).
Qed.

(** X21. The upload handler stores nothing unless a token is configured,
    it is not empty, and the authorization header (lower-case spelling
    first) is exactly "Bearer " followed by it; the body must parse to a
    payload that passes the validation, and that payload is what is
    written. It answers 200 exactly when the write succeeds; an answer
    400 or 401 means that nothing was written. *)
Theorem upload_writes_only_authorized (event : UploadEvent) :
  ((theUpload event).1 = [] ∧ up_statusCode (theUpload event).2 ∈ [400; 401]) ∨
  (∃ tok text g,
     UPLOAD_TOKEN = Some tok ∧ tok ≠ "" ∧
     js_or (authorization event) (Authorization event)
       = Some ("Bearer " +:+ tok) ∧
     event_body event = Some text ∧ text ≠ "" ∧
     jsonParse text = Some (Some g) ∧
     Upload.isValidGraphPayload (Some g) = true ∧
     (theUpload event).1 = [EvWrite g] ∧
     (up_statusCode (theUpload event).2 = 200 ↔ ∃ u, dbPut g = Ok u) ∧
     up_statusCode (theUpload event).2 ∈ [200; 500]).
Proof.
  destruct (upload_cases event)
    as [?|(tok & text & g & Htok & Hne & Hauth & Hbody & Hparse & Hvalid & Hev & Hr)];
    [by left|right].
  exists tok, text, g. split_and!; try done.
  - unfold js_or in Hbody. destruct (event_body event) as [b|]; [|done].
    case_decide; [done|]. by injection Hbody as ->.
  - unfold js_or in Hbody. destruct (event_body event) as [b|]; [|done].
    case_decide; [done|]. by injection Hbody as <-.
  - rewrite Hr. destruct (dbPut g) as [u|e]; simpl; split; try done.
    + by exists u.
    + by intros [u ?].
  - rewrite Hr. destruct (dbPut g); simpl; [left | right; left].
Qed.

(** X22. A header in the lower-case spelling that is not empty decides
    alone: when it does not carry the token, the upload is refused with
    401 whatever the capitalised header says. *)
Theorem upload_lowercase_header_first (event : UploadEvent) (low : string) :
  authorization event = Some low → low ≠ "" →
  (∀ tok, UPLOAD_TOKEN = Some tok → low ≠ "Bearer " +:+ tok) →
  theUpload event = ([], mkUploadResponse 401 (Some "Unauthorized")).
Proof.
  intros Hlow Hne Hbad. unfold Upload.handler. rewrite Hlow.
  assert (js_or_str (js_or (Some low) (Authorization event)) "" = low) as ->.
  { unfold js_or, js_or_str. by rewrite !decide_False. }
  destruct (bool_decide (js_or UPLOAD_TOKEN None = None)) eqn:Hset; [done|].
  apply bool_decide_eq_false in Hset.
  rewrite bool_decide_eq_false_2; [done|]. intros Htok.
  destruct (startsWith low "Bearer ") eqn:Hstart.
  - apply startsWith_slice in Hstart. by apply (Hbad (slice 7 low)).
  - by rewrite <- Htok in Hset.
Qed.
End UploadFacts.

Section UploadThenOptimize.
Variable UPLOAD_TOKEN : option string.
Variable jsonParse : string → option (option Graph).
Variable tablePut : Graph → Result unit.
Variable dbPut : Graph → Result unit.
Variable OPENAI_API_KEY : option string.
Variable openai : list Node → OpenAIReply.
Variable parseGroups : string → Parsed.
Variable parsedLimit : Z.
Variables Work Hit : Type.
Variable workLink : Work → Outcome (option string).
Variable hitLink : Hit → Outcome (option string).
Variable fetchOpenAlex : Request → Fetched (option (list Work)).
Variable fetchArxiv : Request → Fetched string.
Variable fetchScholar : Request → Fetched (option (list Hit)).
Variable SERPAPI_KEY : option string.

(** X23. What the upload handler stores, the other two handlers accept:
    when the table gives back the graph that an upload has written, the
    optimize handler does not answer 400 and the read endpoint serves
    the graph. *)
Theorem uploaded_graph_is_accepted (event : UploadEvent) (g : Graph) :
  (Upload.handler UPLOAD_TOKEN jsonParse tablePut event).1 = [EvWrite g] →
  statusCode (handler (Ok (Some (Some g))) dbPut OPENAI_API_KEY openai
                parseGroups parsedLimit Work Hit workLink hitLink
                fetchOpenAlex fetchArxiv fetchScholar SERPAPI_KEY).2
    ∈ [200; 401; 500] ∧
  getData (Ok (Some (Some g))) = mkHttpResponse 200 (BodyData g).
Proof.
  intros Hwritten.
  assert (isGraph (Some g) = true) as Hg.
  { destruct (upload_cases UPLOAD_TOKEN jsonParse tablePut event)
      as [[Hev _]|(tok & text & g' & _ & _ & _ & _ & _ & Hvalid & Hev & _)].
    - by rewrite Hev in Hwritten.
    - rewrite Hev in Hwritten. by injection Hwritten as <-. }
  split.
  - by apply handler_accepts_valid with (g := g).
  - unfold getData.
    assert (isValidGraphPayload (Some g) = true) as ->; [|done].
    unfold isGraph, isValidGraphPayload in *.
    apply andb_true_iff in Hg as [Hn He]. rewrite He, andb_true_r.
    rewrite forallb_forall in Hn. apply forallb_forall. intros n Hin.
    specialize (Hn n Hin). unfold nodeOk in Hn.
    rewrite !andb_true_iff in *. tauto.
Qed.
End UploadThenOptimize.

Lemma upload_lowercase_header_first_witness :
  Upload.handler (Some "s3cret") graph_parse calm_put
    (mkUploadEvent (Some "Basic abc") (Some "Bearer s3cret") (Some "{graph}"))
  = ([], mkUploadResponse 401 (Some "Unauthorized")).
Proof.
  apply upload_lowercase_header_first with (low := "Basic abc");
    [done | done | by intros tok [= <-]].
Defined.

Lemma uploaded_graph_is_accepted_witness :
  (Upload.handler (Some "s3cret") graph_parse calm_put good_upload).1
    = [EvWrite full_graph] ∧
  getData (Ok (Some (Some full_graph)))
    = mkHttpResponse 200 (BodyData full_graph).
Proof.
  assert ((Upload.handler (Some "s3cret") graph_parse calm_put good_upload).1
          = [EvWrite full_graph]) as Hw by by vm_compute.
  split; [done|].
  exact (proj2 (uploaded_graph_is_accepted (Some "s3cret") graph_parse
                  calm_put calm_put (Some "sk") calm_openai calm_parse 3
                  string string plainLink plainLink slowOpenAlex arxivFeed
                  noScholar None good_upload full_graph Hw)).
Defined.

(** An upload that is stored, and one with the wrong token. *)
Example upload_runs :
  Upload.handler (Some "s3cret") graph_parse calm_put good_upload
    = ([EvWrite full_graph], mkUploadResponse 200 None) ∧
  Upload.handler (Some "s3cret") graph_parse calm_put
    (mkUploadEvent None (Some "Bearer guess") (Some "{graph}"))
    = ([], mkUploadResponse 401 (Some "Unauthorized")) ∧
  Upload.handler None graph_parse calm_put
    (mkUploadEvent None (Some "Bearer ") (Some "{graph}"))
    = ([], mkUploadResponse 401 (Some "Unauthorized")).
Proof. by vm_compute. Qed.
